(** * specway-cli: the Normalizer and the Diff Engine

    A shallow embedding of [src/lib/types.ts], [src/lib/diff-engine.ts] and
    [src/lib/parser.ts], and the properties of the specification that are
    stated about them.

    Conventions of the embedding.

    - A JavaScript string is a [string]; template literals are written with
      [++].  Case mapping is the ASCII one.
    - A [Map<string, V>] is an association list in insertion order: [set] on
      a key that is already there replaces the value in place, [set] on a
      fresh key appends the entry, iteration follows the list.  A
      [Set<string>] is the list of its members in insertion order.
    - A plain object that the code walks with [Object.entries] is the list
      of its entries in that order.
    - An optional member ([x?: T]) is an [option]; [undefined] is [None].
    - An array the code grows with [push] is threaded through the functions
      that push to it, and [push] appends at the end. *)

From Stdlib Require Import String Ascii List Bool Arith Lia ZArith Sorted.
Import ListNotations.
Local Open Scope string_scope.
Local Open Scope list_scope.
Set Warnings "-register-all".

(* ================================================================== *)
(** ** JavaScript containers *)
(* ================================================================== *)

Section JsMap.
Context {V : Type}.

Definition JsMap : Type := list (string * V).

(** [m.set(k, v)] *)
Fixpoint map_set (m : JsMap) (k : string) (v : V) : JsMap :=
  match m with
  | [] => [(k, v)]
  | (k', v') :: m' =>
      if (k' =? k)%string then (k', v) :: m' else (k', v') :: map_set m' k v
  end.

(** [m.get(k)] *)
Fixpoint map_get (m : JsMap) (k : string) : option V :=
  match m with
  | [] => None
  | (k', v') :: m' => if (k' =? k)%string then Some v' else map_get m' k
  end.

(** [m.has(k)] *)
Definition map_has (m : JsMap) (k : string) : bool :=
  match map_get m k with Some _ => true | None => false end.

Definition map_keys (m : JsMap) : list string := map fst m.
End JsMap.
Arguments JsMap : clear implicits.

(** [s.has(k)] *)
Definition set_has (s : list string) (k : string) : bool :=
  existsb (String.eqb k) s.

(** [s.add(k)] *)
Definition set_add (s : list string) (k : string) : list string :=
  if set_has s k then s else s ++ [k].

(** [new Set(xs)] *)
Definition new_Set (xs : list string) : list string :=
  fold_left set_add xs [].

(** A string is truthy when it is not empty. *)
Definition str_truthy (s : string) : bool :=
  match s with EmptyString => false | String _ _ => true end.

(** The double-quote character of the messages. *)
Definition dquote : string := String (ascii_of_nat 34) EmptyString.

(* ================================================================== *)
(** ** [types.ts] *)
(* ================================================================== *)

(** A deserialized value the code stores without looking into it
    ([unknown] in the source).  Numbers are integers here. *)
Inductive JSON : Type :=
| JNull
| JBool (b : bool)
| JNum (z : Z)
| JStr (s : string)
| JArr (l : list JSON)
| JObj (l : list (string * JSON)).

Inductive FieldType : Type := TString | TNumber | TBoolean | TArray | TObject.

Definition fieldtype_name (t : FieldType) : string :=
  match t with
  | TString => "string"
  | TNumber => "number"
  | TBoolean => "boolean"
  | TArray => "array"
  | TObject => "object"
  end.

Definition fieldtype_eqb (a b : FieldType) : bool :=
  match a, b with
  | TString, TString | TNumber, TNumber | TBoolean, TBoolean
  | TArray, TArray | TObject, TObject => true
  | _, _ => false
  end.

Inductive ParsedField : Type := mkParsedField {
  field_key : string;
  field_label : string;
  field_type : FieldType;
  field_required : bool;
  field_enum : option (list string);
  field_description : option string;
  field_format : option string;
  field_default : option JSON;
  field_properties : option (list ParsedField);
  field_items : option ParsedField;
  field_example : option JSON
}.

Inductive Method : Type := GET | POST | PUT | PATCH | DELETE.

Definition method_name (m : Method) : string :=
  match m with
  | GET => "GET"
  | POST => "POST"
  | PUT => "PUT"
  | PATCH => "PATCH"
  | DELETE => "DELETE"
  end.

Record ParsedAction : Type := mkParsedAction {
  action_slug : string;
  action_label : string;
  action_description : string;
  action_method : Method;
  action_path : string;
  action_pathParams : list ParsedField;
  action_queryParams : list ParsedField;
  action_bodySchema : list ParsedField;
  action_responseSchema : list ParsedField;
  action_tags : option (list string);
  action_deprecated : option bool
}.

(* ================================================================== *)
(** ** [diff-engine.ts] *)
(* ================================================================== *)

Inductive ChangeType : Type := breaking | non_breaking.

Definition is_breaking (t : ChangeType) : bool :=
  match t with breaking => true | non_breaking => false end.

Definition is_non_breaking (t : ChangeType) : bool :=
  match t with breaking => false | non_breaking => true end.

Record DiffChange : Type := mkDiffChange {
  change_type : ChangeType;
  change_category : string;
  change_message : string;
  change_method : option string;
  change_path : option string
}.

Record DiffResult : Type := mkDiffResult {
  changes : list DiffChange;
  breakingCount : nat;
  nonBreakingCount : nat
}.

(** The key of the lookup maps: [`${a.method} ${a.path}`]. *)
Definition action_key (a : ParsedAction) : string :=
  method_name (action_method a) ++ " " ++ action_path a.

(** [[...a.queryParams, ...a.pathParams]] *)
Definition all_params (a : ParsedAction) : list ParsedField :=
  action_queryParams a ++ action_pathParams a.

(** The loop [for (const x of xs) if (test x) changes.push(mk x)]. *)
Definition push_each {A : Type} (test : A -> bool) (mk : A -> DiffChange)
    (xs : list A) (changes : list DiffChange) : list DiffChange :=
  fold_left (fun acc x => if test x then acc ++ [mk x] else acc) xs changes.

Section CompareEndpoints.
Variables oldAction newAction : ParsedAction.

Let method : string := method_name (action_method newAction).
Let path : string := action_path newAction.

Definition change_here (t : ChangeType) (category message : string)
  : DiffChange :=
  mkDiffChange t category message (Some method) (Some path).

Definition oldRequiredParams : list string :=
  new_Set (map field_key (filter field_required (all_params oldAction))).

Definition newRequiredParams : list ParsedField :=
  filter field_required (all_params newAction).

Definition required_param_added (param : ParsedField) : DiffChange :=
  change_here breaking "required-param-added"
    ("Required parameter added: " ++ dquote ++ field_key param ++ dquote
       ++ " on " ++ method ++ " " ++ path).

Definition oldAllParams : list string :=
  new_Set (map field_key (all_params oldAction)).

Definition newOptionalParams : list ParsedField :=
  filter (fun p => negb (field_required p)) (all_params newAction).

Definition optional_param_added (param : ParsedField) : DiffChange :=
  change_here non_breaking "optional-param-added"
    ("Optional parameter added: " ++ dquote ++ field_key param ++ dquote
       ++ " on " ++ method ++ " " ++ path).

Definition newAllParams : list string :=
  new_Set (map field_key (all_params newAction)).

Definition param_removed (key : string) : DiffChange :=
  change_here breaking "param-removed"
    ("Parameter removed: " ++ dquote ++ key ++ dquote
       ++ " from " ++ method ++ " " ++ path).

Definition oldParamMap : JsMap ParsedField :=
  fold_left (fun m p => map_set m (field_key p) p) (all_params oldAction) [].

(** [old && old.type !== p.type] *)
Definition type_differs (p : ParsedField) : bool :=
  match map_get oldParamMap (field_key p) with
  | Some old => negb (fieldtype_eqb (field_type old) (field_type p))
  | None => false
  end.

(** The push of the type loop; it runs only where [type_differs] holds,
    so [old] is there. *)
Definition param_type_changed (p : ParsedField) : DiffChange :=
  let old_type :=
    match map_get oldParamMap (field_key p) with
    | Some old => fieldtype_name (field_type old)
    | None => "undefined"
    end in
  change_here breaking "param-type-changed"
    ("Parameter type changed: " ++ dquote ++ field_key p ++ dquote ++ " "
       ++ old_type ++ " -> " ++ fieldtype_name (field_type p)
       ++ " on " ++ method ++ " " ++ path).

Definition oldBodyKeys : list string :=
  new_Set (map field_key (action_bodySchema oldAction)).

Definition required_body_field_added (field : ParsedField) : DiffChange :=
  change_here breaking "required-body-field-added"
    ("Required body field added: " ++ dquote ++ field_key field ++ dquote
       ++ " on " ++ method ++ " " ++ path).

Definition newResponseKeys : list string :=
  new_Set (map field_key (action_responseSchema newAction)).

Definition response_field_removed (field : ParsedField) : DiffChange :=
  change_here breaking "response-field-removed"
    ("Response field removed: " ++ dquote ++ field_key field ++ dquote
       ++ " from " ++ method ++ " " ++ path).

Definition description_differs : bool :=
  negb (action_description oldAction =? action_description newAction)%string
  && str_truthy (action_description oldAction)
  && str_truthy (action_description newAction).

Definition description_changed : DiffChange :=
  change_here non_breaking "description-changed"
    ("Description changed on " ++ method ++ " " ++ path).

Definition compareEndpoints (changes : list DiffChange) : list DiffChange :=
  (* Required params added (breaking) *)
  let changes :=
    push_each (fun param => negb (set_has oldRequiredParams (field_key param)))
      required_param_added newRequiredParams changes in
  (* Optional params added (non-breaking) *)
  let changes :=
    push_each (fun param => negb (set_has oldAllParams (field_key param)))
      optional_param_added newOptionalParams changes in
  (* Params removed (breaking) *)
  let changes :=
    push_each (fun key => negb (set_has newAllParams key))
      param_removed oldAllParams changes in
  (* Param type changes (breaking) *)
  let changes :=
    push_each type_differs param_type_changed (all_params newAction) changes in
  (* Required body fields added (breaking) *)
  let changes :=
    push_each
      (fun field => field_required field
                    && negb (set_has oldBodyKeys (field_key field)))
      required_body_field_added (action_bodySchema newAction) changes in
  (* Response fields removed (breaking) *)
  let changes :=
    push_each (fun field => negb (set_has newResponseKeys (field_key field)))
      response_field_removed (action_responseSchema oldAction) changes in
  (* Description changes (non-breaking) *)
  if description_differs then changes ++ [description_changed] else changes.
End CompareEndpoints.

Definition build_map (actions : list ParsedAction) : JsMap ParsedAction :=
  fold_left (fun m a => map_set m (action_key a) a) actions [].

Definition endpoint_removed (oldAction : ParsedAction) : DiffChange :=
  mkDiffChange breaking "endpoint-removed"
    ("Endpoint removed: " ++ method_name (action_method oldAction) ++ " "
       ++ action_path oldAction)
    (Some (method_name (action_method oldAction)))
    (Some (action_path oldAction)).

Definition endpoint_added (newAction : ParsedAction) : DiffChange :=
  mkDiffChange non_breaking "endpoint-added"
    ("Endpoint added: " ++ method_name (action_method newAction) ++ " "
       ++ action_path newAction)
    (Some (method_name (action_method newAction)))
    (Some (action_path newAction)).

Definition diffSpecs (oldActions newActions : list ParsedAction) : DiffResult :=
  let changes : list DiffChange := [] in
  let oldMap := build_map oldActions in
  let newMap := build_map newActions in
  (* Removed endpoints (breaking) *)
  let changes :=
    push_each (fun e => negb (map_has newMap (fst e)))
      (fun e => endpoint_removed (snd e)) oldMap changes in
  (* Added endpoints (non-breaking) *)
  let changes :=
    push_each (fun e => negb (map_has oldMap (fst e)))
      (fun e => endpoint_added (snd e)) newMap changes in
  (* Modified endpoints *)
  let changes :=
    fold_left
      (fun acc e =>
         match map_get oldMap (fst e) with
         | None => acc
         | Some oldAction => compareEndpoints oldAction (snd e) acc
         end)
      newMap changes in
  mkDiffResult changes
    (List.length (filter (fun c => is_breaking (change_type c)) changes))
    (List.length (filter (fun c => is_non_breaking (change_type c)) changes)).


(* ================================================================== *)
(** ** [parser.ts]: documents *)
(* ================================================================== *)

(** The validated document is a JavaScript object of the [openapi-types]
    package.  Each record below lists the members the code reads.  A
    member the type declares optional is an [option]; a member it declares
    required is always there.  On values of these types no statement of
    the extractors throws, so their [catch] handlers do not run and the
    warning list an extractor is given comes back as it was; it is
    therefore not threaded through [createAction...], [extractBody...],
    [extractResponse...] and [schemaToFields].  A schema is a finite tree;
    a schema graph that refers back to itself through object properties is
    read as its unfolding, which the depth bound of [schemaToFields] cuts
    after three levels. *)

(** [SchemaObject | ReferenceObject]: a reference is an object with the
    member [$ref]. *)
Inductive SchemaObject : Type := mkSchemaObject {
  schema_ref : option string;
  schema_type : option string;
  schema_properties : option (list (string * SchemaObject));
  schema_required : option (list string);
  schema_items : option SchemaObject;
  schema_description : option string;
  schema_enum : option (list string);
  schema_format : option string;
  schema_default : option JSON;
  schema_example : option JSON
}.

Record MediaTypeObject : Type := mkMediaTypeObject {
  media_schema : option SchemaObject
}.

Definition Content : Type := list (string * MediaTypeObject).

(** A parameter of either dialect, or a reference. *)
Record ParameterObject : Type := mkParameterObject {
  param_ref : option string;
  param_name : string;
  param_in : option string;
  param_description : option string;
  param_required : option bool;
  param_schema : option SchemaObject;
  param_example : option JSON;
  param_type : option string;
  param_enum : option (list string);
  param_format : option string;
  param_default : option JSON
}.

Record RequestBodyObject : Type := mkRequestBodyObject {
  body_ref : option string;
  body_content : option Content
}.

(** A response of either dialect, or a reference. *)
Record ResponseObject : Type := mkResponseObject {
  response_ref : option string;
  response_content : option Content;
  response_schema : option SchemaObject
}.

Record OperationObject : Type := mkOperationObject {
  op_operationId : option string;
  op_summary : option string;
  op_description : option string;
  op_parameters : option (list ParameterObject);
  op_requestBody : option RequestBodyObject;
  op_responses : list (string * ResponseObject);
  op_tags : option (list string);
  op_deprecated : option bool
}.

Record PathItemObject : Type := mkPathItemObject {
  item_get : option OperationObject;
  item_post : option OperationObject;
  item_put : option OperationObject;
  item_patch : option OperationObject;
  item_delete : option OperationObject
}.

Definition PathsObject : Type := list (string * option PathItemObject).

Record OAuthFlow : Type := mkOAuthFlow {
  flow_authorizationUrl : option string;
  flow_tokenUrl : option string;
  flow_scopes : option (list (string * string))
}.

Record OAuthFlows : Type := mkOAuthFlows {
  flows_implicit : option OAuthFlow;
  flows_password : option OAuthFlow;
  flows_clientCredentials : option OAuthFlow;
  flows_authorizationCode : option OAuthFlow
}.

(** [OpenAPIV3.SecuritySchemeObject | OpenAPIV3.ReferenceObject], a union
    tagged by [type]. *)
Inductive SecuritySchemeV3 : Type :=
| V3Reference (ref : string)
| V3ApiKey (name : option string) (location : option string)
| V3Http (scheme : option string)
| V3OAuth2 (flows : OAuthFlows)
| V3OpenIdConnect (openIdConnectUrl : string).

(** [OpenAPIV2.SecuritySchemeObject], a union tagged by [type]. *)
Inductive SecuritySchemeV2 : Type :=
| V2Basic
| V2ApiKey (name : option string) (location : option string)
| V2OAuth2 (authorizationUrl tokenUrl : option string)
    (scopes : option (list (string * string))).

Record ContactObject : Type := mkContactObject {
  contact_name : option string;
  contact_email : option string;
  contact_url : option string
}.

Record InfoObject : Type := mkInfoObject {
  info_title : string;
  info_description : option string;
  info_version : string;
  info_termsOfService : option string;
  info_contact : option ContactObject
}.

Record ServerObject : Type := mkServerObject { server_url : string }.

Record ComponentsObject : Type := mkComponentsObject {
  components_securitySchemes : option (list (string * SecuritySchemeV3))
}.

(** [OpenAPIV2.Document | OpenAPIV3.Document]: one object, read by the
    extractor of the dialect its marker selects.  The two markers are kept
    as the raw values they hold, since the detection tests their type. *)
Record Document : Type := mkDocument {
  doc_openapi : option JSON;
  doc_swagger : option JSON;
  doc_info : InfoObject;
  doc_paths : PathsObject;
  doc_servers : option (list ServerObject);
  doc_components : option ComponentsObject;
  doc_schemes : option (list string);
  doc_host : option string;
  doc_basePath : option string;
  doc_securityDefinitions : option (list (string * SecuritySchemeV2))
}.

(* ------------------------------------------------------------------ *)
(** The canonical model ([types.ts], continued). *)

Inductive ApiKeyLocation : Type := in_header | in_query.

Inductive AuthConfig : Type :=
| ApiKeyAuthConfig (name : string) (location : ApiKeyLocation)
| BearerAuthConfig (scheme : string)
| OAuth2AuthConfig (authorizationUrl tokenUrl : string)
    (scopes : list (string * string)).

Inductive AuthType : Type := auth_apiKey | auth_bearer | auth_oauth2 | auth_none.

Record ParsedAuth : Type := mkParsedAuth {
  auth_type : AuthType;
  auth_config : option AuthConfig
}.

Record ParsedAPI : Type := mkParsedAPI {
  api_name : string;
  api_description : string;
  api_baseUrl : string;
  api_auth : ParsedAuth;
  api_actions : list ParsedAction;
  api_warnings : list string;
  api_version : option string;
  api_provider : option string;
  api_termsOfService : option string;
  api_contact : option ContactObject
}.

Inductive ParseResult : Type :=
| ParseSuccess (api : ParsedAPI)
| ParseFailure (error : string) (details : option string).

Definition success (r : ParseResult) : bool :=
  match r with ParseSuccess _ => true | ParseFailure _ _ => false end.

(* ================================================================== *)
(** ** [parser.ts]: utilities and schema conversion *)
(* ================================================================== *)

Definition is_digit (c : ascii) : bool :=
  (48 <=? nat_of_ascii c)%nat && (nat_of_ascii c <=? 57)%nat.

Definition is_upper (c : ascii) : bool :=
  (65 <=? nat_of_ascii c)%nat && (nat_of_ascii c <=? 90)%nat.

Definition is_lower (c : ascii) : bool :=
  (97 <=? nat_of_ascii c)%nat && (nat_of_ascii c <=? 122)%nat.

Definition char_toUpperCase (c : ascii) : ascii :=
  if is_lower c then ascii_of_nat (nat_of_ascii c - 32) else c.

Definition char_toLowerCase (c : ascii) : ascii :=
  if is_upper c then ascii_of_nat (nat_of_ascii c + 32) else c.

Fixpoint string_map (f : ascii -> ascii) (s : string) : string :=
  match s with
  | EmptyString => EmptyString
  | String c s' => String (f c) (string_map f s')
  end.

(** [\w] *)
Definition is_word_char (c : ascii) : bool :=
  is_digit c || is_upper c || is_lower c || Ascii.eqb c "_".

(** [.replace(/\b\w/g, (char) => char.toUpperCase())]: a word character
    is replaced when the character before it is not one. *)
Fixpoint capitalize_words (after_word : bool) (s : string) : string :=
  match s with
  | EmptyString => EmptyString
  | String c s' =>
      String (if is_word_char c && negb after_word then char_toUpperCase c else c)
        (capitalize_words (is_word_char c) s')
  end.

Definition toTitleCase (str : string) : string :=
  capitalize_words false
    (string_map
       (fun c => if Ascii.eqb c "-" || Ascii.eqb c "_" then " "%char else c)
       str).

(** [[a-z0-9]] *)
Definition is_slug_char (c : ascii) : bool := is_lower c || is_digit c.

(** [.replace(/[^a-z0-9]+/g, '-')] *)
Fixpoint collapse_runs (in_run : bool) (s : string) : string :=
  match s with
  | EmptyString => EmptyString
  | String c s' =>
      if is_slug_char c then String c (collapse_runs false s')
      else if in_run then collapse_runs true s'
      else String "-" (collapse_runs true s')
  end.

(** [.replace(/^-+|-+$/g, '')] *)
Fixpoint strip_leading_hyphens (s : string) : string :=
  match s with
  | EmptyString => EmptyString
  | String c s' => if Ascii.eqb c "-" then strip_leading_hyphens s' else s
  end.

Fixpoint strip_trailing_hyphens (s : string) : string :=
  match s with
  | EmptyString => EmptyString
  | String c s' =>
      match strip_trailing_hyphens s' with
      | EmptyString => if Ascii.eqb c "-" then EmptyString else String c EmptyString
      | r => String c r
      end
  end.

Definition generateSlug (input : string) : string :=
  strip_trailing_hyphens
    (strip_leading_hyphens
       (collapse_runs false (string_map char_toLowerCase input))).

Definition schemaTypeToFieldType (type : option string) : FieldType :=
  match type with
  | Some t =>
      if (t =? "string")%string then TString
      else if (t =? "number")%string then TNumber
      else if (t =? "integer")%string then TNumber
      else if (t =? "boolean")%string then TBoolean
      else if (t =? "array")%string then TArray
      else if (t =? "object")%string then TObject
      else TString
  | None => TString
  end.

(** [x.type === t] *)
Definition type_is (type : option string) (t : string) : bool :=
  match type with Some s => (s =? t)%string | None => false end.

Definition is_some {A : Type} (o : option A) : bool :=
  match o with Some _ => true | None => false end.

(** [required.includes(key)] *)
Definition includes_key (required : list string) (key : string) : bool :=
  existsb (String.eqb key) required.

(** The descriptor of the elements of an array property, before its
    [properties] are set. *)
Definition item_field (items : SchemaObject)
    (properties : option (list ParsedField)) : ParsedField :=
  mkParsedField "item" "Item" (schemaTypeToFieldType (schema_type items)) false
    (schema_enum items) (schema_description items) (schema_format items)
    None properties None None.

Fixpoint schemaToFields (schema : SchemaObject) (depth : nat) {struct schema}
  : list ParsedField :=
  if (2 <? depth)%nat then []
  else
    match schema with
    | mkSchemaObject _ type properties required_opt items_opt _ _ _ _ _ =>
        (* [schema.type === 'array' && schema.items && !('$ref' in schema.items)] *)
        let of_items :=
          match items_opt with
          | Some items =>
              if type_is type "array" && negb (is_some (schema_ref items))
              then schemaToFields items depth
              else []
          | None => []
          end in
        let required :=
          match required_opt with Some r => r | None => [] end in
        let of_properties :=
          fix each_property (entries : list (string * SchemaObject))
            : list ParsedField :=
            match entries with
            | [] => []
            | (key, prop) :: rest =>
                if is_some (schema_ref prop) then each_property rest
                else
                  let field_properties :=
                    if type_is (schema_type prop) "object"
                       && is_some (schema_properties prop)
                    then Some (schemaToFields prop (depth + 1))
                    else None in
                  let field_items :=
                    match schema_items prop with
                    | Some items =>
                        if type_is (schema_type prop) "array"
                           && negb (is_some (schema_ref items))
                        then
                          Some
                            (item_field items
                               (if type_is (schema_type items) "object"
                                   && is_some (schema_properties items)
                                then Some (schemaToFields items (depth + 1))
                                else None))
                        else None
                    | None => None
                    end in
                  mkParsedField key (toTitleCase key)
                    (schemaTypeToFieldType (schema_type prop))
                    (includes_key required key)
                    (schema_enum prop) (schema_description prop)
                    (schema_format prop) (schema_default prop)
                    field_properties field_items (schema_example prop)
                  :: each_property rest
            end in
        (* [schema.type === 'object' && schema.properties] *)
        match properties with
        | Some properties =>
            if type_is type "object" then of_properties properties
            else of_items
        | None => of_items
        end
    end.

(* ================================================================== *)
(** ** [parser.ts]: authentication *)
(* ================================================================== *)

(** [a || b] on strings that may be absent. *)
Definition str_or (a : option string) (b : string) : string :=
  match a with
  | Some s => if str_truthy s then s else b
  | None => b
  end.

Definition no_auth : ParsedAuth := mkParsedAuth auth_none None.

(** [!('$ref' in scheme)] *)
Definition isSecurityScheme (scheme : SecuritySchemeV3) : bool :=
  match scheme with V3Reference _ => false | _ => true end.

(** [typed.name && (inValue === 'header' || inValue === 'query')], with
    the configuration it leads to. *)
Definition api_key_config (name location : option string) : option AuthConfig :=
  match name, location with
  | Some name, Some inValue =>
      if str_truthy name then
        if (inValue =? "header")%string then Some (ApiKeyAuthConfig name in_header)
        else if (inValue =? "query")%string then Some (ApiKeyAuthConfig name in_query)
        else None
      else None
  | _, _ => None
  end.

(** [flow?.member] *)
Definition flow_member {A : Type} (flow : option OAuthFlow)
    (member : OAuthFlow -> option A) : option A :=
  match flow with Some f => member f | None => None end.

(** [a || b] where [a], when it is there, is an object. *)
Definition obj_or {A : Type} (a b : option A) : option A :=
  match a with Some _ => a | None => b end.

Definition v3_is_apiKey (e : string * SecuritySchemeV3) : bool :=
  match snd e with V3ApiKey _ _ => true | _ => false end.

Definition v3_is_bearer (e : string * SecuritySchemeV3) : bool :=
  match snd e with
  | V3Http scheme => type_is scheme "bearer"
  | _ => false
  end.

Definition v3_is_oauth2 (e : string * SecuritySchemeV3) : bool :=
  match snd e with V3OAuth2 _ => true | _ => false end.

Definition v3_oauth2_config (flows : OAuthFlows) : AuthConfig :=
  let authCode := flows_authorizationCode flows in
  let implicit := flows_implicit flows in
  let password := flows_password flows in
  let clientCred := flows_clientCredentials flows in
  OAuth2AuthConfig
    (str_or (flow_member authCode flow_authorizationUrl)
       (str_or (flow_member implicit flow_authorizationUrl) EmptyString))
    (str_or (flow_member authCode flow_tokenUrl)
       (str_or (flow_member password flow_tokenUrl)
          (str_or (flow_member clientCred flow_tokenUrl) EmptyString)))
    (match obj_or (flow_member authCode flow_scopes)
             (obj_or (flow_member implicit flow_scopes)
                (obj_or (flow_member password flow_scopes)
                   (flow_member clientCred flow_scopes))) with
     | Some scopes => scopes
     | None => []
     end).

(** A block [if (...) { ... return r; }]: [Some r] when it returns, [None]
    when control falls through to the statement after it. *)
Definition or_else (block : option ParsedAuth) (rest : ParsedAuth) : ParsedAuth :=
  match block with Some r => r | None => rest end.

(** [if (apiKeyScheme) { ... }] *)
Definition v3_apiKey_block (entries : list (string * SecuritySchemeV3))
  : option ParsedAuth :=
  match find v3_is_apiKey entries with
  | Some (_, V3ApiKey name inValue) =>
      match api_key_config name inValue with
      | Some config => Some (mkParsedAuth auth_apiKey (Some config))
      | None => None
      end
  | _ => None
  end.

(** [if (bearerScheme) { ... }] *)
Definition v3_bearer_block (entries : list (string * SecuritySchemeV3))
  : option ParsedAuth :=
  match find v3_is_bearer entries with
  | Some (_, V3Http scheme) =>
      Some (mkParsedAuth auth_bearer
              (Some (BearerAuthConfig (str_or scheme "bearer"))))
  | _ => None
  end.

(** [if (oauth2Scheme) { ... }] *)
Definition v3_oauth2_block (entries : list (string * SecuritySchemeV3))
  : option ParsedAuth :=
  match find v3_is_oauth2 entries with
  | Some (_, V3OAuth2 flows) =>
      Some (mkParsedAuth auth_oauth2 (Some (v3_oauth2_config flows)))
  | _ => None
  end.

Definition extractAuthOpenAPI3
    (schemes : option (list (string * SecuritySchemeV3))) : ParsedAuth :=
  match schemes with
  | None => no_auth
  | Some [] => no_auth
  | Some schemes =>
      let entries := filter (fun e => isSecurityScheme (snd e)) schemes in
      or_else (v3_apiKey_block entries)
        (or_else (v3_bearer_block entries)
           (or_else (v3_oauth2_block entries) no_auth))
  end.

Definition v2_is_apiKey (e : string * SecuritySchemeV2) : bool :=
  match snd e with V2ApiKey _ _ => true | _ => false end.

Definition v2_is_basic (e : string * SecuritySchemeV2) : bool :=
  match snd e with V2Basic => true | _ => false end.

Definition v2_is_oauth2 (e : string * SecuritySchemeV2) : bool :=
  match snd e with V2OAuth2 _ _ _ => true | _ => false end.

(** [if (apiKeyScheme) { ... }] *)
Definition v2_apiKey_block (entries : list (string * SecuritySchemeV2))
  : option ParsedAuth :=
  match find v2_is_apiKey entries with
  | Some (_, V2ApiKey name inValue) =>
      match api_key_config name inValue with
      | Some config => Some (mkParsedAuth auth_apiKey (Some config))
      | None => None
      end
  | _ => None
  end.

(** [if (basicScheme) { ... }] *)
Definition v2_basic_block (entries : list (string * SecuritySchemeV2))
  : option ParsedAuth :=
  match find v2_is_basic entries with
  | Some _ => Some (mkParsedAuth auth_bearer (Some (BearerAuthConfig "basic")))
  | None => None
  end.

(** [if (oauth2Scheme) { ... }] *)
Definition v2_oauth2_block (entries : list (string * SecuritySchemeV2))
  : option ParsedAuth :=
  match find v2_is_oauth2 entries with
  | Some (_, V2OAuth2 authorizationUrl tokenUrl scopes) =>
      Some (mkParsedAuth auth_oauth2
              (Some (OAuth2AuthConfig (str_or authorizationUrl EmptyString)
                       (str_or tokenUrl EmptyString)
                       (match scopes with Some s => s | None => [] end))))
  | _ => None
  end.

Definition extractAuthSwagger2
    (definitions : option (list (string * SecuritySchemeV2))) : ParsedAuth :=
  match definitions with
  | None => no_auth
  | Some [] => no_auth
  | Some entries =>
      or_else (v2_apiKey_block entries)
        (or_else (v2_basic_block entries)
           (or_else (v2_oauth2_block entries) no_auth))
  end.

(* ================================================================== *)
(** ** [parser.ts]: actions *)
(* ================================================================== *)

(** The methods of [HTTP_METHODS], in its order.  The source holds their
    lower-case names and upper-cases them for the action. *)
Definition HTTP_METHODS : list Method := [GET; POST; PUT; PATCH; DELETE].

Definition method_lower (m : Method) : string :=
  match m with
  | GET => "get"
  | POST => "post"
  | PUT => "put"
  | PATCH => "patch"
  | DELETE => "delete"
  end.

(** [pathItem[method]] *)
Definition item_operation (pathItem : PathItemObject) (method : Method)
  : option OperationObject :=
  match method with
  | GET => item_get pathItem
  | POST => item_post pathItem
  | PUT => item_put pathItem
  | PATCH => item_patch pathItem
  | DELETE => item_delete pathItem
  end.

(** [o[k]] on a plain object. *)
Definition obj_get {V : Type} (o : list (string * V)) (k : string) : option V :=
  map_get o k.

(** Truthiness of a deserialized value. *)
Definition json_truthy (v : JSON) : bool :=
  match v with
  | JNull => false
  | JBool b => b
  | JNum z => negb (Z.eqb z 0)
  | JStr s => str_truthy s
  | JArr _ => true
  | JObj _ => true
  end.

(** [a || b] on deserialized values that may be absent. *)
Definition json_or (a b : option JSON) : option JSON :=
  match a with
  | Some v => if json_truthy v then a else b
  | None => b
  end.

(** [b ?? false] *)
Definition or_false (b : option bool) : bool :=
  match b with Some v => v | None => false end.

Definition paramToFieldV3 (param : ParameterObject) : option ParsedField :=
  match param_schema param with
  | None => None
  | Some schema =>
      Some (mkParsedField (param_name param) (toTitleCase (param_name param))
              (schemaTypeToFieldType (schema_type schema))
              (or_false (param_required param))
              (schema_enum schema) (param_description param)
              (schema_format schema) (schema_default schema)
              None None
              (json_or (param_example param) (schema_example schema)))
  end.

(** [content?.[k]] *)
Definition content_get (content : option Content) (k : string)
  : option MediaTypeObject :=
  match content with Some c => obj_get c k | None => None end.

Definition extractBodyV3 (requestBody : option RequestBodyObject)
  : list ParsedField :=
  match requestBody with
  | None => []
  | Some requestBody =>
      if is_some (body_ref requestBody) then []
      else
        let content := body_content requestBody in
        let jsonContent :=
          obj_or (content_get content "application/json")
            (content_get content "application/x-www-form-urlencoded") in
        match jsonContent with
        | Some (mkMediaTypeObject (Some schema)) => schemaToFields schema 0
        | _ => []
        end
  end.

(** [responses['200'] || responses['201'] || responses['2XX']] *)
Definition success_response (responses : list (string * ResponseObject))
  : option ResponseObject :=
  obj_or (obj_get responses "200")
    (obj_or (obj_get responses "201") (obj_get responses "2XX")).

Definition extractResponseV3 (responses : list (string * ResponseObject))
  : list ParsedField :=
  match success_response responses with
  | None => []
  | Some success =>
      if is_some (response_ref success) then []
      else
        match content_get (response_content success) "application/json" with
        | Some (mkMediaTypeObject (Some schema)) => schemaToFields schema 0
        | _ => []
        end
  end.

Definition createActionOpenAPI3 (path : string) (method : Method)
    (op : OperationObject) : option ParsedAction :=
  let slug :=
    generateSlug (str_or (op_operationId op) (method_lower method ++ "-" ++ path)) in
  let label := str_or (op_summary op) (toTitleCase slug) in
  let description :=
    str_or (op_description op) (str_or (op_summary op) EmptyString) in
  let params :=
    fold_left
      (fun acc p =>
         match paramToFieldV3 p with
         | Some field =>
             if type_is (param_in p) "path" then (fst acc ++ [field], snd acc)
             else if type_is (param_in p) "query" then (fst acc, snd acc ++ [field])
             else acc
         | None => acc
         end)
      (match op_parameters op with Some ps => ps | None => [] end)
      ([], []) in
  let pathParams := fst params in
  let queryParams := snd params in
  let bodySchema := extractBodyV3 (op_requestBody op) in
  let responseSchema := extractResponseV3 (op_responses op) in
  Some (mkParsedAction slug label description method path pathParams queryParams
          bodySchema responseSchema (op_tags op) (op_deprecated op)).

(** The two loops of [extractActions...], over the paths and over
    [HTTP_METHODS], for either [createAction...]. *)
Definition extractActions
    (createAction : string -> Method -> OperationObject -> option ParsedAction)
    (paths : PathsObject) : list ParsedAction :=
  fold_left
    (fun actions entry =>
       match snd entry with
       | None => actions
       | Some pathItem =>
           fold_left
             (fun actions method =>
                match item_operation pathItem method with
                | Some operation =>
                    match createAction (fst entry) method operation with
                    | Some action => actions ++ [action]
                    | None => actions
                    end
                | None => actions
                end)
             HTTP_METHODS actions
       end)
    paths [].

Definition extractActionsOpenAPI3 (paths : PathsObject) : list ParsedAction :=
  extractActions createActionOpenAPI3 paths.

Definition paramToFieldV2 (param : ParameterObject) : option ParsedField :=
  if is_some (param_schema param) then None
  else
    Some (mkParsedField (param_name param) (toTitleCase (param_name param))
            (schemaTypeToFieldType (param_type param))
            (or_false (param_required param))
            (param_enum param) (param_description param)
            (param_format param) (param_default param)
            None None None).

Definition extractResponseSwagger2 (responses : list (string * ResponseObject))
  : list ParsedField :=
  match success_response responses with
  | None => []
  | Some success =>
      if is_some (response_ref success) then []
      else
        match response_schema success with
        | Some schema => schemaToFields schema 0
        | None => []
        end
  end.

(** The state of the parameter loop of [createActionSwagger2]. *)
Record ParamState : Type := mkParamState {
  st_pathParams : list ParsedField;
  st_queryParams : list ParsedField;
  st_bodySchema : list ParsedField
}.

Definition createActionSwagger2 (path : string) (method : Method)
    (op : OperationObject) : option ParsedAction :=
  let slug :=
    generateSlug (str_or (op_operationId op) (method_lower method ++ "-" ++ path)) in
  let label := str_or (op_summary op) (toTitleCase slug) in
  let description :=
    str_or (op_description op) (str_or (op_summary op) EmptyString) in
  let params :=
    fold_left
      (fun st p =>
         match param_in p with
         | None => st
         | Some location =>
             if (location =? "body")%string then
               match param_schema p with
               | Some schema =>
                   mkParamState (st_pathParams st) (st_queryParams st)
                     (schemaToFields schema 0)
               | None => st
               end
             else
               match paramToFieldV2 p with
               | Some field =>
                   if (location =? "path")%string then
                     mkParamState (st_pathParams st ++ [field])
                       (st_queryParams st) (st_bodySchema st)
                   else if (location =? "query")%string then
                     mkParamState (st_pathParams st)
                       (st_queryParams st ++ [field]) (st_bodySchema st)
                   else st
               | None => st
               end
         end)
      (match op_parameters op with Some ps => ps | None => [] end)
      (mkParamState [] [] []) in
  let responseSchema := extractResponseSwagger2 (op_responses op) in
  Some (mkParsedAction slug label description method path
          (st_pathParams params) (st_queryParams params) (st_bodySchema params)
          responseSchema (op_tags op) (op_deprecated op)).

Definition extractActionsSwagger2 (paths : PathsObject) : list ParsedAction :=
  extractActions createActionSwagger2 paths.

(* ================================================================== *)
(** ** [parser.ts]: documents to the canonical model *)
(* ================================================================== *)

(** [typeof spec.openapi === 'string' && spec.openapi.startsWith('3.')];
    the validated document is an object. *)
Definition isOpenAPI3 (spec : Document) : bool :=
  match doc_openapi spec with
  | Some (JStr openapi) => String.prefix "3." openapi
  | _ => false
  end.

(** ['swagger' in spec && spec.swagger === '2.0'] *)
Definition isSwagger2 (spec : Document) : bool :=
  match doc_swagger spec with
  | Some (JStr swagger) => (swagger =? "2.0")%string
  | _ => false
  end.

(** The members of the result both dialects fill the same way. *)
Definition assemble_api (spec : Document) (baseUrl : string) (auth : ParsedAuth)
    (actions : list ParsedAction) (warnings : list string) : ParsedAPI :=
  let info := doc_info spec in
  mkParsedAPI
    (str_or (Some (info_title info)) "Untitled API")
    (str_or (info_description info) EmptyString)
    baseUrl auth actions warnings
    (Some (info_version info))
    (match info_contact info with Some c => contact_name c | None => None end)
    (info_termsOfService info)
    (info_contact info).

Definition parseOpenAPI3 (spec : Document) (initialWarnings : list string)
  : ParseResult :=
  let warnings := initialWarnings in
  let baseUrl :=
    match doc_servers spec with
    | Some (server :: _) => server_url server
    | _ => "https://api.example.com"
    end in
  let auth :=
    extractAuthOpenAPI3
      (match doc_components spec with
       | Some components => components_securitySchemes components
       | None => None
       end) in
  let actions := extractActionsOpenAPI3 (doc_paths spec) in
  ParseSuccess (assemble_api spec baseUrl auth actions warnings).

Definition parseSwagger2 (spec : Document) (initialWarnings : list string)
  : ParseResult :=
  let warnings := initialWarnings in
  let scheme :=
    str_or (match doc_schemes spec with
            | Some (s :: _) => Some s
            | _ => None
            end) "https" in
  let host := str_or (doc_host spec) "api.example.com" in
  let basePath := str_or (doc_basePath spec) EmptyString in
  let baseUrl := (scheme ++ "://" ++ host ++ basePath)%string in
  let auth := extractAuthSwagger2 (doc_securityDefinitions spec) in
  let actions := extractActionsSwagger2 (doc_paths spec) in
  ParseSuccess (assemble_api spec baseUrl auth actions warnings).

(** [s.includes(sub)] *)
Fixpoint includes (sub s : string) : bool :=
  String.prefix sub s
  || match s with
     | EmptyString => false
     | String _ s' => includes sub s'
     end.

(** What a call of the validation library does: it returns a document or
    throws, an [Error] with its message or some other value. *)
Inductive Thrown : Type :=
| ThrownError (message : string)
| ThrownOther.

Inductive Outcome : Type :=
| Returned (validatedSpec : Document)
| Threw (error : Thrown).

Section ParseSpec.
(** [SwaggerParser.validate] and [SwaggerParser.parse], applied to the
    clone of the deserialized document. *)
Variables validate parse : JSON -> Outcome.

(** The two tests on the validated document and the final [return]. *)
Definition dispatch (validatedSpec : Document) (parseWarnings : list string)
  : ParseResult :=
  if isOpenAPI3 validatedSpec then parseOpenAPI3 validatedSpec parseWarnings
  else if isSwagger2 validatedSpec then parseSwagger2 validatedSpec parseWarnings
  else
    ParseFailure "Unsupported specification version"
      (Some "Only OpenAPI 3.x and Swagger 2.0 are supported").

Definition parseSpec (spec : JSON) : ParseResult :=
  let parseWarnings : list string := [] in
  match validate spec with
  | Returned validatedSpec => dispatch validatedSpec parseWarnings
  | Threw error =>
      let msg :=
        match error with
        | ThrownError message => message
        | ThrownOther => "Unknown validation error"
        end in
      let isMissingRef :=
        includes "Missing $ref pointer" msg || includes "does not exist" msg in
      if isMissingRef then
        let parseWarnings :=
          parseWarnings ++ [("Unresolved references: " ++ msg)%string] in
        match parse spec with
        | Returned validatedSpec => dispatch validatedSpec parseWarnings
        | Threw _ =>
            ParseFailure "Invalid OpenAPI/Swagger specification" (Some msg)
        end
      else ParseFailure "Invalid OpenAPI/Swagger specification" (Some msg)
  end.
End ParseSpec.

(* ================================================================== *)
(** ** [parser.ts]: the validation summary *)
(* ================================================================== *)

(** [ParsedAuth['type']] as the string it is. *)
Definition auth_type_name (t : AuthType) : string :=
  match t with
  | auth_apiKey => "apiKey"
  | auth_bearer => "bearer"
  | auth_oauth2 => "oauth2"
  | auth_none => "none"
  end.

(** [ValidationSummary] of [types.ts].  [endpointsByMethod] is a plain
    object with the method names as keys, in the order they were first
    written. *)
Record ValidationSummary : Type := mkValidationSummary {
  summary_title : string;
  summary_version : string;
  summary_baseUrl : string;
  summary_authType : string;
  summary_endpointCount : nat;
  summary_endpointsByMethod : JsMap nat;
  summary_tags : list string;
  summary_errors : list string;
  summary_warnings : list string;
  summary_deprecated : nat
}.

(** [n || 0] on a count that may be absent. *)
Definition count_or_0 (n : option nat) : nat :=
  match n with Some v => v | None => 0 end.

(** [xs.sort()] on strings: the default order, by code units (here the
    bytes of the string).  The result of sorting is fixed by the order;
    it is computed by insertion. *)
Fixpoint sort_insert (x : string) (sorted : list string) : list string :=
  match sorted with
  | [] => [x]
  | y :: rest =>
      if String.leb x y then x :: sorted else y :: sort_insert x rest
  end.

Definition js_sort (xs : list string) : list string :=
  fold_right sort_insert [] xs.

(** The three variables the loop of [buildValidationSummary] updates. *)
Record SummaryState : Type := mkSummaryState {
  st_endpointsByMethod : JsMap nat;
  st_allTags : list string;
  st_deprecated : nat
}.

(** One turn of the loop. *)
Definition summary_step (st : SummaryState) (action : ParsedAction)
  : SummaryState :=
  let method := method_name (action_method action) in
  mkSummaryState
    (* endpointsByMethod[action.method] = (endpointsByMethod[action.method] || 0) + 1 *)
    (map_set (st_endpointsByMethod st) method
       (count_or_0 (map_get (st_endpointsByMethod st) method) + 1))
    (* if (action.tags) action.tags.forEach((t) => allTags.add(t)) *)
    (match action_tags action with
     | Some tags => fold_left set_add tags (st_allTags st)
     | None => st_allTags st
     end)
    (* if (action.deprecated) deprecated++ *)
    (match action_deprecated action with
     | Some true => st_deprecated st + 1
     | _ => st_deprecated st
     end).

Definition buildValidationSummary (api : ParsedAPI) (errors : list string)
  : ValidationSummary :=
  let st := fold_left summary_step (api_actions api) (mkSummaryState [] [] 0) in
  mkValidationSummary
    (api_name api)
    (str_or (api_version api) "unknown")
    (api_baseUrl api)
    (auth_type_name (auth_type (api_auth api)))
    (length (api_actions api))
    (st_endpointsByMethod st)
    (js_sort (st_allTags st))
    errors
    (api_warnings api)
    (st_deprecated st).

(* ================================================================== *)
(** ** [commands/]: the exit status of [validate] and [diff] *)
(* ================================================================== *)

(** The handlers of the two commands load the documents, call
    [parseSpec] and end in [process.exit].  The definitions below are the
    handlers from the results of [parseSpec] on: what they hand to the
    printer and the status they exit with.  A failure of the loader (the
    [catch] of the handler, status 1) comes before and is not part of
    them. *)

(** [validate]: the summary, with the warnings made errors under
    [--strict]. *)
Definition validate_summary (api : ParsedAPI) (strict : bool)
  : ValidationSummary :=
  let summary := buildValidationSummary api [] in
  if strict && (0 <? length (summary_warnings summary))%nat then
    mkValidationSummary
      (summary_title summary) (summary_version summary)
      (summary_baseUrl summary) (summary_authType summary)
      (summary_endpointCount summary) (summary_endpointsByMethod summary)
      (summary_tags summary)
      (summary_errors summary
         ++ map (fun w => ("[strict] " ++ w)%string) (summary_warnings summary))
      (summary_warnings summary) (summary_deprecated summary)
  else summary.

Definition validate_exit_code (result : ParseResult) (strict : bool) : nat :=
  match result with
  | ParseFailure _ _ => 1
  | ParseSuccess api =>
      if (0 <? length (summary_errors (validate_summary api strict)))%nat
      then 1 else 0
  end.

(** [diff]: the changes shown, all of them or the breaking ones under
    [--breaking-only]. *)
Definition diff_shown (result : DiffResult) (breakingOnly : bool)
  : list DiffChange :=
  if breakingOnly
  then filter (fun c => is_breaking (change_type c)) (changes result)
  else changes result.

Definition diff_exit_code (oldResult newResult : ParseResult) : nat :=
  match oldResult, newResult with
  | ParseSuccess oldApi, ParseSuccess newApi =>
      if (0 <? breakingCount (diffSpecs (api_actions oldApi) (api_actions newApi)))%nat
      then 1 else 0
  | _, _ => 1
  end.
(* ================================================================== *)
(** ** Vocabulary of the statements about the diff *)
(* ================================================================== *)

(** The seven groups one comparison pushes, in the order of the source. *)
Definition required_param_added_group (oa na : ParsedAction) :=
  map (required_param_added na)
    (filter (fun param => negb (set_has (oldRequiredParams oa) (field_key param)))
       (newRequiredParams na)).

Definition optional_param_added_group (oa na : ParsedAction) :=
  map (optional_param_added na)
    (filter (fun param => negb (set_has (oldAllParams oa) (field_key param)))
       (newOptionalParams na)).

Definition param_removed_group (oa na : ParsedAction) :=
  map (param_removed na)
    (filter (fun key => negb (set_has (newAllParams na) key)) (oldAllParams oa)).

Definition param_type_changed_group (oa na : ParsedAction) :=
  map (param_type_changed oa na) (filter (type_differs oa) (all_params na)).

Definition required_body_field_added_group (oa na : ParsedAction) :=
  map (required_body_field_added na)
    (filter (fun field => field_required field
                          && negb (set_has (oldBodyKeys oa) (field_key field)))
       (action_bodySchema na)).

Definition response_field_removed_group (oa na : ParsedAction) :=
  map (response_field_removed na)
    (filter (fun field => negb (set_has (newResponseKeys na) (field_key field)))
       (action_responseSchema oa)).

Definition description_changed_group (oa na : ParsedAction) :=
  if description_differs oa na then [description_changed na] else [].

(** The comparisons of the third loop, one block per key of the new map
    that the old map has too. *)
Definition modified_block (oldMap : JsMap ParsedAction)
    (e : string * ParsedAction) : list DiffChange :=
  match map_get oldMap (fst e) with
  | None => []
  | Some oldAction => compareEndpoints oldAction (snd e) []
  end.

Definition removed_changes (oldMap newMap : JsMap ParsedAction) :=
  map (fun e => endpoint_removed (snd e))
    (filter (fun e => negb (map_has newMap (fst e))) oldMap).

Definition added_changes (oldMap newMap : JsMap ParsedAction) :=
  map (fun e => endpoint_added (snd e))
    (filter (fun e => negb (map_has oldMap (fst e))) newMap).

Section KeyedLists.
Context {A : Type} (key : A -> string).

(** The map a loop [for (const a of l) m.set(key(a), a)] builds. *)
Definition keyed (l : list A) : JsMap A :=
  fold_left (fun m a => map_set m (key a) a) l [].

(** The last element of a list that has a given key. *)
Definition last_with (k : string) (l : list A) : option A :=
  find (fun a => (key a =? k)%string) (rev l).
End KeyedLists.

(** The last action of a list that has a given key. *)
Definition find_last (k : string) (l : list ParsedAction) : option ParsedAction :=
  last_with action_key k l.

(** The categories of one comparison, in the sub-order of the
    specification. *)
Definition sub_order : list string :=
  [ "required-param-added"; "optional-param-added"; "param-removed";
    "param-type-changed"; "required-body-field-added";
    "response-field-removed"; "description-changed" ].

Fixpoint index_of (c : string) (l : list string) : nat :=
  match l with
  | [] => 0
  | x :: l' => if (x =? c)%string then 0 else S (index_of c l')
  end.

Definition category_rank (c : DiffChange) : nat :=
  index_of (change_category c) sub_order.

Definition rank_le (c1 c2 : DiffChange) : Prop :=
  category_rank c1 <= category_rank c2.

(** The groups of one comparison as a list, first group first. *)
Definition comparison_groups (oa na : ParsedAction) : list (list DiffChange) :=
  [ required_param_added_group oa na; optional_param_added_group oa na;
    param_removed_group oa na; param_type_changed_group oa na;
    required_body_field_added_group oa na; response_field_removed_group oa na;
    description_changed_group oa na ].


Definition ChangeType_eq_dec (a b : ChangeType) : {a = b} + {a <> b}.
Proof. decide equality. Defined.

(** The number of changes of a list that carry a given classification. *)
Definition tally (t : ChangeType) (l : list DiffChange) : nat :=
  count_occ ChangeType_eq_dec (map change_type l) t.

(** The change carries the method and the path of an action. *)
Definition on_endpoint (a : ParsedAction) (c : DiffChange) : bool :=
  match change_method c, change_path c with
  | Some m, Some p =>
      (m =? method_name (action_method a))%string && (p =? action_path a)%string
  | _, _ => false
  end.

Definition has_category (category : string) (c : DiffChange) : bool :=
  (change_category c =? category)%string.

(** The keys of the parameters (query and path) an action requires. *)
Definition required_keys (a : ParsedAction) : list string :=
  map field_key (filter field_required (all_params a)).

(** The parameters of the new action that are required and whose key is
    not the key of a required parameter of the old action. *)
Definition newly_required (oa na : ParsedAction) : list ParsedField :=
  filter (fun p => field_required p
                   && negb (existsb (String.eqb (field_key p)) (required_keys oa)))
    (all_params na).

(** Every action of the list replaced by the last action of the list that
    has its key. *)
Definition use_last (l : list ParsedAction) : list ParsedAction :=
  map (fun a => match find_last (action_key a) l with
                | Some b => b
                | None => a
                end) l.

(** The pairs (old action, new action) the third loop compares, in the
    order of the new map. *)
Fixpoint common_pairs (oldMap newMap : JsMap ParsedAction)
  : list (ParsedAction * ParsedAction) :=
  match newMap with
  | [] => []
  | (k, na) :: rest =>
      match map_get oldMap k with
      | Some oa => (oa, na) :: common_pairs oldMap rest
      | None => common_pairs oldMap rest
      end
  end.

(* ------------------------------------------------------------------ *)
(** Sample inputs. *)

Definition sample_field (key : string) (type : FieldType) (required : bool)
  : ParsedField :=
  mkParsedField key key type required None None None None None None None.

Definition sample_action (method : Method) (path : string)
    (queryParams pathParams : list ParsedField) : ParsedAction :=
  mkParsedAction "op" "Op" "An operation" method path pathParams queryParams
    [] [] None None.

Definition list_pets_v1 : ParsedAction :=
  sample_action GET "/pets" [sample_field "limit" TNumber false] [].

Definition list_pets_v2 : ParsedAction :=
  sample_action GET "/pets"
    [sample_field "limit" TNumber true; sample_field "status" TString true] [].

Definition delete_pet : ParsedAction :=
  sample_action DELETE "/pets/{petId}" [] [sample_field "petId" TString true].

Definition petstore_v1 : list ParsedAction := [list_pets_v1; delete_pet].
Definition petstore_v2 : list ParsedAction := [list_pets_v2].

(** An action whose query parameter and path parameter share the key
    [id] and differ in type, as the parser builds it from an operation
    [GET /items/{id}] that declares both (see [item_paths]). *)
Definition id_param (type : FieldType) (required : bool) : ParsedField :=
  mkParsedField "id" "Id" type required None None None None None None None.

Definition get_item : ParsedAction :=
  mkParsedAction "get-items-id" "Get Items Id" EmptyString GET "/items/{id}"
    [id_param TNumber true] [id_param TString false] [] [] None None.

(** Two actions under one key, the second with a parameter more. *)
Definition twice_listed : list ParsedAction := [list_pets_v1; delete_pet; list_pets_v2].

(** No two parameters of the action (query and path together) share a key
    and differ in type. *)
Definition param_types_agree (a : ParsedAction) : Prop :=
  forall p q, In p (all_params a) -> In q (all_params a) ->
              field_key p = field_key q -> field_type p = field_type q.

(* ================================================================== *)
(** ** Vocabulary of the statements about the parser *)
(* ================================================================== *)

(** The field [schemaToFields] pushes for one property that is not a
    reference. *)
Definition property_field (required : list string) (depth : nat)
    (entry : string * SchemaObject) : ParsedField :=
  let key := fst entry in
  let prop := snd entry in
  mkParsedField key (toTitleCase key)
    (schemaTypeToFieldType (schema_type prop))
    (includes_key required key)
    (schema_enum prop) (schema_description prop)
    (schema_format prop) (schema_default prop)
    (if type_is (schema_type prop) "object" && is_some (schema_properties prop)
     then Some (schemaToFields prop (depth + 1))
     else None)
    (match schema_items prop with
     | Some items =>
         if type_is (schema_type prop) "array" && negb (is_some (schema_ref items))
         then
           Some (item_field items
                   (if type_is (schema_type items) "object"
                       && is_some (schema_properties items)
                    then Some (schemaToFields items (depth + 1))
                    else None))
         else None
     | None => None
     end)
    (schema_example prop).

(** Every key of a field: its own, those of its nested [properties] and
    those of its [items], at any depth. *)
Fixpoint all_keys (f : ParsedField) : list string :=
  match f with
  | mkParsedField key _ _ _ _ _ _ _ properties items _ =>
      key
      :: match properties with
         | Some ps => flat_map all_keys ps
         | None => []
         end
      ++ match items with
         | Some it => all_keys it
         | None => []
         end
  end.

(** Every [items] descriptor of a field, at any depth, has key [item],
    label [Item] and is not required. *)
Fixpoint items_wellformed (f : ParsedField) : bool :=
  match f with
  | mkParsedField _ _ _ _ _ _ _ _ properties items _ =>
      match properties with
      | Some ps => forallb items_wellformed ps
      | None => true
      end
      && match items with
         | Some it =>
             (field_key it =? "item")%string
             && (field_label it =? "Item")%string
             && negb (field_required it)
             && items_wellformed it
         | None => true
         end
  end.

(** Sample schemas. *)
Definition typed_schema (type : string) : SchemaObject :=
  mkSchemaObject None (Some type) None None None None None None None None.

Definition object_schema (properties : list (string * SchemaObject))
  : SchemaObject :=
  mkSchemaObject None (Some "object") (Some properties) None None None None
    None None None.

Definition array_schema (items : SchemaObject) : SchemaObject :=
  mkSchemaObject None (Some "array") None None (Some items) None None None
    None None.

(** [{type:object, properties:{a:{type:object, properties:{b:{type:object,
    properties:{c:{type:string}}}}}}}] *)
Definition nested_to_c : SchemaObject :=
  object_schema
    [("a", object_schema [("b", object_schema [("c", typed_schema "string")])])].

(** The same with [c] an object that has a property [d]. *)
Definition nested_to_d : SchemaObject :=
  object_schema
    [("a", object_schema
             [("b", object_schema
                      [("c", object_schema [("d", typed_schema "string")])])])].

Definition plain_field (key label : string) (type : FieldType)
    (properties : option (list ParsedField)) : ParsedField :=
  mkParsedField key label type false None None None None properties None None.

(** An object with an array of strings and an array of objects that hold
    an array of numbers. *)
Definition with_arrays : SchemaObject :=
  object_schema
    [("tags", array_schema (typed_schema "string"));
     ("rows", array_schema (object_schema [("cells", array_schema (typed_schema "number"))]))].

(* ------------------------------------------------------------------ *)
(** Authentication. *)

(** An API-key scheme that names a header or a query parameter. *)
Definition well_formed_api_key (name location : option string) : bool :=
  match name with Some n => str_truthy n | None => false end
  && (type_is location "header" || type_is location "query").

(** The first API-key scheme of the collection is well formed. *)
Definition first_api_key_usable_v3 (schemes : list (string * SecuritySchemeV3))
  : bool :=
  match find v3_is_apiKey schemes with
  | Some (_, V3ApiKey name location) => well_formed_api_key name location
  | _ => false
  end.

Definition first_api_key_usable_v2 (schemes : list (string * SecuritySchemeV2))
  : bool :=
  match find v2_is_apiKey schemes with
  | Some (_, V2ApiKey name location) => well_formed_api_key name location
  | _ => false
  end.

(** The priority order in words: the API key first, where the first
    API-key scheme is well formed; then bearer; then OAuth2; else none. *)
Definition priority_auth_type_v3
    (schemes : option (list (string * SecuritySchemeV3))) : AuthType :=
  match schemes with
  | None => auth_none
  | Some l =>
      if first_api_key_usable_v3 l then auth_apiKey
      else if existsb v3_is_bearer l then auth_bearer
      else if existsb v3_is_oauth2 l then auth_oauth2
      else auth_none
  end.

(** The same for the Swagger dialect, with basic in the place of
    bearer. *)
Definition priority_auth_type_v2
    (definitions : option (list (string * SecuritySchemeV2))) : AuthType :=
  match definitions with
  | None => auth_none
  | Some l =>
      if first_api_key_usable_v2 l then auth_apiKey
      else if existsb v2_is_basic l then auth_bearer
      else if existsb v2_is_oauth2 l then auth_oauth2
      else auth_none
  end.

(** Sample collections. *)
Definition header_key_and_bearer : list (string * SecuritySchemeV3) :=
  [("bearerAuth", V3Http (Some "bearer"));
   ("apiKeyAuth", V3ApiKey (Some "X-API-Key") (Some "header"))].

Definition cookie_key_and_bearer : list (string * SecuritySchemeV3) :=
  [("cookieAuth", V3ApiKey (Some "session") (Some "cookie"));
   ("bearerAuth", V3Http (Some "bearer"))].

Definition cookie_key_and_basic : list (string * SecuritySchemeV2) :=
  [("cookieAuth", V2ApiKey (Some "session") (Some "cookie"));
   ("basicAuth", V2Basic)].

(* ------------------------------------------------------------------ *)
(** Dialect detection. *)

(** The document has no dialect marker: its [openapi] member is not a
    string that starts with [3.], and its [swagger] member is not the
    string [2.0]. *)
Definition no_dialect_marker (d : Document) : Prop :=
  (forall s, doc_openapi d = Some (JStr s) -> String.prefix "3." s = false)
  /\ doc_swagger d <> Some (JStr "2.0").

(** The message of what was thrown. *)
Definition thrown_message (error : Thrown) : string :=
  match error with
  | ThrownError message => message
  | ThrownOther => "Unknown validation error"
  end.

(** The validation library hands [d] over for [spec]: strict validation
    returns it, or strict validation reports an unresolved reference and
    the tolerant parse returns it. *)
Definition validated_as (validate parse : JSON -> Outcome) (spec : JSON)
    (d : Document) : Prop :=
  validate spec = Returned d
  \/ exists error,
       validate spec = Threw error
       /\ (includes "Missing $ref pointer" (thrown_message error)
           || includes "does not exist" (thrown_message error)) = true
       /\ parse spec = Returned d.

Definition sample_info : InfoObject :=
  mkInfoObject "Sample" None "1.0.0" None None.

(** A document that says [openapi: 4.0.0]. *)
Definition openapi4_document : Document :=
  mkDocument (Some (JStr "4.0.0")) None sample_info [] None None None None
    None None.

(** A document that says [swagger: 1.2]. *)
Definition swagger12_document : Document :=
  mkDocument None (Some (JStr "1.2")) sample_info [] None None None None
    None None.

(* ------------------------------------------------------------------ *)
(** A document fragment for [get_item]: one operation with a path
    parameter and a query parameter of the same name. *)

Definition id_parameter (location : string) (required : option bool)
    (type : string) : ParameterObject :=
  mkParameterObject None "id" (Some location) None required
    (Some (typed_schema type)) None None None None None.

Definition get_item_operation : OperationObject :=
  mkOperationObject None None None
    (Some [id_parameter "path" (Some true) "integer";
           id_parameter "query" None "string"])
    None [] None None.

Definition item_paths : PathsObject :=
  [("/items/{id}",
    Some (mkPathItemObject (Some get_item_operation) None None None None))].

(* ================================================================== *)
(** ** Vocabulary of the further statements about the diff *)
(* ================================================================== *)

(** The categories the README lists as breaking. *)
Definition breaking_categories : list string :=
  [ "endpoint-removed"; "required-param-added"; "param-removed";
    "param-type-changed"; "required-body-field-added";
    "response-field-removed" ].

(** The categories the README lists as non-breaking. *)
Definition non_breaking_categories : list string :=
  [ "endpoint-added"; "optional-param-added"; "description-changed" ].

(** The number of distinct (method, path) keys of a list. *)
Definition distinct_keys (l : list ParsedAction) : nat :=
  length (new_Set (map action_key l)).

(** The keys of all parameters of an action, query then path. *)
Definition param_keys (a : ParsedAction) : list string :=
  map field_key (all_params a).

(** The last parameter of the old action that has the key of [p] has
    another type than [p]. *)
Definition retyped (oa : ParsedAction) (p : ParsedField) : bool :=
  match last_with field_key (field_key p) (all_params oa) with
  | Some old => negb (fieldtype_eqb (field_type old) (field_type p))
  | None => false
  end.

(** Two versions of one endpoint that differ in every way the comparison
    looks at. *)
Definition create_order_v1 : ParsedAction :=
  mkParsedAction "createorder" "Create Order" "Create an order" POST "/orders"
    []
    [sample_field "dryRun" TBoolean false; sample_field "limit" TNumber false]
    [sample_field "item" TString true; sample_field "note" TString false]
    [sample_field "id" TString true; sample_field "eta" TString false]
    None None.

Definition create_order_v2 : ParsedAction :=
  mkParsedAction "createorder" "Create Order" "Place an order" POST "/orders"
    []
    [sample_field "limit" TString false; sample_field "coupon" TString false]
    [sample_field "item" TString true; sample_field "note" TString true;
     sample_field "address" TString true]
    [sample_field "id" TString true]
    None None.

Definition orders_v1 : list ParsedAction := [create_order_v1; delete_pet].
Definition orders_v2 : list ParsedAction := [list_pets_v2; create_order_v2].

(** A field with everything but its key, type and required flag erased. *)
Definition erase_field (f : ParsedField) : ParsedField :=
  mkParsedField (field_key f) EmptyString (field_type f) (field_required f)
    None None None None None None None.

(** An action with its slug, label, tags and deprecation flag erased, its
    parameters gathered in one list (query, then path), and every field
    cut down to key, type and required flag. *)
Definition erase_action (a : ParsedAction) : ParsedAction :=
  mkParsedAction EmptyString EmptyString (action_description a)
    (action_method a) (action_path a)
    [] (map erase_field (all_params a))
    (map erase_field (action_bodySchema a))
    (map erase_field (action_responseSchema a))
    None None.

(** [f] applied to the value of an entry. *)
Definition on_value {A B : Type} (f : A -> B) (e : string * A) : string * B :=
  (fst e, f (snd e)).

(* ================================================================== *)
(** ** Vocabulary of the further statements about the parser *)
(* ================================================================== *)

Definition is_hyphen (c : ascii) : bool := Ascii.eqb c "-".

Definition starts_with_hyphen (s : string) : bool :=
  match s with
  | EmptyString => false
  | String c _ => is_hyphen c
  end.

(** Every character is one of [a-z0-9-], and every hyphen is followed by
    a character that is not a hyphen. *)
Fixpoint hyphens_inside (s : string) : bool :=
  match s with
  | EmptyString => true
  | String c s' =>
      (if is_hyphen c
       then match s' with
            | EmptyString => false
            | String c' _ => negb (is_hyphen c')
            end
       else is_slug_char c)
      && hyphens_inside s'
  end.

(** The shape of a slug: groups of [a-z0-9] joined by single hyphens, or
    the empty string. *)
Definition slug_shaped (s : string) : bool :=
  negb (starts_with_hyphen s) && hyphens_inside s.

(** Every character is one of [a-z0-9-], and no hyphen follows a
    hyphen. *)
Fixpoint collapsed (s : string) : bool :=
  match s with
  | EmptyString => true
  | String c s' =>
      (if is_hyphen c then negb (starts_with_hyphen s') else is_slug_char c)
      && collapsed s'
  end.

(** No character is a hyphen or an underscore. *)
Fixpoint no_separator (s : string) : bool :=
  match s with
  | EmptyString => true
  | String c s' =>
      negb (Ascii.eqb c "-" || Ascii.eqb c "_") && no_separator s'
  end.

(** The height of a field: one for the field, plus the height of the
    deepest field of its [properties] or of its [items]. *)
Fixpoint field_height (f : ParsedField) : nat :=
  match f with
  | mkParsedField _ _ _ _ _ _ _ _ properties items _ =>
      S (Nat.max
           match properties with
           | Some ps => list_max (map field_height ps)
           | None => 0
           end
           match items with
           | Some it => field_height it
           | None => 0
           end)
  end.

(** [n] array schemas around a schema. *)
Fixpoint arrays_of (n : nat) (schema : SchemaObject) : SchemaObject :=
  match n with
  | 0 => schema
  | S n' => array_schema (arrays_of n' schema)
  end.

(** A reference to a schema. *)
Definition reference_schema (ref : string) : SchemaObject :=
  mkSchemaObject (Some ref) None None None None None None None None None.

(** The bound on the height of the fields a call at [depth] returns. *)
Definition height_bound (depth : nat) : nat := 2 * (3 - depth).
Arguments height_bound : simpl never.

(** The methods a path item has an operation for, in the order of
    [HTTP_METHODS]. *)
Definition item_methods (pathItem : PathItemObject) : list Method :=
  filter (fun m => is_some (item_operation pathItem m)) HTTP_METHODS.

(** The (method, path) pairs of a paths object: path after path, and for
    each path its methods in the order of [HTTP_METHODS]. *)
Definition declared_endpoints (paths : PathsObject) : list (Method * string) :=
  flat_map
    (fun entry =>
       match snd entry with
       | Some pathItem => map (fun m => (m, fst entry)) (item_methods pathItem)
       | None => []
       end)
    paths.

Definition action_endpoint (a : ParsedAction) : Method * string :=
  (action_method a, action_path a).

(** A schema that reaches the height bound: arrays of objects, three
    levels deep. *)
Definition rows_of (schema : SchemaObject) : SchemaObject :=
  object_schema [("rows", array_schema schema)].

Definition deep_rows : SchemaObject :=
  rows_of (rows_of (rows_of (rows_of (typed_schema "string")))).

(** A paths object with two paths and three operations. *)
Definition empty_operation : OperationObject :=
  mkOperationObject None None None None None [] None None.

Definition pets_paths : PathsObject :=
  [("/pets",
    Some (mkPathItemObject (Some empty_operation) (Some empty_operation)
            None None None));
   ("/internal", None);
   ("/pets/{petId}",
    Some (mkPathItemObject None None None None (Some empty_operation)))].

(** The actions one path item gives. *)
Definition item_actions
    (createAction : string -> Method -> OperationObject -> option ParsedAction)
    (path : string) (pathItem : PathItemObject) : list ParsedAction :=
  flat_map
    (fun method =>
       match item_operation pathItem method with
       | Some operation =>
           match createAction path method operation with
           | Some action => [action]
           | None => []
           end
       | None => []
       end)
    HTTP_METHODS.

(** A [createAction...] that returns an action for the method and the
    path it is given. *)
Definition creates_endpoint
    (createAction : string -> Method -> OperationObject -> option ParsedAction)
  : Prop :=
  forall path method operation,
  exists action,
    createAction path method operation = Some action
    /\ action_endpoint action = (method, path).

(** The key of the lookup maps for a (method, path) pair. *)
Definition endpoint_key (e : Method * string) : string :=
  method_name (fst e) ++ " " ++ snd e.

(** The active variant and the configuration agree: an API key comes with
    a name that is not empty, bearer with the scheme name [bearer_name],
    OAuth2 with its URLs and scopes, none with no configuration. *)
Definition auth_consistent (bearer_name : string) (r : ParsedAuth) : bool :=
  match auth_type r, auth_config r with
  | auth_apiKey, Some (ApiKeyAuthConfig name _) => str_truthy name
  | auth_bearer, Some (BearerAuthConfig scheme) => (scheme =? bearer_name)%string
  | auth_oauth2, Some (OAuth2AuthConfig _ _ _) => true
  | auth_none, None => true
  | _, _ => false
  end.

(** The schemes the OpenAPI 3 extractor looks at: API key, http bearer
    and OAuth2. *)
Definition v3_recognised (e : string * SecuritySchemeV3) : bool :=
  v3_is_apiKey e || v3_is_bearer e || v3_is_oauth2 e.

(** A collection of schemes of other kinds. *)
Definition unrecognised_schemes : list (string * SecuritySchemeV3) :=
  [("basicAuth", V3Http (Some "basic"));
   ("oidc", V3OpenIdConnect "https://example.com/.well-known/openid-configuration");
   ("shared", V3Reference "#/components/securitySchemes/Shared");
   ("upper", V3Http (Some "Bearer"))].

(* ------------------------------------------------------------------ *)
(** The validation summary. *)

Definition Method_eqb (a b : Method) : bool :=
  match a, b with
  | GET, GET | POST, POST | PUT, PUT | PATCH, PATCH | DELETE, DELETE => true
  | _, _ => false
  end.

(** The number of actions of a list with a given method. *)
Definition count_method (m : Method) (actions : list ParsedAction) : nat :=
  length (filter (fun a => Method_eqb (action_method a) m) actions).

(** The number of actions of a list that are marked deprecated. *)
Definition count_deprecated (actions : list ParsedAction) : nat :=
  length (filter (fun a => match action_deprecated a with
                           | Some true => true
                           | _ => false
                           end) actions).

(** The sum of the counts of a per-method object. *)
Definition total_count (m : JsMap nat) : nat := list_sum (map snd m).

(** A tag of one of the actions. *)
Definition is_tag_of (actions : list ParsedAction) (t : string) : Prop :=
  exists a tags, In a actions /\ action_tags a = Some tags /\ In t tags.


Definition tagged_action (method : Method) (path : string)
    (tags : option (list string)) (deprecated : option bool) : ParsedAction :=
  mkParsedAction "op" "Op" EmptyString method path [] [] [] [] tags deprecated.

Definition sample_api : ParsedAPI :=
  mkParsedAPI "Sample" EmptyString "https://api.example.com" no_auth
    [tagged_action GET "/pets" (Some ["Pets"; "Animals"]) None;
     tagged_action POST "/pets" (Some ["Pets"]) (Some false);
     tagged_action GET "/pets/{petId}" None (Some true);
     tagged_action DELETE "/pets/{petId}" (Some ["Admin"; "Pets"]) (Some true)]
    [] None None None None.

(* ------------------------------------------------------------------ *)
(** [parseSpec] and the commands. *)

(** The message of the strict validation names an unresolved
    reference. *)
Definition isMissingRef (error : Thrown) : bool :=
  includes "Missing $ref pointer" (thrown_message error)
  || includes "does not exist" (thrown_message error).

(** A document that says [openapi: 3.0.3] and declares one path. *)
Definition openapi3_document : Document :=
  mkDocument (Some (JStr "3.0.3")) (Some (JStr "2.0")) sample_info pets_paths
    None None None None None
    (Some [("basicAuth", V2Basic)]).

Definition api_of_paths (actions : list ParsedAction) (warnings : list string)
  : ParsedAPI :=
  mkParsedAPI "Sample" EmptyString "https://api.example.com" no_auth actions
    warnings None None None None.

(** What the comparison of an action with itself reports: the parameters
    that a later parameter of the same key and another type hides. *)
Definition self_changes (a : ParsedAction) : list DiffChange :=
  map (param_type_changed a a) (filter (retyped a) (all_params a)).
(* ================================================================== *)
(** ** Containers: basic facts *)
(* ================================================================== *)

Section JsMapFacts.
Context {V : Type}.
Implicit Types (m : JsMap V) (k : string) (v : V).

Lemma map_get_set m k v k' :
  map_get (map_set m k v) k' =
  if (k =? k')%string then Some v else map_get m k'.
Proof.
  induction m as [|[k0 v0] m IH]; simpl.
  - reflexivity.
  - destruct (String.eqb_spec k0 k) as [-> |Hne]; simpl.
    + destruct (k =? k')%string; reflexivity.
    + rewrite IH. destruct (String.eqb_spec k0 k') as [-> |Hne'].
      * destruct (String.eqb_spec k k'); [congruence | reflexivity].
      * reflexivity.
Qed.

Lemma map_keys_set m k v :
  map_keys (map_set m k v) = set_add (map_keys m) k.
Proof.
  unfold set_add, set_has, map_keys.
  induction m as [|[k0 v0] m IH]; simpl.
  - reflexivity.
  - rewrite (String.eqb_sym k k0).
    destruct (k0 =? k)%string; simpl.
    + reflexivity.
    + rewrite IH. destruct (existsb (String.eqb k) (map fst m)); reflexivity.
Qed.

Lemma map_get_None m k : map_get m k = None <-> ~ In k (map_keys m).
Proof.
  unfold map_keys.
  induction m as [|[k0 v0] m IH]; simpl.
  - tauto.
  - destruct (String.eqb_spec k0 k) as [-> |Hne].
    + split; [discriminate | tauto].
    + rewrite IH. tauto.
Qed.

Lemma map_has_In m k : map_has m k = true <-> In k (map_keys m).
Proof.
  unfold map_has. destruct (map_get m k) eqn:E.
  - split; [intros _|reflexivity].
    destruct (in_dec string_dec k (map_keys m)) as [|Hn]; [assumption|].
    apply map_get_None in Hn. congruence.
  - split; [discriminate|]. intros Hin. apply map_get_None in E. tauto.
Qed.

Lemma map_get_In m k v :
  NoDup (map_keys m) -> In (k, v) m -> map_get m k = Some v.
Proof.
  unfold map_keys.
  induction m as [|[k0 v0] m IH]; simpl; intros Hnd Hin.
  - contradiction.
  - inversion Hnd as [|? ? Hnotin Hnd']; subst.
    destruct Hin as [Heq|Hin].
    + inversion Heq; subst. rewrite String.eqb_refl. reflexivity.
    + destruct (String.eqb_spec k0 k) as [-> |Hne].
      * exfalso. apply Hnotin. apply (in_map fst _ _ Hin).
      * auto.
Qed.

Lemma map_get_split m k v :
  map_get m k = Some v ->
  exists m1 m2, m = m1 ++ (k, v) :: m2 /\ ~ In k (map_keys m1).
Proof.
  induction m as [|[k0 v0] m IH]; simpl; intros H.
  - discriminate.
  - destruct (String.eqb_spec k0 k) as [-> |Hne].
    + inversion H; subst. exists [], m. split; [reflexivity | intros []].
    + destruct (IH H) as (m1 & m2 & -> & Hn).
      exists ((k0, v0) :: m1), m2. split; [reflexivity|].
      simpl. intros [?|?]; [congruence | tauto].
Qed.

(** Two maps with the same keys in the same order and the same lookups
    are the same map. *)
Lemma map_ext m1 m2 :
  NoDup (map_keys m1) ->
  map_keys m1 = map_keys m2 ->
  (forall k, map_get m1 k = map_get m2 k) ->
  m1 = m2.
Proof.
  unfold map_keys. revert m2.
  induction m1 as [|[k1 v1] m1 IH]; intros [|[k2 v2] m2]; simpl;
    intros Hnd Hk Hg; try discriminate; [reflexivity|].
  inversion Hk; subst. inversion Hnd as [|? ? Hnotin Hnd']; subst.
  pose proof (Hg k2) as H2. rewrite String.eqb_refl in H2.
  inversion H2; subst. f_equal.
  apply IH; [assumption | assumption |].
  intros k. specialize (Hg k).
  destruct (String.eqb_spec k2 k) as [-> |Hne]; [|assumption].
  transitivity (@None V).
  - apply map_get_None. assumption.
  - symmetry. apply map_get_None. unfold map_keys. congruence.
Qed.
End JsMapFacts.

Lemma set_has_In s k : set_has s k = true <-> In k s.
Proof.
  unfold set_has. rewrite existsb_exists. split.
  - intros (x & Hin & He). apply String.eqb_eq in He. congruence.
  - intros Hin. exists k. split; [assumption | apply String.eqb_refl].
Qed.

Lemma set_has_false s k : set_has s k = false <-> ~ In k s.
Proof.
  rewrite <- set_has_In. destruct (set_has s k); split; congruence.
Qed.

Lemma set_add_In s k x : In x (set_add s k) <-> In x s \/ x = k.
Proof.
  unfold set_add. destruct (set_has s k) eqn:E.
  - apply set_has_In in E. split; [tauto | intros [?| ->]; assumption].
  - rewrite in_app_iff. simpl. intuition congruence.
Qed.

Lemma set_add_NoDup s k : NoDup s -> NoDup (set_add s k).
Proof.
  unfold set_add. intros Hnd. destruct (set_has s k) eqn:E; [assumption|].
  apply set_has_false in E.
  apply NoDup_app; [assumption | repeat constructor; intros [] | ].
  intros x Hx [-> |[]]. contradiction.
Qed.

Lemma fold_set_add_In xs s x :
  In x (fold_left set_add xs s) <-> In x s \/ In x xs.
Proof.
  revert s. induction xs as [|y xs IH]; simpl; intros s.
  - tauto.
  - rewrite IH, set_add_In. intuition congruence.
Qed.

Lemma fold_set_add_NoDup xs s : NoDup s -> NoDup (fold_left set_add xs s).
Proof.
  revert s. induction xs as [|y xs IH]; simpl; intros s Hnd.
  - assumption.
  - apply IH, set_add_NoDup, Hnd.
Qed.

Lemma new_Set_In xs x : In x (new_Set xs) <-> In x xs.
Proof. unfold new_Set. rewrite fold_set_add_In. simpl. tauto. Qed.

Lemma new_Set_NoDup xs : NoDup (new_Set xs).
Proof. apply fold_set_add_NoDup. constructor. Qed.

Lemma new_Set_has xs k : set_has (new_Set xs) k = set_has xs k.
Proof.
  destruct (set_has xs k) eqn:E.
  - apply set_has_In, new_Set_In, set_has_In, E.
  - apply set_has_false. rewrite new_Set_In. apply set_has_false, E.
Qed.

(* ================================================================== *)
(** ** The shape of the change list *)
(* ================================================================== *)

Lemma push_each_spec {A : Type} (test : A -> bool) (mk : A -> DiffChange)
    (xs : list A) (ch : list DiffChange) :
  push_each test mk xs ch = ch ++ map mk (filter test xs).
Proof.
  unfold push_each. revert ch.
  induction xs as [|x xs IH]; simpl; intros ch.
  - rewrite app_nil_r. reflexivity.
  - rewrite IH. destruct (test x); simpl.
    + rewrite <- app_assoc. reflexivity.
    + reflexivity.
Qed.

Lemma compareEndpoints_groups oa na ch :
  compareEndpoints oa na ch =
  ch ++ required_param_added_group oa na
     ++ optional_param_added_group oa na
     ++ param_removed_group oa na
     ++ param_type_changed_group oa na
     ++ required_body_field_added_group oa na
     ++ response_field_removed_group oa na
     ++ description_changed_group oa na.
Proof.
  unfold compareEndpoints, description_changed_group.
  rewrite !push_each_spec.
  destruct (description_differs oa na); rewrite <- ?app_assoc; try reflexivity.
  rewrite !app_nil_r. reflexivity.
Qed.

Lemma compareEndpoints_app oa na ch :
  compareEndpoints oa na ch = ch ++ compareEndpoints oa na [].
Proof. rewrite (compareEndpoints_groups oa na []), compareEndpoints_groups. reflexivity. Qed.

Lemma modified_loop_spec (oldMap m : JsMap ParsedAction) ch :
  fold_left
    (fun acc e =>
       match map_get oldMap (fst e) with
       | None => acc
       | Some oldAction => compareEndpoints oldAction (snd e) acc
       end) m ch
  = ch ++ flat_map (modified_block oldMap) m.
Proof.
  revert ch. induction m as [|e m IH]; simpl; intros ch.
  - rewrite app_nil_r. reflexivity.
  - rewrite IH. unfold modified_block at 2.
    destruct (map_get oldMap (fst e)) as [oa|].
    + rewrite (compareEndpoints_app oa (snd e) ch), <- app_assoc. reflexivity.
    + reflexivity.
Qed.

Lemma diffSpecs_changes o n :
  changes (diffSpecs o n) =
  removed_changes (build_map o) (build_map n)
    ++ added_changes (build_map o) (build_map n)
    ++ flat_map (modified_block (build_map o)) (build_map n).
Proof.
  unfold diffSpecs. simpl.
  rewrite modified_loop_spec, !push_each_spec. simpl.
  rewrite <- app_assoc. reflexivity.
Qed.

(* ================================================================== *)
(** ** The lookup maps *)
(* ================================================================== *)

Section KeyedFacts.
Context {A : Type} (key : A -> string).

Lemma keyed_snoc l a : keyed key (l ++ [a]) = map_set (keyed key l) (key a) a.
Proof. unfold keyed. rewrite fold_left_app. reflexivity. Qed.

Lemma keyed_get l k : map_get (keyed key l) k = last_with key k l.
Proof.
  unfold last_with.
  induction l as [|a l IH] using rev_ind.
  - reflexivity.
  - rewrite keyed_snoc, map_get_set, rev_app_distr. simpl.
    destruct (key a =? k)%string; [reflexivity | exact IH].
Qed.

Lemma keyed_keys l : map_keys (keyed key l) = new_Set (map key l).
Proof.
  unfold new_Set.
  induction l as [|a l IH] using rev_ind.
  - reflexivity.
  - rewrite keyed_snoc, map_keys_set, map_app, fold_left_app, IH.
    reflexivity.
Qed.

Lemma keyed_NoDup l : NoDup (map_keys (keyed key l)).
Proof. rewrite keyed_keys. apply new_Set_NoDup. Qed.

Lemma last_with_key k l a : last_with key k l = Some a -> key a = k.
Proof.
  unfold last_with. intros H. apply find_some in H.
  apply String.eqb_eq, H.
Qed.

Lemma last_with_In k l a : last_with key k l = Some a -> In a l.
Proof.
  unfold last_with. intros H. apply find_some in H.
  apply in_rev, H.
Qed.

Lemma keyed_entry l k a : In (k, a) (keyed key l) -> key a = k /\ In a l.
Proof.
  intros Hin.
  assert (H : last_with key k l = Some a).
  { rewrite <- keyed_get. apply map_get_In; [apply keyed_NoDup | exact Hin]. }
  split; [apply (last_with_key _ _ _ H) | apply (last_with_In _ _ _ H)].
Qed.
End KeyedFacts.

Lemma build_map_get l k : map_get (build_map l) k = find_last k l.
Proof. apply (keyed_get action_key). Qed.

Lemma build_map_keys l :
  map_keys (build_map l) = new_Set (map action_key l).
Proof. apply (keyed_keys action_key). Qed.

Lemma build_map_NoDup l : NoDup (map_keys (build_map l)).
Proof. apply (keyed_NoDup action_key). Qed.

Lemma find_last_key k l a : find_last k l = Some a -> action_key a = k.
Proof. apply (last_with_key action_key). Qed.

Lemma find_last_In k l a : find_last k l = Some a -> In a l.
Proof. apply (last_with_In action_key). Qed.

Lemma build_map_entry l k a : In (k, a) (build_map l) -> action_key a = k.
Proof. intros H. apply (keyed_entry action_key) in H. apply H. Qed.

Lemma build_map_entry_In l k a : In (k, a) (build_map l) -> In a l.
Proof. intros H. apply (keyed_entry action_key) in H. apply H. Qed.

Lemma oldParamMap_get oa k old :
  map_get (oldParamMap oa) k = Some old ->
  field_key old = k /\ In old (all_params oa).
Proof.
  intros H. change (oldParamMap oa) with (keyed field_key (all_params oa)) in H.
  rewrite keyed_get in H.
  split; [apply (last_with_key _ _ _ _ H) | apply (last_with_In _ _ _ _ H)].
Qed.

Lemma method_name_inj m1 m2 : method_name m1 = method_name m2 -> m1 = m2.
Proof. destruct m1, m2; simpl; intros H; try reflexivity; discriminate. Qed.

Lemma action_key_inj a b :
  action_key a = action_key b ->
  action_method a = action_method b /\ action_path a = action_path b.
Proof.
  unfold action_key.
  destruct (action_method a), (action_method b); simpl; intros H;
    try discriminate; injection H as H; split; congruence.
Qed.

(* ================================================================== *)
(** ** Categories and their order *)
(* ================================================================== *)

Lemma compareEndpoints_concat oa na :
  compareEndpoints oa na [] = concat (comparison_groups oa na).
Proof.
  rewrite compareEndpoints_groups. simpl. rewrite app_nil_r. reflexivity.
Qed.

Lemma Forall_map_const {A : Type} (P : DiffChange -> Prop) (f : A -> DiffChange)
    (l : list A) :
  (forall x, P (f x)) -> Forall P (map f l).
Proof. intros H. apply Forall_forall. intros c Hc. apply in_map_iff in Hc.
       destruct Hc as (x & <- & _). apply H. Qed.

Lemma description_group_Forall (P : DiffChange -> Prop) oa na :
  P (description_changed na) -> Forall P (description_changed_group oa na).
Proof.
  intros H. unfold description_changed_group.
  destruct (description_differs oa na); repeat constructor. exact H.
Qed.

Ltac group_facts :=
  first [ apply Forall_map_const; intros; simpl; auto
        | apply description_group_Forall; simpl; auto ].

(** The [i]-th group holds changes of the [i]-th category only, and every
    change carries the method and the path of the new action. *)
Lemma comparison_groups_spec oa na i g :
  nth_error (comparison_groups oa na) i = Some g ->
  Forall (fun c => nth_error sub_order i = Some (change_category c)
                   /\ category_rank c = i
                   /\ change_method c = Some (method_name (action_method na))
                   /\ change_path c = Some (action_path na)) g.
Proof.
  unfold comparison_groups. intros H.
  do 7 (destruct i as [|i];
        [ injection H as <-; group_facts; repeat split; reflexivity | ]).
  simpl in H. destruct i; discriminate.
Qed.

Lemma StronglySorted_app {A : Type} (R : A -> A -> Prop) (l1 l2 : list A) :
  StronglySorted R l1 -> StronglySorted R l2 ->
  (forall x y, In x l1 -> In y l2 -> R x y) ->
  StronglySorted R (l1 ++ l2).
Proof.
  induction l1 as [|a l1 IH]; simpl; intros H1 H2 H12.
  - assumption.
  - inversion H1 as [|? ? Hs Hf]; subst. constructor.
    + apply IH; auto.
    + apply Forall_app. split; [assumption|].
      apply Forall_forall. intros y Hy. apply H12; auto.
Qed.

Lemma StronglySorted_const {A : Type} (R : A -> A -> Prop) (l : list A) :
  (forall x y, In x l -> In y l -> R x y) -> StronglySorted R l.
Proof.
  induction l as [|a l IH]; intros H; constructor.
  - apply IH. intros x y Hx Hy. apply H; simpl; auto.
  - apply Forall_forall. intros y Hy. apply H; simpl; auto.
Qed.

(** Groups whose ranks grow with their position concatenate to a list
    sorted by rank. *)
Lemma ranked_groups_sorted (gs : list (list DiffChange)) (base : nat) :
  (forall i g, nth_error gs i = Some g ->
               Forall (fun c => category_rank c = base + i) g) ->
  StronglySorted rank_le (concat gs)
  /\ Forall (fun c => base <= category_rank c) (concat gs).
Proof.
  revert base. induction gs as [|g gs IH]; simpl; intros base H.
  - split; constructor.
  - pose proof (H 0 g eq_refl) as Hg. rewrite Nat.add_0_r in Hg.
    destruct (IH (S base)) as [Hs Hb].
    { intros i g' Hi. specialize (H (S i) g' Hi).
      rewrite Nat.add_succ_r in H. exact H. }
    rewrite Forall_forall in Hg, Hb. split.
    + apply StronglySorted_app.
      * apply StronglySorted_const. intros x y Hx Hy. unfold rank_le.
        rewrite (Hg x Hx), (Hg y Hy). apply Nat.le_refl.
      * exact Hs.
      * intros x y Hx Hy. unfold rank_le. rewrite (Hg x Hx).
        specialize (Hb y Hy). lia.
    + apply Forall_app. split; apply Forall_forall; intros c Hc.
      * rewrite (Hg c Hc). apply Nat.le_refl.
      * specialize (Hb c Hc). lia.
Qed.

Lemma compareEndpoints_sorted oa na :
  StronglySorted rank_le (compareEndpoints oa na []).
Proof.
  rewrite compareEndpoints_concat.
  apply (ranked_groups_sorted _ 0). intros i g Hi.
  apply comparison_groups_spec in Hi.
  eapply Forall_impl; [|exact Hi]. simpl. intros c H. apply H.
Qed.

Lemma compareEndpoints_members oa na :
  Forall (fun c => In (change_category c) sub_order
                   /\ change_method c = Some (method_name (action_method na))
                   /\ change_path c = Some (action_path na))
    (compareEndpoints oa na []).
Proof.
  rewrite compareEndpoints_concat. apply Forall_concat.
  apply Forall_forall. intros g Hg.
  apply In_nth_error in Hg. destruct Hg as [i Hi].
  apply comparison_groups_spec in Hi.
  eapply Forall_impl; [|exact Hi]. simpl.
  intros c (Hc & _ & Hm & Hp). split; [|split; assumption].
  apply nth_error_In in Hc. exact Hc.
Qed.


(* ================================================================== *)
(** ** Properties of [diffSpecs] *)
(* ================================================================== *)

Lemma tally_filter_breaking l :
  length (filter (fun c => is_breaking (change_type c)) l) = tally breaking l.
Proof.
  unfold tally. induction l as [|c l IH]; simpl; [reflexivity|].
  destruct (change_type c); simpl; congruence.
Qed.

Lemma tally_filter_non_breaking l :
  length (filter (fun c => is_non_breaking (change_type c)) l)
  = tally non_breaking l.
Proof.
  unfold tally. induction l as [|c l IH]; simpl; [reflexivity|].
  destruct (change_type c); simpl; congruence.
Qed.

Lemma tally_total l : tally breaking l + tally non_breaking l = length l.
Proof.
  unfold tally. induction l as [|c l IH]; simpl; [reflexivity|].
  destruct (change_type c); simpl; lia.
Qed.

(** C7.  [diffSpecs] is a total function of its two action lists, and its
    counts are the tallies of the change list it returns: [breakingCount]
    is the number of changes classified breaking, [nonBreakingCount] the
    number classified non-breaking, and the two add up to the length of
    the list. *)
Theorem diffSpecs_counts_are_tallies (oldActions newActions : list ParsedAction) :
  let r := diffSpecs oldActions newActions in
  breakingCount r = tally breaking (changes r)
  /\ nonBreakingCount r = tally non_breaking (changes r)
  /\ breakingCount r + nonBreakingCount r = length (changes r).
Proof.
  cbv zeta.
  assert (Hb : breakingCount (diffSpecs oldActions newActions)
               = tally breaking (changes (diffSpecs oldActions newActions))).
  { unfold diffSpecs; simpl. apply tally_filter_breaking. }
  assert (Hn : nonBreakingCount (diffSpecs oldActions newActions)
               = tally non_breaking (changes (diffSpecs oldActions newActions))).
  { unfold diffSpecs; simpl. apply tally_filter_non_breaking. }
  rewrite Hb, Hn. repeat split. apply tally_total.
Qed.

Lemma removed_changes_category om nm :
  Forall (fun c => change_category c = "endpoint-removed") (removed_changes om nm).
Proof. apply Forall_map_const. reflexivity. Qed.

Lemma added_changes_category om nm :
  Forall (fun c => change_category c = "endpoint-added") (added_changes om nm).
Proof. apply Forall_map_const. reflexivity. Qed.

Lemma modified_blocks_pairs om nm :
  flat_map (modified_block om) nm
  = flat_map (fun p => compareEndpoints (fst p) (snd p) []) (common_pairs om nm).
Proof.
  induction nm as [|[k na] nm IH]; simpl; [reflexivity|].
  unfold modified_block at 1. simpl.
  destruct (map_get om k); simpl; rewrite IH; reflexivity.
Qed.

Lemma common_pairs_In om nm oa na :
  In (oa, na) (common_pairs om nm) ->
  exists k, In (k, na) nm /\ map_get om k = Some oa.
Proof.
  induction nm as [|[k na'] nm IH]; simpl; [intros []|].
  destruct (map_get om k) eqn:E; simpl.
  - intros [H|H].
    + inversion H; subst. exists k. auto.
    + destruct (IH H) as (k' & ? & ?). exists k'. auto.
  - intros H. destruct (IH H) as (k' & ? & ?). exists k'. auto.
Qed.

Lemma common_pairs_keys om nm :
  (forall k a, In (k, a) nm -> action_key a = k) ->
  NoDup (map_keys nm) ->
  NoDup (map (fun p => action_key (snd p)) (common_pairs om nm)).
Proof.
  unfold map_keys.
  induction nm as [|[k na] nm IH]; simpl; intros Hk Hnd; [constructor|].
  inversion Hnd as [|? ? Hnotin Hnd']; subst.
  assert (IH' : NoDup (map (fun p => action_key (snd p)) (common_pairs om nm)))
    by (apply IH; auto).
  destruct (map_get om k); [|exact IH'].
  simpl. constructor; [|exact IH'].
  intros Hin. apply in_map_iff in Hin. destruct Hin as ([oa' na'] & He & Hin).
  simpl in He. apply common_pairs_In in Hin. destruct Hin as (k' & Hin & _).
  apply Hnotin. rewrite <- (Hk k na (or_introl eq_refl)), <- He.
  rewrite (Hk k' na' (or_intror Hin)).
  apply (in_map fst _ _ Hin).
Qed.

Lemma common_pairs_last o n :
  Forall (fun p => find_last (action_key (snd p)) o = Some (fst p)
                   /\ find_last (action_key (snd p)) n = Some (snd p))
    (common_pairs (build_map o) (build_map n)).
Proof.
  apply Forall_forall. intros [oa na] Hin. simpl.
  apply common_pairs_In in Hin. destruct Hin as (k & Hin & Hget).
  pose proof (build_map_entry _ _ _ Hin) as Hk. rewrite Hk.
  rewrite <- !build_map_get. split; [exact Hget|].
  apply map_get_In; [apply build_map_NoDup | exact Hin].
Qed.

(** C5.  The change list is laid out in the order of the algorithm: the
    endpoint-removed changes, then the endpoint-added changes, then one
    block per endpoint that both lists have (the last action of each list
    under that key, no endpoint twice).  Inside a block the categories
    follow the sub-order required-param-added, optional-param-added,
    param-removed, param-type-changed, required-body-field-added,
    response-field-removed, description-changed, and every change of the
    block carries the method and the path of the endpoint. *)
Theorem diffSpecs_changes_order (oldActions newActions : list ParsedAction) :
  exists (removed added : list DiffChange)
         (common : list (ParsedAction * ParsedAction)),
    changes (diffSpecs oldActions newActions)
    = removed ++ added
        ++ flat_map (fun p => compareEndpoints (fst p) (snd p) []) common
    /\ Forall (fun c => change_category c = "endpoint-removed") removed
    /\ Forall (fun c => change_category c = "endpoint-added") added
    /\ NoDup (map (fun p => action_key (snd p)) common)
    /\ Forall (fun p =>
                 find_last (action_key (snd p)) oldActions = Some (fst p)
                 /\ find_last (action_key (snd p)) newActions = Some (snd p))
         common
    /\ forall oa na,
         StronglySorted rank_le (compareEndpoints oa na [])
         /\ Forall (fun c =>
                      In (change_category c) sub_order
                      /\ change_method c = Some (method_name (action_method na))
                      /\ change_path c = Some (action_path na))
              (compareEndpoints oa na []).
Proof.
  exists (removed_changes (build_map oldActions) (build_map newActions)),
         (added_changes (build_map oldActions) (build_map newActions)),
         (common_pairs (build_map oldActions) (build_map newActions)).
  split; [rewrite diffSpecs_changes, modified_blocks_pairs; reflexivity|].
  split; [apply removed_changes_category|].
  split; [apply added_changes_category|].
  split.
  { apply common_pairs_keys; [|apply build_map_NoDup].
    intros k a. apply build_map_entry. }
  split; [apply common_pairs_last|].
  intros oa na. split;
    [apply compareEndpoints_sorted | apply compareEndpoints_members].
Qed.

(* ------------------------------------------------------------------ *)

Lemma filter_none {A : Type} (f : A -> bool) (l : list A) :
  Forall (fun x => f x = false) l -> filter f l = [].
Proof.
  induction 1 as [|x l Hx _ IH]; simpl; [reflexivity|].
  rewrite Hx. exact IH.
Qed.

Lemma filter_all {A : Type} (f : A -> bool) (l : list A) :
  Forall (fun x => f x = true) l -> filter f l = l.
Proof.
  induction 1 as [|x l Hx _ IH]; simpl; [reflexivity|].
  rewrite Hx, IH. reflexivity.
Qed.

Lemma filter_filter {A : Type} (f g : A -> bool) (l : list A) :
  filter f (filter g l) = filter (fun x => g x && f x) l.
Proof.
  induction l as [|x l IH]; simpl; [reflexivity|].
  destruct (g x); simpl; [destruct (f x)|]; rewrite IH; reflexivity.
Qed.

Lemma filter_flat_map_none {A B : Type} (f : B -> bool) (g : A -> list B)
    (l : list A) :
  (forall x, In x l -> filter f (g x) = []) -> filter f (flat_map g l) = [].
Proof.
  induction l as [|x l IH]; simpl; intros H; [reflexivity|].
  rewrite filter_app, H, IH; auto.
Qed.

Lemma on_endpoint_other a b c :
  change_method c = Some (method_name (action_method b)) ->
  change_path c = Some (action_path b) ->
  action_key b <> action_key a ->
  on_endpoint a c = false.
Proof.
  unfold on_endpoint. intros -> -> Hne.
  destruct (String.eqb_spec (method_name (action_method b))
              (method_name (action_method a))) as [Hm|]; [|reflexivity].
  destruct (String.eqb_spec (action_path b) (action_path a)) as [Hp|];
    [|reflexivity].
  exfalso. apply Hne. unfold action_key. rewrite Hm, Hp. reflexivity.
Qed.

Lemma on_endpoint_same a c :
  change_method c = Some (method_name (action_method a)) ->
  change_path c = Some (action_path a) ->
  on_endpoint a c = true.
Proof.
  unfold on_endpoint. intros -> ->. rewrite !String.eqb_refl. reflexivity.
Qed.

(** The changes of the comparison of another endpoint are not on the
    endpoint of [a]. *)
Lemma other_block_filtered f a oa' na' :
  action_key na' <> action_key a ->
  filter (fun c => f c && on_endpoint a c) (compareEndpoints oa' na' []) = [].
Proof.
  intros Hne. apply filter_none.
  eapply Forall_impl; [|apply compareEndpoints_members].
  simpl. intros c (_ & Hm & Hp).
  rewrite (on_endpoint_other a na' c Hm Hp Hne). apply andb_false_r.
Qed.

Lemma group_filter_category i cat oa na g :
  nth_error (comparison_groups oa na) i = Some g ->
  nth_error sub_order i = Some cat ->
  filter (fun c => has_category cat c && on_endpoint na c) g = g.
Proof.
  intros Hg Hc. apply filter_all.
  eapply Forall_impl; [|apply (comparison_groups_spec _ _ _ _ Hg)].
  simpl. intros c (Hcat & _ & Hm & Hp).
  rewrite (on_endpoint_same na c Hm Hp). unfold has_category.
  rewrite Hc in Hcat. injection Hcat as <-. rewrite String.eqb_refl. reflexivity.
Qed.

Lemma group_filter_other_category i cat oa na g :
  nth_error (comparison_groups oa na) i = Some g ->
  nth_error sub_order i <> Some cat ->
  filter (fun c => has_category cat c && on_endpoint na c) g = [].
Proof.
  intros Hg Hc. apply filter_none.
  eapply Forall_impl; [|apply (comparison_groups_spec _ _ _ _ Hg)].
  simpl. intros c (Hcat & _). unfold has_category.
  destruct (String.eqb_spec (change_category c) cat) as [He|]; [|reflexivity].
  exfalso. apply Hc. rewrite Hcat, He. reflexivity.
Qed.

Lemma required_group_spec oa na :
  required_param_added_group oa na
  = map (required_param_added na) (newly_required oa na).
Proof.
  unfold required_param_added_group, newly_required, newRequiredParams.
  rewrite filter_filter. f_equal. apply filter_ext. intros p.
  unfold oldRequiredParams, required_keys.
  rewrite new_Set_has. reflexivity.
Qed.

Lemma block_filter_required oa na :
  filter (fun c => has_category "required-param-added" c && on_endpoint na c)
    (compareEndpoints oa na [])
  = map (required_param_added na) (newly_required oa na).
Proof.
  rewrite compareEndpoints_concat. unfold comparison_groups. simpl.
  rewrite !filter_app.
  rewrite (group_filter_category 0 _ oa na _ eq_refl eq_refl).
  rewrite (group_filter_other_category 1 _ oa na _ eq_refl) by discriminate.
  rewrite (group_filter_other_category 2 _ oa na _ eq_refl) by discriminate.
  rewrite (group_filter_other_category 3 _ oa na _ eq_refl) by discriminate.
  rewrite (group_filter_other_category 4 _ oa na _ eq_refl) by discriminate.
  rewrite (group_filter_other_category 5 _ oa na _ eq_refl) by discriminate.
  rewrite (group_filter_other_category 6 _ oa na _ eq_refl) by discriminate.
  simpl. rewrite app_nil_r. apply required_group_spec.
Qed.

Lemma other_entries_filtered f (om : JsMap ParsedAction) a m :
  (forall k' a', In (k', a') m -> action_key a' = k') ->
  ~ In (action_key a) (map_keys m) ->
  filter (fun c => f c && on_endpoint a c) (flat_map (modified_block om) m) = [].
Proof.
  intros Hk Hnot. apply filter_flat_map_none. intros [k' a'] Hin.
  unfold modified_block. simpl. destruct (map_get om k'); [|reflexivity].
  apply other_block_filtered. intros He. apply Hnot.
  rewrite <- He, (Hk k' a' Hin). apply (in_map fst _ _ Hin).
Qed.

(** C3.  For an endpoint key both lists have, with [oa] and [na] the
    actions the two lookup maps hold under it: the changes of category
    required-param-added that [diffSpecs] reports on that endpoint are,
    one for one and in order, the parameters of [na] (query, then path)
    that are required and whose key is not the key of a required parameter
    of [oa]; each is classified breaking.  In particular a required
    parameter of [na] gets its change whenever no parameter of [oa] with
    its key is required, whether [oa] has no parameter of that key or only
    optional ones, and the change is the same in both cases. *)
Theorem required_param_added_exactly
    (oldActions newActions : list ParsedAction) (k : string)
    (oa na : ParsedAction) :
  find_last k oldActions = Some oa ->
  find_last k newActions = Some na ->
  filter (fun c => has_category "required-param-added" c && on_endpoint na c)
    (changes (diffSpecs oldActions newActions))
  = map (required_param_added na) (newly_required oa na)
  /\ (forall p, change_type (required_param_added na p) = breaking)
  /\ (forall p,
        In p (all_params na) -> field_required p = true ->
        (forall q, In q (all_params oa) -> field_key q = field_key p ->
                   field_required q = false) ->
        In (required_param_added na p)
          (changes (diffSpecs oldActions newActions))).
Proof.
  intros Ho Hn.
  rewrite <- build_map_get in Ho, Hn.
  assert (Hmain :
    filter (fun c => has_category "required-param-added" c && on_endpoint na c)
      (changes (diffSpecs oldActions newActions))
    = map (required_param_added na) (newly_required oa na)).
  { rewrite diffSpecs_changes, !filter_app.
    rewrite (filter_none _ (removed_changes _ _)).
    2:{ eapply Forall_impl; [|apply removed_changes_category].
        simpl. intros c Hc. unfold has_category. rewrite Hc. reflexivity. }
    rewrite (filter_none _ (added_changes _ _)).
    2:{ eapply Forall_impl; [|apply added_changes_category].
        simpl. intros c Hc. unfold has_category. rewrite Hc. reflexivity. }
    simpl.
    pose proof (build_map_NoDup newActions) as Hnd.
    pose proof (build_map_entry newActions) as Hent.
    destruct (map_get_split _ _ _ Hn) as (m1 & m2 & Hsplit & Hm1).
    rewrite Hsplit in Hnd, Hent |- *.
    assert (Hkey : action_key na = k).
    { apply Hent. apply in_or_app. right. left. reflexivity. }
    unfold map_keys in Hnd. rewrite map_app in Hnd. simpl in Hnd.
    apply NoDup_remove_2 in Hnd.
    rewrite flat_map_app, filter_app. simpl. rewrite filter_app.
    rewrite (other_entries_filtered _ _ na m1).
    2:{ intros k' a' Hin. apply Hent. apply in_or_app. left. exact Hin. }
    2:{ rewrite Hkey. exact Hm1. }
    rewrite (other_entries_filtered _ _ na m2).
    2:{ intros k' a' Hin. apply Hent. apply in_or_app. right. right. exact Hin. }
    2:{ rewrite Hkey. intros Hin. apply Hnd. apply in_or_app. right. exact Hin. }
    unfold modified_block. simpl. rewrite Ho.
    rewrite app_nil_r. apply block_filter_required. }
  split; [exact Hmain|]. split; [reflexivity|].
  intros p Hp Hreq Hold.
  assert (Hin : In (required_param_added na p)
                  (map (required_param_added na) (newly_required oa na))).
  { apply in_map. unfold newly_required. apply filter_In. split; [exact Hp|].
    rewrite Hreq. simpl. apply negb_true_iff.
    destruct (existsb (String.eqb (field_key p)) (required_keys oa)) eqn:E;
      [|reflexivity].
    exfalso. apply existsb_exists in E. destruct E as (x & Hx & He).
    apply String.eqb_eq in He. subst x.
    unfold required_keys in Hx. apply in_map_iff in Hx.
    destruct Hx as (q & Hq & Hqin). apply filter_In in Hqin.
    destruct Hqin as [Hqin Hqreq].
    rewrite (Hold q Hqin Hq) in Hqreq. discriminate. }
  rewrite <- Hmain in Hin. apply filter_In in Hin. apply Hin.
Qed.

Lemma required_param_added_exactly_witness :
  find_last "GET /pets" petstore_v1 = Some list_pets_v1
  /\ find_last "GET /pets" petstore_v2 = Some list_pets_v2
  /\ filter (fun c => has_category "required-param-added" c
                      && on_endpoint list_pets_v2 c)
       (changes (diffSpecs petstore_v1 petstore_v2))
     = map (required_param_added list_pets_v2)
         (newly_required list_pets_v1 list_pets_v2).
Proof.
  split; [reflexivity|]. split; [reflexivity|].
  apply (required_param_added_exactly petstore_v1 petstore_v2 "GET /pets"
           list_pets_v1 list_pets_v2); reflexivity.
Defined.

(* ------------------------------------------------------------------ *)

Lemma last_with_map {A : Type} (key : A -> string) (f : A -> A) k l :
  (forall a, key (f a) = key a) ->
  last_with key k (map f l) = option_map f (last_with key k l).
Proof.
  intros Hf. unfold last_with. rewrite <- map_rev.
  induction (rev l) as [|a r IH]; simpl; [reflexivity|].
  rewrite Hf. destruct (key a =? k)%string; [reflexivity | exact IH].
Qed.

Lemma use_last_key l a :
  action_key (match find_last (action_key a) l with
              | Some b => b
              | None => a
              end) = action_key a.
Proof.
  destruct (find_last (action_key a) l) as [b|] eqn:E; [|reflexivity].
  apply (find_last_key _ _ _ E).
Qed.

Lemma build_map_use_last l : build_map (use_last l) = build_map l.
Proof.
  apply map_ext.
  - apply build_map_NoDup.
  - rewrite !build_map_keys. f_equal. unfold use_last. rewrite map_map.
    apply map_ext_in. intros a _. apply use_last_key.
  - intros k. rewrite !build_map_get. unfold find_last, use_last.
    rewrite last_with_map by (intros a; apply use_last_key).
    destruct (last_with action_key k l) as [b|] eqn:E; [|reflexivity].
    simpl. f_equal.
    pose proof (find_last_key _ _ _ E) as Hk. unfold find_last.
    rewrite Hk, E. reflexivity.
Qed.

Lemma diffSpecs_by_maps o n o' n' :
  build_map o = build_map o' -> build_map n = build_map n' ->
  diffSpecs o n = diffSpecs o' n'.
Proof. unfold diffSpecs. intros -> ->. reflexivity. Qed.

(** C6.  Only the last action under each (method, path) key counts:
    replacing every action of either list by the last action of that list
    with the same key leaves the result of [diffSpecs] unchanged. *)
Theorem diffSpecs_last_seen (oldActions newActions : list ParsedAction) :
  diffSpecs (use_last oldActions) (use_last newActions)
  = diffSpecs oldActions newActions
  /\ diffSpecs (use_last oldActions) newActions = diffSpecs oldActions newActions
  /\ diffSpecs oldActions (use_last newActions) = diffSpecs oldActions newActions.
Proof.
  repeat split; apply diffSpecs_by_maps;
    first [apply build_map_use_last | reflexivity].
Qed.

Example use_last_twice_listed :
  use_last twice_listed = [list_pets_v2; delete_pet; list_pets_v2].
Proof. reflexivity. Qed.

(* ------------------------------------------------------------------ *)

Lemma fieldtype_eqb_refl t : fieldtype_eqb t t = true.
Proof. destruct t; reflexivity. Qed.

Lemma set_has_map_key (l : list ParsedField) p :
  In p l -> set_has (new_Set (map field_key l)) (field_key p) = true.
Proof.
  intros Hin. apply set_has_In, new_Set_In. apply in_map. exact Hin.
Qed.

Lemma compareEndpoints_self a :
  param_types_agree a -> compareEndpoints a a [] = [].
Proof.
  intros Hagree. rewrite compareEndpoints_groups. simpl.
  assert (H1 : required_param_added_group a a = []).
  { unfold required_param_added_group. rewrite filter_none; [reflexivity|].
    apply Forall_forall. intros p Hp.
    unfold oldRequiredParams. unfold newRequiredParams in Hp.
    rewrite (set_has_map_key _ p Hp). reflexivity. }
  assert (H2 : optional_param_added_group a a = []).
  { unfold optional_param_added_group. rewrite filter_none; [reflexivity|].
    apply Forall_forall. intros p Hp. unfold oldAllParams.
    apply filter_In in Hp. rewrite (set_has_map_key _ p (proj1 Hp)).
    reflexivity. }
  assert (H3 : param_removed_group a a = []).
  { unfold param_removed_group. rewrite filter_none; [reflexivity|].
    apply Forall_forall. intros k Hk. unfold newAllParams.
    unfold oldAllParams in Hk.
    apply set_has_In in Hk. rewrite Hk. reflexivity. }
  assert (H4 : param_type_changed_group a a = []).
  { unfold param_type_changed_group. rewrite filter_none; [reflexivity|].
    apply Forall_forall. intros p Hp. unfold type_differs.
    destruct (map_get (oldParamMap a) (field_key p)) as [old|] eqn:E;
      [|reflexivity].
    apply oldParamMap_get in E. destruct E as [Hk Hin].
    rewrite (Hagree old p Hin Hp Hk), fieldtype_eqb_refl. reflexivity. }
  assert (H5 : required_body_field_added_group a a = []).
  { unfold required_body_field_added_group. rewrite filter_none; [reflexivity|].
    apply Forall_forall. intros p Hp. unfold oldBodyKeys.
    rewrite (set_has_map_key _ p Hp). apply andb_false_r. }
  assert (H6 : response_field_removed_group a a = []).
  { unfold response_field_removed_group. rewrite filter_none; [reflexivity|].
    apply Forall_forall. intros p Hp. unfold newResponseKeys.
    rewrite (set_has_map_key _ p Hp). reflexivity. }
  assert (H7 : description_changed_group a a = []).
  { unfold description_changed_group, description_differs.
    rewrite String.eqb_refl. reflexivity. }
  rewrite H1, H2, H3, H4, H5, H6, H7. reflexivity.
Qed.

(** Where no action has two parameters of one key and different types,
    a list compared with itself gives no change. *)
Lemma diffSpecs_self_agreeing (A : list ParsedAction) :
  (forall a, In a A -> param_types_agree a) ->
  diffSpecs A A = mkDiffResult [] 0 0.
Proof.
  intros Hagree.
  assert (Hch : changes (diffSpecs A A) = []).
  { rewrite diffSpecs_changes.
    assert (Hhas : forall e, In e (build_map A) ->
                             map_has (build_map A) (fst e) = true).
    { intros e He. apply map_has_In. apply in_map. exact He. }
    unfold removed_changes, added_changes.
    rewrite filter_none.
    2:{ apply Forall_forall. intros e He. rewrite (Hhas e He). reflexivity. }
    simpl.
    assert (Hblocks : forall m, incl m (build_map A) ->
                                flat_map (modified_block (build_map A)) m = []).
    { induction m as [|[k a] m IH]; intros Hincl; [reflexivity|].
      simpl. rewrite IH by (intros x Hx; apply Hincl; right; exact Hx).
      unfold modified_block. simpl.
      assert (Hin : In (k, a) (build_map A)) by (apply Hincl; left; reflexivity).
      rewrite (map_get_In _ _ _ (build_map_NoDup A) Hin).
      rewrite compareEndpoints_self; [reflexivity|].
      apply Hagree. apply (build_map_entry_In _ _ _ Hin). }
    apply Hblocks. apply incl_refl. }
  unfold diffSpecs in *. simpl in *. rewrite Hch. reflexivity.
Qed.

Lemma diffSpecs_self_agreeing_witness :
  diffSpecs petstore_v1 petstore_v1 = mkDiffResult [] 0 0.
Proof. reflexivity. Qed.

(** C2.  The claim, that a list compared with itself gives no change,
    fails on the code: an action whose query parameter [id] is a string
    and whose path parameter [id] is a number, compared with itself, is
    reported as one breaking param-type-changed change, because the
    parameters are looked up by key alone and the last one (the path
    parameter) stands for both. *)
Theorem diffSpecs_self_reports_type_change :
  changes (diffSpecs [get_item] [get_item])
  = [mkDiffChange breaking "param-type-changed"
       ("Parameter type changed: " ++ dquote ++ "id" ++ dquote
          ++ " number -> string on GET /items/{id}")
       (Some "GET") (Some "/items/{id}")]
  /\ breakingCount (diffSpecs [get_item] [get_item]) = 1
  /\ nonBreakingCount (diffSpecs [get_item] [get_item]) = 0.
Proof. repeat split. Qed.

(* ================================================================== *)
(** ** Properties of [schemaToFields] *)
(* ================================================================== *)

Lemma schemaToFields_unfold schema depth :
  schemaToFields schema depth =
  if (2 <? depth)%nat then []
  else
    let of_items :=
      match schema_items schema with
      | Some items =>
          if type_is (schema_type schema) "array"
             && negb (is_some (schema_ref items))
          then schemaToFields items depth
          else []
      | None => []
      end in
    match schema_properties schema with
    | Some properties =>
        if type_is (schema_type schema) "object" then
          map (property_field
                 (match schema_required schema with Some r => r | None => [] end)
                 depth)
            (filter (fun e => negb (is_some (schema_ref (snd e)))) properties)
        else of_items
    | None => of_items
    end.
Proof.
  destruct schema as [r t props req items d e f df ex].
  destruct depth as [|[|[|depth]]]; simpl; try reflexivity;
    (destruct props as [props|]; [|reflexivity];
     destruct (type_is t "object"); [|reflexivity];
     induction props as [|[k p] props IH]; simpl; [reflexivity|];
     destruct (is_some (schema_ref p)); simpl; [exact IH|];
     f_equal; exact IH).
Qed.

Lemma schemaToFields_beyond_bound schema n :
  schemaToFields schema (3 + n) = [].
Proof. rewrite schemaToFields_unfold. reflexivity. Qed.

(** C1, as the code has it.  Flattening the literal schema from depth 0
    keeps the fields of the three object levels it has: [a], inside it
    [b], inside it the string field [c].  Empty field lists begin one
    level further down, at depth 3: every call at a depth above 2 returns
    the empty list, so in the schema with [c] an object holding [d], the
    field [c] has an empty [properties] list and [d] appears nowhere. *)
Theorem schemaToFields_depth_bound :
  schemaToFields nested_to_c 0
  = [plain_field "a" "A" TObject
       (Some [plain_field "b" "B" TObject
                (Some [plain_field "c" "C" TString None])])]
  /\ (forall schema n, schemaToFields schema (3 + n) = [])
  /\ schemaToFields nested_to_d 0
     = [plain_field "a" "A" TObject
          (Some [plain_field "b" "B" TObject
                   (Some [plain_field "c" "C" TObject (Some [])])])]
  /\ ~ In "d" (flat_map all_keys (schemaToFields nested_to_d 0)).
Proof.
  split; [reflexivity|]. split; [apply schemaToFields_beyond_bound|].
  split; [reflexivity|].
  vm_compute. intros H. repeat (destruct H as [H|H]; [discriminate|]). exact H.
Qed.

(** C1, as stated, fails: the field [c] of the literal schema is in the
    result. *)
Lemma schemaToFields_keeps_c :
  In "c" (flat_map all_keys (schemaToFields nested_to_c 0)).
Proof. vm_compute. right. right. left. reflexivity. Qed.

(** Induction on a schema, with the hypothesis on every property and on
    the item schema. *)
Lemma SchemaObject_nested_ind (P : SchemaObject -> Prop) :
  (forall r t props req items d e f df ex,
      match props with
      | Some ps => Forall (fun entry => P (snd entry)) ps
      | None => True
      end ->
      match items with Some it => P it | None => True end ->
      P (mkSchemaObject r t props req items d e f df ex)) ->
  forall s, P s.
Proof.
  intros H. fix IH 1. intros [r t props req items d e f df ex].
  apply H.
  - destruct props as [ps|]; [|exact I].
    induction ps as [|[k p] ps IHps]; constructor; [apply IH | exact IHps].
  - destruct items as [it|]; [apply IH | exact I].
Qed.

Lemma item_field_wellformed items properties :
  match properties with
  | Some ps => forallb items_wellformed ps = true
  | None => True
  end ->
  items_wellformed (item_field items properties) = true.
Proof.
  unfold item_field. simpl. destruct properties as [ps|]; intros H.
  - rewrite H. reflexivity.
  - reflexivity.
Qed.

Lemma item_field_shape items properties :
  field_key (item_field items properties) = "item"
  /\ field_label (item_field items properties) = "Item"
  /\ field_required (item_field items properties) = false.
Proof. repeat split. Qed.

(** C10.  In the result of [schemaToFields], for every schema and every
    depth, each [items] descriptor, at whatever nesting, has key [item],
    label [Item] and [required = false]. *)
Theorem schemaToFields_items_wellformed (schema : SchemaObject) (depth : nat) :
  forallb items_wellformed (schemaToFields schema depth) = true.
Proof.
  revert depth.
  (* the statement for the schema and for its item schema, which a
     property reaches two levels down *)
  enough (H :
    (forall depth, forallb items_wellformed (schemaToFields schema depth) = true)
    /\ (forall it, schema_items schema = Some it ->
          forall depth,
            forallb items_wellformed (schemaToFields it depth) = true))
    by exact (proj1 H).
  induction schema as [r t props req items d e f df ex IHprops IHitems]
    using SchemaObject_nested_ind.
  assert (Hsub : forall it, items = Some it ->
            forall depth,
              forallb items_wellformed (schemaToFields it depth) = true).
  { intros it Hit depth. subst items. simpl in IHitems.
    apply (proj1 IHitems). }
  split; [|exact Hsub].
  intros depth. rewrite schemaToFields_unfold. simpl.
  destruct (2 <? depth)%nat; [reflexivity|].
  assert (Hitems :
    forallb items_wellformed
      match items with
      | Some items0 =>
          if type_is t "array" && negb (is_some (schema_ref items0))
          then schemaToFields items0 depth
          else []
      | None => []
      end = true).
  { destruct items as [it|]; [|reflexivity].
    destruct (type_is t "array" && negb (is_some (schema_ref it)));
      [apply (Hsub it eq_refl) | reflexivity]. }
  destruct props as [ps|]; [|exact Hitems].
  destruct (type_is t "object"); [|exact Hitems].
  apply forallb_forall. intros fld Hin.
  apply in_map_iff in Hin. destruct Hin as ([k p] & <- & Hin).
  apply filter_In in Hin. destruct Hin as [Hin _].
  rewrite Forall_forall in IHprops. specialize (IHprops (k, p) Hin).
  simpl in IHprops. destruct IHprops as [IHp IHpitems].
  unfold property_field. simpl. apply andb_true_iff. split.
  - destruct (type_is (schema_type p) "object" && is_some (schema_properties p));
      [apply IHp | reflexivity].
  - destruct (schema_items p) as [it|]; [|reflexivity].
    destruct (type_is (schema_type p) "array" && negb (is_some (schema_ref it)));
      [|reflexivity].
    apply andb_true_iff. split; [reflexivity|].
    apply item_field_wellformed.
    destruct (type_is (schema_type it) "object" && is_some (schema_properties it));
      [apply (IHpitems it eq_refl) | exact I].
Qed.

Example with_arrays_items :
  map (fun f => option_map (fun it => (field_key it, field_label it, field_required it))
                  (field_items f))
    (schemaToFields with_arrays 0)
  = [Some ("item", "Item", false); Some ("item", "Item", false)].
Proof. reflexivity. Qed.

(* ================================================================== *)
(** ** Properties of the authentication extractors *)
(* ================================================================== *)

Lemma find_filter_sub {A : Type} (p q : A -> bool) (l : list A) :
  (forall x, p x = true -> q x = true) ->
  find p (filter q l) = find p l.
Proof.
  intros Hpq. induction l as [|x l IH]; simpl; [reflexivity|].
  destruct (q x) eqn:Hq; simpl.
  - destruct (p x); [reflexivity | exact IH].
  - destruct (p x) eqn:Hp; [|exact IH].
    rewrite (Hpq x Hp) in Hq. discriminate.
Qed.

Lemma existsb_find {A : Type} (p : A -> bool) (l : list A) :
  existsb p l = is_some (find p l).
Proof.
  induction l as [|x l IH]; simpl; [reflexivity|].
  destruct (p x); [reflexivity | exact IH].
Qed.

Lemma api_key_config_some name location :
  is_some (api_key_config name location) = well_formed_api_key name location.
Proof.
  unfold api_key_config, well_formed_api_key, type_is.
  destruct name as [n|]; [|reflexivity].
  destruct location as [l|]; [|destruct (str_truthy n); reflexivity].
  destruct (str_truthy n); [|reflexivity]. simpl.
  destruct (l =? "header")%string; [reflexivity|].
  destruct (l =? "query")%string; reflexivity.
Qed.

(** The well-formedness test in the words of the source: a name that is
    there and not empty, and a location [header] or [query]. *)
Lemma well_formed_api_key_false name location :
  well_formed_api_key name location = false <->
  (name = None \/ name = Some EmptyString
   \/ (location <> Some "header" /\ location <> Some "query")).
Proof.
  unfold well_formed_api_key, type_is. split.
  - intros H. destruct name as [[|c n]|]; [auto | | auto].
    right. right. simpl in H.
    destruct location as [l|]; [|split; discriminate].
    destruct (String.eqb_spec l "header"); [discriminate|].
    destruct (String.eqb_spec l "query"); [discriminate|].
    split; congruence.
  - intros [-> | [-> | [Hh Hq]]]; [reflexivity | reflexivity |].
    destruct location as [l|]; [|apply andb_false_r].
    destruct (String.eqb_spec l "header"); [congruence|].
    destruct (String.eqb_spec l "query"); [congruence|].
    apply andb_false_r.
Qed.

Ltac find_kind H :=
  let Hk := fresh "Hk" in
  pose proof (find_some _ _ H) as [_ Hk]; simpl in Hk; try discriminate Hk.

Section OpenAPI3Auth.
Variable schemes : list (string * SecuritySchemeV3).
Let entries := filter (fun e => isSecurityScheme (snd e)) schemes.

Lemma v3_find_apiKey : find v3_is_apiKey entries = find v3_is_apiKey schemes.
Proof. apply find_filter_sub. intros [n []] H; try reflexivity; discriminate H. Qed.

Lemma v3_find_bearer : find v3_is_bearer entries = find v3_is_bearer schemes.
Proof. apply find_filter_sub. intros [n []] H; try reflexivity; discriminate H. Qed.

Lemma v3_find_oauth2 : find v3_is_oauth2 entries = find v3_is_oauth2 schemes.
Proof. apply find_filter_sub. intros [n []] H; try reflexivity; discriminate H. Qed.

Lemma v3_apiKey_block_spec :
  match v3_apiKey_block entries with
  | Some r => first_api_key_usable_v3 schemes = true /\ auth_type r = auth_apiKey
  | None => first_api_key_usable_v3 schemes = false
  end.
Proof.
  unfold v3_apiKey_block, first_api_key_usable_v3. rewrite v3_find_apiKey.
  destruct (find v3_is_apiKey schemes) as [[n s]|] eqn:E; [|reflexivity].
  find_kind E. destruct s; try discriminate.
  rewrite <- api_key_config_some.
  destruct (api_key_config name location); simpl; auto.
Qed.

Lemma v3_bearer_block_spec :
  match v3_bearer_block entries with
  | Some r => existsb v3_is_bearer schemes = true /\ auth_type r = auth_bearer
  | None => existsb v3_is_bearer schemes = false
  end.
Proof.
  unfold v3_bearer_block. rewrite v3_find_bearer, existsb_find.
  destruct (find v3_is_bearer schemes) as [[n s]|] eqn:E; [|reflexivity].
  find_kind E. destruct s; try discriminate. simpl. auto.
Qed.

Lemma v3_oauth2_block_spec :
  match v3_oauth2_block entries with
  | Some r => existsb v3_is_oauth2 schemes = true /\ auth_type r = auth_oauth2
  | None => existsb v3_is_oauth2 schemes = false
  end.
Proof.
  unfold v3_oauth2_block. rewrite v3_find_oauth2, existsb_find.
  destruct (find v3_is_oauth2 schemes) as [[n s]|] eqn:E; [|reflexivity].
  find_kind E. destruct s; try discriminate. simpl. auto.
Qed.

Lemma extractAuthOpenAPI3_blocks :
  extractAuthOpenAPI3 (Some schemes) =
  or_else (v3_apiKey_block entries)
    (or_else (v3_bearer_block entries)
       (or_else (v3_oauth2_block entries) no_auth)).
Proof.
  unfold extractAuthOpenAPI3, entries. destruct schemes; reflexivity.
Qed.

Lemma extractAuthOpenAPI3_type :
  auth_type (extractAuthOpenAPI3 (Some schemes))
  = priority_auth_type_v3 (Some schemes).
Proof.
  rewrite extractAuthOpenAPI3_blocks. unfold priority_auth_type_v3.
  pose proof v3_apiKey_block_spec as Ha.
  pose proof v3_bearer_block_spec as Hb.
  pose proof v3_oauth2_block_spec as Ho.
  destruct (v3_apiKey_block entries) as [r|]; simpl.
  { destruct Ha as [-> ->]. reflexivity. }
  rewrite Ha.
  destruct (v3_bearer_block entries) as [r|]; simpl.
  { destruct Hb as [-> ->]. reflexivity. }
  rewrite Hb.
  destruct (v3_oauth2_block entries) as [r|]; simpl.
  { destruct Ho as [-> ->]. reflexivity. }
  rewrite Ho. reflexivity.
Qed.
End OpenAPI3Auth.

Section Swagger2Auth.
Variable entries : list (string * SecuritySchemeV2).

Lemma v2_apiKey_block_spec :
  match v2_apiKey_block entries with
  | Some r => first_api_key_usable_v2 entries = true /\ auth_type r = auth_apiKey
  | None => first_api_key_usable_v2 entries = false
  end.
Proof.
  unfold v2_apiKey_block, first_api_key_usable_v2.
  destruct (find v2_is_apiKey entries) as [[n s]|] eqn:E; [|reflexivity].
  find_kind E. destruct s; try discriminate.
  rewrite <- api_key_config_some.
  destruct (api_key_config name location); simpl; auto.
Qed.

Lemma v2_basic_block_spec :
  match v2_basic_block entries with
  | Some r => existsb v2_is_basic entries = true /\ auth_type r = auth_bearer
  | None => existsb v2_is_basic entries = false
  end.
Proof.
  unfold v2_basic_block. rewrite existsb_find.
  destruct (find v2_is_basic entries); simpl; auto.
Qed.

Lemma v2_oauth2_block_spec :
  match v2_oauth2_block entries with
  | Some r => existsb v2_is_oauth2 entries = true /\ auth_type r = auth_oauth2
  | None => existsb v2_is_oauth2 entries = false
  end.
Proof.
  unfold v2_oauth2_block. rewrite existsb_find.
  destruct (find v2_is_oauth2 entries) as [[n s]|] eqn:E; [|reflexivity].
  find_kind E. destruct s; try discriminate. simpl. auto.
Qed.

Lemma extractAuthSwagger2_blocks :
  extractAuthSwagger2 (Some entries) =
  or_else (v2_apiKey_block entries)
    (or_else (v2_basic_block entries)
       (or_else (v2_oauth2_block entries) no_auth)).
Proof. unfold extractAuthSwagger2. destruct entries; reflexivity. Qed.

Lemma extractAuthSwagger2_type :
  auth_type (extractAuthSwagger2 (Some entries))
  = priority_auth_type_v2 (Some entries).
Proof.
  rewrite extractAuthSwagger2_blocks. unfold priority_auth_type_v2.
  pose proof v2_apiKey_block_spec as Ha.
  pose proof v2_basic_block_spec as Hb.
  pose proof v2_oauth2_block_spec as Ho.
  destruct (v2_apiKey_block entries) as [r|]; simpl.
  { destruct Ha as [-> ->]. reflexivity. }
  rewrite Ha.
  destruct (v2_basic_block entries) as [r|]; simpl.
  { destruct Hb as [-> ->]. reflexivity. }
  rewrite Hb.
  destruct (v2_oauth2_block entries) as [r|]; simpl.
  { destruct Ho as [-> ->]. reflexivity. }
  rewrite Ho. reflexivity.
Qed.
End Swagger2Auth.

(** C4, as the code has it.  Both extractors resolve the scheme kinds in
    a fixed priority order: the API key, when the first API-key scheme of
    the collection has a non-empty name and the location [header] or
    [query]; otherwise bearer (OpenAPI 3: an http scheme [bearer];
    Swagger: a basic scheme, mapped onto bearer); otherwise OAuth2;
    otherwise, and for an absent or empty collection, none.  In
    particular a collection that declares a bearer scheme and whose first
    API-key scheme is well formed resolves to the type [apiKey]. *)
Theorem auth_priority_order :
  (forall schemes,
      auth_type (extractAuthOpenAPI3 schemes) = priority_auth_type_v3 schemes)
  /\ (forall definitions,
        auth_type (extractAuthSwagger2 definitions)
        = priority_auth_type_v2 definitions)
  /\ (forall schemes,
        first_api_key_usable_v3 schemes = true ->
        existsb v3_is_bearer schemes = true ->
        auth_type (extractAuthOpenAPI3 (Some schemes)) = auth_apiKey)
  /\ (forall definitions,
        first_api_key_usable_v2 definitions = true ->
        existsb v2_is_basic definitions = true ->
        auth_type (extractAuthSwagger2 (Some definitions)) = auth_apiKey).
Proof.
  split; [|split; [|split]].
  - intros [schemes|]; [apply extractAuthOpenAPI3_type | reflexivity].
  - intros [entries|]; [apply extractAuthSwagger2_type | reflexivity].
  - intros schemes Hk _. rewrite extractAuthOpenAPI3_type. simpl.
    rewrite Hk. reflexivity.
  - intros entries Hk _. rewrite extractAuthSwagger2_type. simpl.
    rewrite Hk. reflexivity.
Qed.

Lemma auth_priority_order_witness :
  first_api_key_usable_v3 header_key_and_bearer = true
  /\ existsb v3_is_bearer header_key_and_bearer = true
  /\ auth_type (extractAuthOpenAPI3 (Some header_key_and_bearer)) = auth_apiKey.
Proof.
  split; [reflexivity|]. split; [reflexivity|].
  apply (proj1 (proj2 (proj2 auth_priority_order))); reflexivity.
Defined.

(** C4, as stated, fails: a collection that declares an API-key scheme
    (kept in a cookie) and a bearer scheme resolves to [bearer], not to
    [apiKey]. *)
Lemma auth_cookie_key_and_bearer :
  auth_type (extractAuthOpenAPI3 (Some cookie_key_and_bearer)) = auth_bearer
  /\ auth_type (extractAuthOpenAPI3 (Some cookie_key_and_bearer)) <> auth_apiKey.
Proof. split; [reflexivity | discriminate]. Qed.

(* ------------------------------------------------------------------ *)

Lemma find_filter_negb {A : Type} (p q : A -> bool) (l : list A) :
  (forall x, p x = true -> q x = false) ->
  find p (filter (fun x => negb (q x)) l) = find p l.
Proof.
  intros H. apply find_filter_sub. intros x Hx. rewrite (H x Hx). reflexivity.
Qed.

Lemma find_filter_self_negb {A : Type} (p : A -> bool) (l : list A) :
  find p (filter (fun x => negb (p x)) l) = None.
Proof.
  induction l as [|x l IH]; simpl; [reflexivity|].
  destruct (p x) eqn:E; simpl; [exact IH|]. rewrite E. exact IH.
Qed.

Lemma v3_without_api_keys schemes :
  v3_apiKey_block (filter (fun e => isSecurityScheme (snd e)) schemes) = None ->
  extractAuthOpenAPI3 (Some schemes)
  = extractAuthOpenAPI3 (Some (filter (fun e => negb (v3_is_apiKey e)) schemes)).
Proof.
  intros Hnone.
  rewrite (extractAuthOpenAPI3_blocks (filter _ schemes)).
  rewrite (extractAuthOpenAPI3_blocks schemes), Hnone.
  unfold v3_apiKey_block, v3_bearer_block, v3_oauth2_block.
  rewrite !v3_find_apiKey, !v3_find_bearer, !v3_find_oauth2.
  rewrite find_filter_self_negb. simpl.
  rewrite (find_filter_negb v3_is_bearer v3_is_apiKey)
    by (intros [n []] H; try reflexivity; discriminate H).
  rewrite (find_filter_negb v3_is_oauth2 v3_is_apiKey)
    by (intros [n []] H; try reflexivity; discriminate H).
  reflexivity.
Qed.

Lemma v2_without_api_keys entries :
  v2_apiKey_block entries = None ->
  extractAuthSwagger2 (Some entries)
  = extractAuthSwagger2 (Some (filter (fun e => negb (v2_is_apiKey e)) entries)).
Proof.
  intros Hnone.
  rewrite (extractAuthSwagger2_blocks (filter _ entries)).
  rewrite (extractAuthSwagger2_blocks entries), Hnone.
  unfold v2_apiKey_block, v2_basic_block, v2_oauth2_block.
  rewrite find_filter_self_negb. simpl.
  rewrite (find_filter_negb v2_is_basic v2_is_apiKey)
    by (intros [n []] H; try reflexivity; discriminate H).
  rewrite (find_filter_negb v2_is_oauth2 v2_is_apiKey)
    by (intros [n []] H; try reflexivity; discriminate H).
  reflexivity.
Qed.

(** C9.  When the first API-key scheme of the collection lacks a name
    (absent or empty) or has a location other than [header] and [query],
    the extractor of either dialect returns no [apiKey] descriptor and
    goes on as if no API-key scheme were declared: its result is the one
    for the collection without its API-key schemes, of type bearer if a
    bearer (Swagger: basic) scheme is declared, else oauth2 if an OAuth2
    scheme is declared, else none.  A collection that holds such a scheme
    alone yields the type none with no configuration. *)
Theorem malformed_api_key_falls_through
    (key : string) (name location : option string) :
  (name = None \/ name = Some EmptyString
   \/ (location <> Some "header" /\ location <> Some "query")) ->
  (forall schemes,
      find v3_is_apiKey schemes = Some (key, V3ApiKey name location) ->
      extractAuthOpenAPI3 (Some schemes)
      = extractAuthOpenAPI3
          (Some (filter (fun e => negb (v3_is_apiKey e)) schemes))
      /\ auth_type (extractAuthOpenAPI3 (Some schemes))
         = (if existsb v3_is_bearer schemes then auth_bearer
            else if existsb v3_is_oauth2 schemes then auth_oauth2
            else auth_none))
  /\ (forall definitions,
        find v2_is_apiKey definitions = Some (key, V2ApiKey name location) ->
        extractAuthSwagger2 (Some definitions)
        = extractAuthSwagger2
            (Some (filter (fun e => negb (v2_is_apiKey e)) definitions))
        /\ auth_type (extractAuthSwagger2 (Some definitions))
           = (if existsb v2_is_basic definitions then auth_bearer
              else if existsb v2_is_oauth2 definitions then auth_oauth2
              else auth_none))
  /\ extractAuthOpenAPI3 (Some [(key, V3ApiKey name location)]) = no_auth
  /\ extractAuthSwagger2 (Some [(key, V2ApiKey name location)]) = no_auth.
Proof.
  intros Hbad. apply well_formed_api_key_false in Hbad.
  assert (Hcfg : api_key_config name location = None).
  { rewrite <- api_key_config_some in Hbad.
    destruct (api_key_config name location); [discriminate | reflexivity]. }
  split; [|split; [|split]].
  - intros schemes Hfind.
    assert (Husable : first_api_key_usable_v3 schemes = false).
    { unfold first_api_key_usable_v3. rewrite Hfind. exact Hbad. }
    split.
    + apply v3_without_api_keys.
      unfold v3_apiKey_block. rewrite v3_find_apiKey, Hfind, Hcfg. reflexivity.
    + rewrite extractAuthOpenAPI3_type. simpl. rewrite Husable. reflexivity.
  - intros entries Hfind.
    assert (Husable : first_api_key_usable_v2 entries = false).
    { unfold first_api_key_usable_v2. rewrite Hfind. exact Hbad. }
    split.
    + apply v2_without_api_keys.
      unfold v2_apiKey_block. rewrite Hfind, Hcfg. reflexivity.
    + rewrite extractAuthSwagger2_type. simpl. rewrite Husable. reflexivity.
  - unfold extractAuthOpenAPI3, v3_apiKey_block. simpl. rewrite Hcfg. reflexivity.
  - unfold extractAuthSwagger2, v2_apiKey_block. simpl. rewrite Hcfg. reflexivity.
Qed.

Lemma malformed_api_key_falls_through_witness :
  (Some "cookie" <> Some "header" /\ Some "cookie" <> Some "query")
  /\ find v3_is_apiKey cookie_key_and_bearer
     = Some ("cookieAuth", V3ApiKey (Some "session") (Some "cookie"))
  /\ auth_type (extractAuthOpenAPI3 (Some cookie_key_and_bearer)) = auth_bearer
  /\ extractAuthOpenAPI3
       (Some [("cookieAuth", V3ApiKey (Some "session") (Some "cookie"))])
     = no_auth.
Proof.
  assert (Hbad : Some "cookie" <> Some "header" /\ Some "cookie" <> Some "query")
    by (split; discriminate).
  pose proof (malformed_api_key_falls_through "cookieAuth" (Some "session")
                (Some "cookie") (or_intror (or_intror Hbad))) as (H3 & _ & H1 & _).
  split; [exact Hbad|]. split; [reflexivity|].
  split; [exact (proj2 (H3 cookie_key_and_bearer eq_refl)) | exact H1].
Defined.

(* ================================================================== *)
(** ** Properties of [parseSpec] *)
(* ================================================================== *)

Lemma no_marker_not_openapi3 d : no_dialect_marker d -> isOpenAPI3 d = false.
Proof.
  intros [Ho _]. unfold isOpenAPI3.
  destruct (doc_openapi d) as [[| | |s| |]|]; try reflexivity.
  apply Ho. reflexivity.
Qed.

Lemma no_marker_not_swagger2 d : no_dialect_marker d -> isSwagger2 d = false.
Proof.
  intros [_ Hs]. unfold isSwagger2.
  destruct (doc_swagger d) as [[| | |s| |]|]; try reflexivity.
  destruct (String.eqb_spec s "2.0") as [-> |]; [|reflexivity].
  exfalso. apply Hs. reflexivity.
Qed.

(** The detection reads nothing but the two markers. *)
Lemma marker_iff_detected d :
  no_dialect_marker d <-> isOpenAPI3 d = false /\ isSwagger2 d = false.
Proof.
  split.
  - intros H. split; [apply no_marker_not_openapi3 | apply no_marker_not_swagger2];
      exact H.
  - unfold isOpenAPI3, isSwagger2, no_dialect_marker. intros [Ho Hs]. split.
    + intros s Hd. rewrite Hd in Ho. exact Ho.
    + intros Hd. rewrite Hd in Hs. discriminate.
Qed.

(** C8.  When the document the validation library hands over has no
    dialect marker (its [openapi] member is not a string that starts with
    [3.], its [swagger] member is not the string [2.0]), [parseSpec]
    returns a failure, with the error text of the unsupported version and
    no canonical model. *)
Theorem parseSpec_unsupported_version
    (validate parse : JSON -> Outcome) (spec : JSON) (d : Document) :
  validated_as validate parse spec d ->
  no_dialect_marker d ->
  parseSpec validate parse spec
  = ParseFailure "Unsupported specification version"
      (Some "Only OpenAPI 3.x and Swagger 2.0 are supported")
  /\ success (parseSpec validate parse spec) = false.
Proof.
  intros Hval Hno.
  assert (Hd : forall w,
            dispatch d w
            = ParseFailure "Unsupported specification version"
                (Some "Only OpenAPI 3.x and Swagger 2.0 are supported")).
  { intros w. unfold dispatch.
    rewrite (no_marker_not_openapi3 d Hno), (no_marker_not_swagger2 d Hno).
    reflexivity. }
  assert (Hres : parseSpec validate parse spec
                 = ParseFailure "Unsupported specification version"
                     (Some "Only OpenAPI 3.x and Swagger 2.0 are supported")).
  { unfold parseSpec. destruct Hval as [Hv | (error & Hv & Hmiss & Hp)].
    - rewrite Hv. apply Hd.
    - rewrite Hv. unfold thrown_message in Hmiss. rewrite Hmiss, Hp. apply Hd. }
  rewrite Hres. split; reflexivity.
Qed.

Lemma parseSpec_unsupported_version_witness :
  parseSpec (fun _ => Returned openapi4_document)
    (fun _ => Threw ThrownOther) JNull
  = ParseFailure "Unsupported specification version"
      (Some "Only OpenAPI 3.x and Swagger 2.0 are supported")
  /\ parseSpec (fun _ => Threw (ThrownError "Missing $ref pointer /x"))
       (fun _ => Returned swagger12_document) JNull
     = ParseFailure "Unsupported specification version"
         (Some "Only OpenAPI 3.x and Swagger 2.0 are supported").
Proof.
  split.
  - apply (parseSpec_unsupported_version _ _ JNull openapi4_document).
    + left. reflexivity.
    + split; [intros s H; injection H as <-; reflexivity | discriminate].
  - apply (parseSpec_unsupported_version _ _ JNull swagger12_document).
    + right. exists (ThrownError "Missing $ref pointer /x").
      repeat split; reflexivity.
    + split; [discriminate | discriminate].
Defined.

(* ================================================================== *)
(** ** The parser on a sample *)
(* ================================================================== *)

Example extractActions_item_paths :
  extractActionsOpenAPI3 item_paths = [get_item].
Proof. reflexivity. Qed.

Example generateSlug_samples :
  generateSlug "listPets" = "listpets"
  /\ generateSlug "get-/pets/{petId}" = "get-pets-petid"
  /\ generateSlug "--List Pets!! (v2)__" = "list-pets-v2".
Proof. repeat split. Qed.

Example toTitleCase_samples :
  toTitleCase "get-pets-petid" = "Get Pets Petid"
  /\ toTitleCase "pet_id" = "Pet Id"
  /\ toTitleCase "x9y z" = "X9y Z".
Proof. repeat split. Qed.

(* ================================================================== *)
(** ** Further properties of [diffSpecs] *)
(* ================================================================== *)

Lemma endpoint_removed_on a :
  change_method (endpoint_removed a) = Some (method_name (action_method a))
  /\ change_path (endpoint_removed a) = Some (action_path a).
Proof. split; reflexivity. Qed.

Lemma endpoint_added_on a :
  change_method (endpoint_added a) = Some (method_name (action_method a))
  /\ change_path (endpoint_added a) = Some (action_path a).
Proof. split; reflexivity. Qed.

Lemma on_endpoint_key a b c :
  action_key a = action_key b -> on_endpoint a c = on_endpoint b c.
Proof.
  intros H. apply action_key_inj in H. destruct H as [Hm Hp].
  unfold on_endpoint. rewrite Hm, Hp. reflexivity.
Qed.

(** Of the changes a loop pushes for the entries of a map, one per entry
    that passes the test, those on the endpoint of [a] come from the entry
    under the key of [a]. *)
Lemma entries_on_endpoint (mk : ParsedAction -> DiffChange)
    (test : string * ParsedAction -> bool) (m : JsMap ParsedAction)
    (a : ParsedAction) :
  (forall b, change_method (mk b) = Some (method_name (action_method b))
             /\ change_path (mk b) = Some (action_path b)) ->
  (forall k' a', In (k', a') m -> action_key a' = k') ->
  NoDup (map_keys m) ->
  filter (on_endpoint a) (map (fun e => mk (snd e)) (filter test m))
  = match map_get m (action_key a) with
    | Some a' => if test (action_key a, a') then [mk a'] else []
    | None => []
    end.
Proof.
  intros Hmk. unfold map_keys.
  induction m as [|[k0 a0] m IH]; simpl; intros Hent Hnd; [reflexivity|].
  inversion Hnd as [|? ? Hnotin Hnd']; subst.
  assert (Hk0 : action_key a0 = k0) by (apply Hent; left; reflexivity).
  assert (IH' := IH (fun k' a' H => Hent k' a' (or_intror H)) Hnd').
  destruct (String.eqb_spec k0 (action_key a)) as [He|Hne].
  - (* the entry of [a]: no later entry has its key *)
    assert (Hrest : filter (on_endpoint a)
                      (map (fun e => mk (snd e)) (filter test m)) = []).
    { rewrite IH'. rewrite <- He.
      destruct (map_get m k0) eqn:E; [|reflexivity].
      exfalso. apply Hnotin.
      destruct (in_dec string_dec k0 (map fst m)) as [Hin|Hn]; [exact Hin|].
      apply map_get_None in Hn. congruence. }
    rewrite <- He. destruct (test (k0, a0)); simpl; [|exact Hrest].
    rewrite Hrest.
    destruct (Hmk a0) as [Hm Hp].
    rewrite (on_endpoint_key a a0 (mk a0)) by congruence.
    rewrite (on_endpoint_same a0 _ Hm Hp). reflexivity.
  - destruct (test (k0, a0)); simpl; [|exact IH'].
    destruct (Hmk a0) as [Hm Hp].
    rewrite (on_endpoint_other a a0 _ Hm Hp) by congruence.
    exact IH'.
Qed.

Lemma category_filter_split (cat : string) (a : ParsedAction)
    (l : list DiffChange) :
  filter (fun c => has_category cat c && on_endpoint a c) l
  = filter (on_endpoint a) (filter (has_category cat) l).
Proof. rewrite filter_filter. reflexivity. Qed.

Lemma filter_category_same cat l :
  Forall (fun c => change_category c = cat) l ->
  filter (has_category cat) l = l.
Proof.
  intros H. apply filter_all. eapply Forall_impl; [|exact H].
  simpl. intros c Hc. unfold has_category. rewrite Hc. apply String.eqb_refl.
Qed.

Lemma filter_category_other cat l :
  Forall (fun c => change_category c <> cat) l ->
  filter (has_category cat) l = [].
Proof.
  intros H. apply filter_none. eapply Forall_impl; [|exact H].
  simpl. intros c Hc. unfold has_category.
  destruct (String.eqb_spec (change_category c) cat); congruence.
Qed.

Lemma modified_blocks_categories om nm :
  Forall (fun c => In (change_category c) sub_order)
    (flat_map (modified_block om) nm).
Proof.
  apply Forall_flat_map. apply Forall_forall. intros e _.
  unfold modified_block. destruct (map_get om (fst e)); [|constructor].
  eapply Forall_impl; [|apply compareEndpoints_members].
  simpl. intros c H. apply H.
Qed.

Lemma not_in_sub_order cat l :
  ~ In cat sub_order ->
  Forall (fun c => In (change_category c) sub_order) l ->
  filter (has_category cat) l = [].
Proof.
  intros Hn H. apply filter_category_other.
  eapply Forall_impl; [|exact H]. simpl. intros c Hc He. apply Hn.
  rewrite <- He. exact Hc.
Qed.

Lemma removed_only o n :
  filter (has_category "endpoint-removed") (changes (diffSpecs o n))
  = removed_changes (build_map o) (build_map n).
Proof.
  rewrite diffSpecs_changes, !filter_app.
  rewrite (filter_category_same _ _ (removed_changes_category _ _)).
  rewrite (filter_category_other _ (added_changes _ _)).
  2:{ eapply Forall_impl; [|apply added_changes_category].
      simpl. intros c ->. discriminate. }
  assert (Hn : ~ In "endpoint-removed" sub_order).
  { simpl. intros H. repeat (destruct H as [H|H]; [discriminate|]). exact H. }
  rewrite (not_in_sub_order _ _ Hn (modified_blocks_categories _ _)).
  rewrite ?app_nil_r. reflexivity.
Qed.

Lemma added_only o n :
  filter (has_category "endpoint-added") (changes (diffSpecs o n))
  = added_changes (build_map o) (build_map n).
Proof.
  rewrite diffSpecs_changes, !filter_app.
  rewrite (filter_category_same _ _ (added_changes_category _ _)).
  rewrite (filter_category_other _ (removed_changes _ _)).
  2:{ eapply Forall_impl; [|apply removed_changes_category].
      simpl. intros c ->. discriminate. }
  assert (Hn : ~ In "endpoint-added" sub_order).
  { simpl. intros H. repeat (destruct H as [H|H]; [discriminate|]). exact H. }
  rewrite (not_in_sub_order _ _ Hn (modified_blocks_categories _ _)).
  rewrite ?app_nil_r. reflexivity.
Qed.

Lemma map_has_find_last l k :
  map_has (build_map l) k = match find_last k l with Some _ => true | None => false end.
Proof. unfold map_has. rewrite build_map_get. reflexivity. Qed.

(** X1.  An endpoint of the old list gets exactly one endpoint-removed
    change when the new list has no action under its key, and none when it
    has one; and every endpoint-removed change stands for such an
    endpoint. *)
Theorem endpoint_removed_exactly_once
    (oldActions newActions : list ParsedAction) (k : string) (a : ParsedAction) :
  find_last k oldActions = Some a ->
  filter (fun c => has_category "endpoint-removed" c && on_endpoint a c)
    (changes (diffSpecs oldActions newActions))
  = match find_last k newActions with
    | None => [endpoint_removed a]
    | Some _ => []
    end
  /\ (forall c,
        In c (changes (diffSpecs oldActions newActions)) ->
        change_category c = "endpoint-removed" ->
        exists b,
          c = endpoint_removed b
          /\ find_last (action_key b) oldActions = Some b
          /\ find_last (action_key b) newActions = None).
Proof.
  intros Ha. pose proof (find_last_key _ _ _ Ha) as Hk.
  split.
  - rewrite category_filter_split, removed_only. unfold removed_changes.
    rewrite (entries_on_endpoint endpoint_removed _ _ a endpoint_removed_on
               (build_map_entry oldActions) (build_map_NoDup oldActions)).
    rewrite Hk, build_map_get, Ha. simpl. rewrite map_has_find_last.
    destruct (find_last k newActions); reflexivity.
  - intros c Hin Hcat.
    assert (Hc : In c (filter (has_category "endpoint-removed")
                         (changes (diffSpecs oldActions newActions)))).
    { apply filter_In. split; [exact Hin|]. unfold has_category.
      rewrite Hcat. reflexivity. }
    rewrite removed_only in Hc. unfold removed_changes in Hc.
    apply in_map_iff in Hc. destruct Hc as ([k' b] & <- & Hb).
    apply filter_In in Hb. destruct Hb as [Hb Hno]. simpl in *.
    exists b. split; [reflexivity|].
    pose proof (build_map_entry _ _ _ Hb) as Hkb. rewrite Hkb.
    rewrite <- build_map_get.
    split; [apply map_get_In; [apply build_map_NoDup | exact Hb]|].
    rewrite map_has_find_last in Hno.
    destruct (find_last k' newActions); [discriminate | reflexivity].
Qed.

Lemma endpoint_removed_exactly_once_witness :
  find_last "DELETE /pets/{petId}" petstore_v1 = Some delete_pet
  /\ filter (fun c => has_category "endpoint-removed" c
                      && on_endpoint delete_pet c)
       (changes (diffSpecs petstore_v1 petstore_v2))
     = [endpoint_removed delete_pet].
Proof.
  split; [reflexivity|].
  apply (endpoint_removed_exactly_once petstore_v1 petstore_v2
           "DELETE /pets/{petId}" delete_pet).
  reflexivity.
Defined.

(** X2.  An endpoint of the new list gets exactly one endpoint-added
    change when the old list has no action under its key, and none when it
    has one; and every endpoint-added change stands for such an
    endpoint. *)
Theorem endpoint_added_exactly_once
    (oldActions newActions : list ParsedAction) (k : string) (a : ParsedAction) :
  find_last k newActions = Some a ->
  filter (fun c => has_category "endpoint-added" c && on_endpoint a c)
    (changes (diffSpecs oldActions newActions))
  = match find_last k oldActions with
    | None => [endpoint_added a]
    | Some _ => []
    end
  /\ (forall c,
        In c (changes (diffSpecs oldActions newActions)) ->
        change_category c = "endpoint-added" ->
        exists b,
          c = endpoint_added b
          /\ find_last (action_key b) newActions = Some b
          /\ find_last (action_key b) oldActions = None).
Proof.
  intros Ha. pose proof (find_last_key _ _ _ Ha) as Hk.
  split.
  - rewrite category_filter_split, added_only. unfold added_changes.
    rewrite (entries_on_endpoint endpoint_added _ _ a endpoint_added_on
               (build_map_entry newActions) (build_map_NoDup newActions)).
    rewrite Hk, build_map_get, Ha. simpl. rewrite map_has_find_last.
    destruct (find_last k oldActions); reflexivity.
  - intros c Hin Hcat.
    assert (Hc : In c (filter (has_category "endpoint-added")
                         (changes (diffSpecs oldActions newActions)))).
    { apply filter_In. split; [exact Hin|]. unfold has_category.
      rewrite Hcat. reflexivity. }
    rewrite added_only in Hc. unfold added_changes in Hc.
    apply in_map_iff in Hc. destruct Hc as ([k' b] & <- & Hb).
    apply filter_In in Hb. destruct Hb as [Hb Hno]. simpl in *.
    exists b. split; [reflexivity|].
    pose proof (build_map_entry _ _ _ Hb) as Hkb. rewrite Hkb.
    rewrite <- build_map_get.
    split; [apply map_get_In; [apply build_map_NoDup | exact Hb]|].
    rewrite map_has_find_last in Hno.
    destruct (find_last k' oldActions); [discriminate | reflexivity].
Qed.

Lemma endpoint_added_exactly_once_witness :
  find_last "DELETE /pets/{petId}" petstore_v1 = Some delete_pet
  /\ filter (fun c => has_category "endpoint-added" c
                      && on_endpoint delete_pet c)
       (changes (diffSpecs petstore_v2 petstore_v1))
     = [endpoint_added delete_pet].
Proof.
  split; [reflexivity|].
  apply (endpoint_added_exactly_once petstore_v2 petstore_v1
           "DELETE /pets/{petId}" delete_pet).
  reflexivity.
Defined.

(** X3.  Swapping the two lists turns removals into additions: the
    endpoints reported removed from old to new are, one for one and in
    order, the endpoints reported added from new to old. *)
Theorem removed_is_added_in_reverse (oldActions newActions : list ParsedAction) :
  exists endpoints : list ParsedAction,
    filter (has_category "endpoint-removed")
      (changes (diffSpecs oldActions newActions))
    = map endpoint_removed endpoints
    /\ filter (has_category "endpoint-added")
         (changes (diffSpecs newActions oldActions))
       = map endpoint_added endpoints.
Proof.
  exists (map snd (filter (fun e => negb (map_has (build_map newActions) (fst e)))
                     (build_map oldActions))).
  rewrite removed_only, added_only. unfold removed_changes, added_changes.
  rewrite !map_map. split; reflexivity.
Qed.

(* ------------------------------------------------------------------ *)

Lemma type_of_category_groups oa na :
  Forall (fun c =>
            (In (change_category c) breaking_categories
             /\ change_type c = breaking)
            \/ (In (change_category c) non_breaking_categories
                /\ change_type c = non_breaking))
    (compareEndpoints oa na []).
Proof.
  rewrite compareEndpoints_groups. simpl.
  repeat (apply Forall_app; split);
    first [ apply Forall_map_const; intros x
          | apply description_group_Forall ];
    simpl; tauto.
Qed.

(** X4.  Every change [diffSpecs] returns carries a method and a path,
    its category is one of the nine of the README, and the category fixes
    the classification: breaking for endpoint-removed,
    required-param-added, param-removed, param-type-changed,
    required-body-field-added and response-field-removed, non-breaking for
    endpoint-added, optional-param-added and description-changed. *)
Theorem change_classified_by_category
    (oldActions newActions : list ParsedAction) :
  Forall (fun c =>
            ((In (change_category c) breaking_categories
              /\ change_type c = breaking)
             \/ (In (change_category c) non_breaking_categories
                 /\ change_type c = non_breaking))
            /\ change_method c <> None /\ change_path c <> None)
    (changes (diffSpecs oldActions newActions)).
Proof.
  rewrite diffSpecs_changes. repeat (apply Forall_app; split).
  - apply Forall_map_const. intros e. simpl.
    split; [left; tauto | split; discriminate].
  - apply Forall_map_const. intros e. simpl.
    split; [right; tauto | split; discriminate].
  - apply Forall_flat_map. apply Forall_forall. intros e _.
    unfold modified_block. destruct (map_get _ (fst e)) as [oa|]; [|constructor].
    pose proof (type_of_category_groups oa (snd e)) as H1.
    pose proof (compareEndpoints_members oa (snd e)) as H2.
    rewrite Forall_forall in *. intros c Hc.
    split; [apply (H1 c Hc)|].
    destruct (H2 c Hc) as (_ & -> & ->). split; discriminate.
Qed.

(* ------------------------------------------------------------------ *)

Lemma build_map_nil : build_map [] = [].
Proof. reflexivity. Qed.

Lemma tally_breaking_all l :
  Forall (fun c => change_type c = breaking) l ->
  tally breaking l = length l /\ tally non_breaking l = 0.
Proof.
  unfold tally. induction 1 as [|c l Hc _ [IH1 IH2]]; simpl; [auto|].
  rewrite Hc. simpl. auto.
Qed.

Lemma tally_non_breaking_all l :
  Forall (fun c => change_type c = non_breaking) l ->
  tally non_breaking l = length l /\ tally breaking l = 0.
Proof.
  unfold tally. induction 1 as [|c l Hc _ [IH1 IH2]]; simpl; [auto|].
  rewrite Hc. simpl. auto.
Qed.

Lemma diffSpecs_counts o n :
  breakingCount (diffSpecs o n) = tally breaking (changes (diffSpecs o n))
  /\ nonBreakingCount (diffSpecs o n)
     = tally non_breaking (changes (diffSpecs o n)).
Proof.
  unfold diffSpecs; simpl.
  split; [apply tally_filter_breaking | apply tally_filter_non_breaking].
Qed.

(** X5.  Against the empty list every endpoint is removed, or added:
    [diffSpecs A []] holds one endpoint-removed change per distinct
    (method, path) key of [A] and nothing else, all breaking;
    [diffSpecs [] B] holds one endpoint-added change per distinct key of
    [B] and nothing else, none breaking. *)
Theorem diffSpecs_against_empty (A B : list ParsedAction) :
  (changes (diffSpecs A [])
   = map (fun e => endpoint_removed (snd e)) (build_map A)
   /\ breakingCount (diffSpecs A []) = distinct_keys A
   /\ nonBreakingCount (diffSpecs A []) = 0)
  /\ (changes (diffSpecs [] B)
      = map (fun e => endpoint_added (snd e)) (build_map B)
      /\ breakingCount (diffSpecs [] B) = 0
      /\ nonBreakingCount (diffSpecs [] B) = distinct_keys B).
Proof.
  assert (HA : changes (diffSpecs A [])
               = map (fun e => endpoint_removed (snd e)) (build_map A)).
  { rewrite diffSpecs_changes, build_map_nil. simpl. rewrite app_nil_r.
    unfold removed_changes. rewrite filter_all; [reflexivity|].
    apply Forall_forall. intros e _. reflexivity. }
  assert (HB : changes (diffSpecs [] B)
               = map (fun e => endpoint_added (snd e)) (build_map B)).
  { rewrite diffSpecs_changes, build_map_nil. simpl.
    assert (Hblocks : forall m : JsMap ParsedAction,
               flat_map (modified_block []) m = []).
    { induction m as [|e m IH]; simpl; [reflexivity | exact IH]. }
    rewrite Hblocks, app_nil_r.
    unfold added_changes. rewrite filter_all; [reflexivity|].
    apply Forall_forall. intros e _. reflexivity. }
  assert (Hlen : forall (l : list ParsedAction) (mk : ParsedAction -> DiffChange),
             length (map (fun e => mk (snd e)) (build_map l)) = distinct_keys l).
  { intros l mk. unfold distinct_keys. rewrite <- build_map_keys.
    unfold map_keys. rewrite !length_map. reflexivity. }
  destruct (diffSpecs_counts A []) as [HbA HnA].
  destruct (diffSpecs_counts [] B) as [HbB HnB].
  split; (split; [assumption|]).
  - rewrite HbA, HnA, HA.
    destruct (tally_breaking_all
                (map (fun e => endpoint_removed (snd e)) (build_map A)))
      as [-> ->]; [apply Forall_map_const; reflexivity|].
    split; [apply Hlen | reflexivity].
  - rewrite HbB, HnB, HB.
    destruct (tally_non_breaking_all
                (map (fun e => endpoint_added (snd e)) (build_map B)))
      as [-> ->]; [apply Forall_map_const; reflexivity|].
    split; [reflexivity | apply Hlen].
Qed.

(* ------------------------------------------------------------------ *)

Lemma other_entries_off (om : JsMap ParsedAction) a m :
  (forall k' a', In (k', a') m -> action_key a' = k') ->
  ~ In (action_key a) (map_keys m) ->
  filter (on_endpoint a) (flat_map (modified_block om) m) = [].
Proof.
  intros Hk Hnot.
  apply (other_entries_filtered (fun _ => true) om a m Hk Hnot).
Qed.

(** The changes on an endpoint both lists have are the comparison of the
    two actions the maps hold for it. *)
Lemma changes_on_common_endpoint o n k oa na :
  find_last k o = Some oa ->
  find_last k n = Some na ->
  filter (on_endpoint na) (changes (diffSpecs o n)) = compareEndpoints oa na [].
Proof.
  intros Ho Hn.
  pose proof (find_last_key _ _ _ Ho) as Hko.
  pose proof (find_last_key _ _ _ Hn) as Hkn.
  rewrite diffSpecs_changes, !filter_app.
  unfold removed_changes, added_changes.
  rewrite (entries_on_endpoint endpoint_removed _ _ na endpoint_removed_on
             (build_map_entry o) (build_map_NoDup o)).
  rewrite (entries_on_endpoint endpoint_added _ _ na endpoint_added_on
             (build_map_entry n) (build_map_NoDup n)).
  rewrite Hkn, !build_map_get, Ho, Hn. simpl.
  rewrite !map_has_find_last, Ho, Hn. simpl.
  rewrite <- build_map_get in Ho, Hn.
  pose proof (build_map_NoDup n) as Hnd.
  pose proof (build_map_entry n) as Hent.
  destruct (map_get_split _ _ _ Hn) as (m1 & m2 & Hsplit & Hm1).
  rewrite Hsplit in Hnd, Hent |- *.
  unfold map_keys in Hnd. rewrite map_app in Hnd. simpl in Hnd.
  apply NoDup_remove_2 in Hnd.
  rewrite flat_map_app, filter_app. simpl. rewrite filter_app.
  rewrite (other_entries_off _ na m1).
  2:{ intros k' a' Hin. apply Hent. apply in_or_app. left. exact Hin. }
  2:{ rewrite Hkn. exact Hm1. }
  rewrite (other_entries_off _ na m2).
  2:{ intros k' a' Hin. apply Hent. apply in_or_app. right. right. exact Hin. }
  2:{ rewrite Hkn. intros Hin. apply Hnd. apply in_or_app. right. exact Hin. }
  unfold modified_block. simpl. rewrite Ho, app_nil_r. simpl.
  apply filter_all.
  eapply Forall_impl; [|apply compareEndpoints_members].
  simpl. intros c (_ & Hm & Hp). apply (on_endpoint_same na c Hm Hp).
Qed.

Lemma concat_filter_category i cat (gs : list (list DiffChange)) g :
  (forall j h, nth_error gs j = Some h ->
               Forall (fun c => nth_error sub_order j = Some (change_category c)) h) ->
  NoDup sub_order ->
  nth_error sub_order i = Some cat ->
  nth_error gs i = Some g ->
  filter (has_category cat) (concat gs) = g.
Proof.
  intros Hgs Hnd Hcat Hg.
  assert (Hgen : forall (base : nat) (l : list (list DiffChange)),
            (forall j h, nth_error l j = Some h ->
               Forall (fun c => nth_error sub_order (base + j)
                                = Some (change_category c)) h) ->
            filter (has_category cat) (concat l)
            = match (if (base <=? i)%nat then nth_error l (i - base) else None) with
              | Some h => h
              | None => []
              end).
  { intros base l. revert base.
    induction l as [|h l IH]; intros base Hl; cbn [concat].
    - destruct (base <=? i)%nat; [destruct (i - base)|]; reflexivity.
    - rewrite filter_app.
      rewrite (IH (S base)).
      2:{ intros j h' Hj. specialize (Hl (S j) h' Hj).
          rewrite Nat.add_succ_r in Hl. exact Hl. }
      pose proof (Hl 0 h eq_refl) as Hh. rewrite Nat.add_0_r in Hh.
      destruct (Nat.eq_dec base i) as [->|Hne].
      + replace (S i <=? i)%nat with false
          by (symmetry; apply Nat.leb_gt; lia).
        rewrite Nat.leb_refl, Nat.sub_diag. cbn [nth_error].
        rewrite app_nil_r. apply filter_category_same.
        eapply Forall_impl; [|exact Hh]. simpl. intros c Hc. congruence.
      + rewrite (filter_category_other cat h).
        2:{ eapply Forall_impl; [|exact Hh]. simpl. intros c Hc He.
            apply Hne. rewrite <- He in Hcat.
            apply (proj1 (NoDup_nth_error sub_order) Hnd base i).
            - apply nth_error_Some. rewrite Hc. discriminate.
            - congruence. }
        cbn [app]. destruct (base <=? i)%nat eqn:Hle.
        * apply Nat.leb_le in Hle.
          replace (S base <=? i)%nat with true
            by (symmetry; apply Nat.leb_le; lia).
          replace (i - base) with (S (i - S base)) by lia. reflexivity.
        * apply Nat.leb_gt in Hle.
          replace (S base <=? i)%nat with false
            by (symmetry; apply Nat.leb_gt; lia).
          reflexivity. }
  rewrite (Hgen 0 gs).
  - simpl. rewrite Nat.sub_0_r, Hg. reflexivity.
  - intros j h Hj. simpl. apply (Hgs j h Hj).
Qed.

Lemma sub_order_NoDup : NoDup sub_order.
Proof.
  unfold sub_order.
  repeat (constructor;
          [simpl; intros H;
           repeat (destruct H as [H|H]; [discriminate|]); exact H|]).
  constructor.
Qed.

(** On an endpoint both lists have, the changes of the [i]-th category
    are the [i]-th group of the comparison. *)
Lemma common_endpoint_group i cat o n k oa na g :
  find_last k o = Some oa ->
  find_last k n = Some na ->
  nth_error sub_order i = Some cat ->
  nth_error (comparison_groups oa na) i = Some g ->
  filter (fun c => has_category cat c && on_endpoint na c)
    (changes (diffSpecs o n)) = g.
Proof.
  intros Ho Hn Hcat Hg.
  assert (Hswap :
    filter (fun c => has_category cat c && on_endpoint na c)
      (changes (diffSpecs o n))
    = filter (has_category cat)
        (filter (on_endpoint na) (changes (diffSpecs o n)))).
  { rewrite filter_filter. apply filter_ext. intros c. apply andb_comm. }
  rewrite Hswap, (changes_on_common_endpoint o n k oa na Ho Hn).
  rewrite compareEndpoints_concat.
  apply (concat_filter_category i cat _ g); try assumption.
  - intros j h Hj. eapply Forall_impl;
      [|apply (comparison_groups_spec _ _ _ _ Hj)].
    simpl. intros c H. apply H.
  - apply sub_order_NoDup.
Qed.

Lemma changes_on_old_endpoint o n k oa :
  find_last k o = Some oa ->
  find_last k n = None ->
  filter (on_endpoint oa) (changes (diffSpecs o n)) = [endpoint_removed oa].
Proof.
  intros Ho Hn. pose proof (find_last_key _ _ _ Ho) as Hko.
  rewrite diffSpecs_changes, !filter_app.
  unfold removed_changes, added_changes.
  rewrite (entries_on_endpoint endpoint_removed _ _ oa endpoint_removed_on
             (build_map_entry o) (build_map_NoDup o)).
  rewrite (entries_on_endpoint endpoint_added _ _ oa endpoint_added_on
             (build_map_entry n) (build_map_NoDup n)).
  rewrite Hko, !build_map_get, Ho, Hn. simpl.
  rewrite map_has_find_last, Hn. simpl.
  rewrite (other_entries_off _ oa (build_map n) (build_map_entry n)).
  - reflexivity.
  - rewrite Hko. apply map_get_None. rewrite build_map_get. exact Hn.
Qed.

Lemma changes_on_new_endpoint o n k na :
  find_last k o = None ->
  find_last k n = Some na ->
  filter (on_endpoint na) (changes (diffSpecs o n)) = [endpoint_added na].
Proof.
  intros Ho Hn. pose proof (find_last_key _ _ _ Hn) as Hkn.
  rewrite diffSpecs_changes, !filter_app.
  unfold removed_changes, added_changes.
  rewrite (entries_on_endpoint endpoint_removed _ _ na endpoint_removed_on
             (build_map_entry o) (build_map_NoDup o)).
  rewrite (entries_on_endpoint endpoint_added _ _ na endpoint_added_on
             (build_map_entry n) (build_map_NoDup n)).
  rewrite Hkn, !build_map_get, Ho, Hn. simpl.
  rewrite map_has_find_last, Ho. simpl.
  rewrite <- build_map_get in Hn.
  pose proof (build_map_NoDup n) as Hnd.
  pose proof (build_map_entry n) as Hent.
  destruct (map_get_split _ _ _ Hn) as (m1 & m2 & Hsplit & Hm1).
  rewrite Hsplit in Hnd, Hent |- *.
  unfold map_keys in Hnd. rewrite map_app in Hnd. simpl in Hnd.
  apply NoDup_remove_2 in Hnd.
  rewrite flat_map_app, filter_app. simpl. rewrite filter_app.
  rewrite (other_entries_off _ na m1).
  2:{ intros k' a' Hin. apply Hent. apply in_or_app. left. exact Hin. }
  2:{ rewrite Hkn. exact Hm1. }
  rewrite (other_entries_off _ na m2).
  2:{ intros k' a' Hin. apply Hent. apply in_or_app. right. right. exact Hin. }
  2:{ rewrite Hkn. intros Hin. apply Hnd. apply in_or_app. right. exact Hin. }
  unfold modified_block. simpl. rewrite build_map_get, Ho. reflexivity.
Qed.

(** X6.  The changes that carry the method and the path of an endpoint
    are settled by the last action each list holds under its key: the
    comparison of the two when both lists have one, the single
    endpoint-removed change when only the old list has one, the single
    endpoint-added change when only the new list has one.  What the lists
    hold under other keys plays no part. *)
Theorem changes_per_endpoint
    (oldActions newActions : list ParsedAction) (k : string) :
  (forall oa na,
      find_last k oldActions = Some oa ->
      find_last k newActions = Some na ->
      filter (on_endpoint na) (changes (diffSpecs oldActions newActions))
      = compareEndpoints oa na [])
  /\ (forall oa,
        find_last k oldActions = Some oa ->
        find_last k newActions = None ->
        filter (on_endpoint oa) (changes (diffSpecs oldActions newActions))
        = [endpoint_removed oa])
  /\ (forall na,
        find_last k oldActions = None ->
        find_last k newActions = Some na ->
        filter (on_endpoint na) (changes (diffSpecs oldActions newActions))
        = [endpoint_added na]).
Proof.
  split; [|split].
  - intros oa na. apply changes_on_common_endpoint.
  - intros oa. apply changes_on_old_endpoint.
  - intros na. apply changes_on_new_endpoint.
Qed.

Lemma changes_per_endpoint_witness :
  filter (on_endpoint create_order_v2) (changes (diffSpecs orders_v1 orders_v2))
  = compareEndpoints create_order_v1 create_order_v2 []
  /\ filter (on_endpoint delete_pet) (changes (diffSpecs orders_v1 orders_v2))
     = [endpoint_removed delete_pet]
  /\ filter (on_endpoint list_pets_v2) (changes (diffSpecs orders_v1 orders_v2))
     = [endpoint_added list_pets_v2].
Proof.
  split; [|split].
  - apply (proj1 (changes_per_endpoint orders_v1 orders_v2 "POST /orders"));
      reflexivity.
  - apply (proj1 (proj2 (changes_per_endpoint orders_v1 orders_v2
                           "DELETE /pets/{petId}"))); reflexivity.
  - apply (proj2 (proj2 (changes_per_endpoint orders_v1 orders_v2 "GET /pets")));
      reflexivity.
Defined.

(** X7.  A description-changed change is reported on a common endpoint
    exactly when the two descriptions differ and neither is empty; giving
    a description to an endpoint that had none, or dropping it, is not
    reported. *)
Theorem description_change_rule
    (oldActions newActions : list ParsedAction) (k : string)
    (oa na : ParsedAction) :
  find_last k oldActions = Some oa ->
  find_last k newActions = Some na ->
  filter (fun c => has_category "description-changed" c && on_endpoint na c)
    (changes (diffSpecs oldActions newActions))
  = (if negb (action_description oa =? action_description na)%string
        && str_truthy (action_description oa)
        && str_truthy (action_description na)
     then [description_changed na] else [])
  /\ (action_description oa = EmptyString \/ action_description na = EmptyString ->
      filter (fun c => has_category "description-changed" c
                       && on_endpoint na c)
        (changes (diffSpecs oldActions newActions)) = []).
Proof.
  intros Ho Hn.
  assert (H := common_endpoint_group 6 "description-changed" _ _ _ _ _ _
                 Ho Hn eq_refl eq_refl).
  split; [exact H|].
  rewrite H. unfold description_changed_group, description_differs.
  intros [-> | ->]; cbn [str_truthy].
  - rewrite andb_false_r. reflexivity.
  - rewrite andb_false_r. reflexivity.
Qed.

Lemma description_change_rule_witness :
  filter (fun c => has_category "description-changed" c
                   && on_endpoint create_order_v2 c)
    (changes (diffSpecs orders_v1 orders_v2))
  = [description_changed create_order_v2].
Proof.
  apply (description_change_rule orders_v1 orders_v2 "POST /orders"
           create_order_v1 create_order_v2); reflexivity.
Defined.

(** X8.  Request and response bodies are compared by the keys of their
    top-level fields.  On a common endpoint the required-body-field-added
    changes are the required body fields of the new action whose key no
    body field of the old action has, so a field that was optional and
    became required is not reported; the response-field-removed changes
    are the response fields of the old action whose key no response field
    of the new action has. *)
Theorem body_and_response_by_key
    (oldActions newActions : list ParsedAction) (k : string)
    (oa na : ParsedAction) :
  find_last k oldActions = Some oa ->
  find_last k newActions = Some na ->
  filter (fun c => has_category "required-body-field-added" c
                   && on_endpoint na c)
    (changes (diffSpecs oldActions newActions))
  = map (required_body_field_added na)
      (filter (fun f => field_required f
                        && negb (existsb (String.eqb (field_key f))
                                   (map field_key (action_bodySchema oa))))
         (action_bodySchema na))
  /\ filter (fun c => has_category "response-field-removed" c
                      && on_endpoint na c)
       (changes (diffSpecs oldActions newActions))
     = map (response_field_removed na)
         (filter (fun f => negb (existsb (String.eqb (field_key f))
                                   (map field_key (action_responseSchema na))))
            (action_responseSchema oa)).
Proof.
  intros Ho Hn. split.
  - rewrite (common_endpoint_group 4 "required-body-field-added" _ _ _ _ _ _
               Ho Hn eq_refl eq_refl).
    unfold required_body_field_added_group, oldBodyKeys. f_equal.
    apply filter_ext. intros f. rewrite new_Set_has. reflexivity.
  - rewrite (common_endpoint_group 5 "response-field-removed" _ _ _ _ _ _
               Ho Hn eq_refl eq_refl).
    unfold response_field_removed_group, newResponseKeys. f_equal.
    apply filter_ext. intros f. rewrite new_Set_has. reflexivity.
Qed.

Lemma body_and_response_by_key_witness :
  filter (fun c => has_category "required-body-field-added" c
                   && on_endpoint create_order_v2 c)
    (changes (diffSpecs orders_v1 orders_v2))
  = [required_body_field_added create_order_v2
       (sample_field "address" TString true)]
  /\ filter (fun c => has_category "response-field-removed" c
                      && on_endpoint create_order_v2 c)
       (changes (diffSpecs orders_v1 orders_v2))
     = [response_field_removed create_order_v2
          (sample_field "eta" TString false)].
Proof.
  apply (body_and_response_by_key orders_v1 orders_v2 "POST /orders"
           create_order_v1 create_order_v2); reflexivity.
Defined.

(** X9.  Parameters are told apart by key alone, query and path
    together.  On a common endpoint there is one param-removed change per
    distinct key that a parameter of the old action has and no parameter
    of the new action has; a parameter that moves between query and path
    under its key is not reported as removed. *)
Theorem param_removed_once_per_key
    (oldActions newActions : list ParsedAction) (k : string)
    (oa na : ParsedAction) :
  find_last k oldActions = Some oa ->
  find_last k newActions = Some na ->
  exists keys : list string,
    filter (fun c => has_category "param-removed" c && on_endpoint na c)
      (changes (diffSpecs oldActions newActions))
    = map (param_removed na) keys
    /\ NoDup keys
    /\ (forall key, In key keys <->
                    In key (param_keys oa) /\ ~ In key (param_keys na)).
Proof.
  intros Ho Hn.
  exists (filter (fun key => negb (set_has (newAllParams na) key))
            (oldAllParams oa)).
  split; [|split].
  - apply (common_endpoint_group 2 "param-removed" _ _ _ _ _ _
             Ho Hn eq_refl eq_refl).
  - apply NoDup_filter. apply new_Set_NoDup.
  - intros key. rewrite filter_In. unfold oldAllParams, newAllParams.
    rewrite new_Set_In, negb_true_iff, set_has_false, new_Set_In.
    reflexivity.
Qed.

Lemma param_removed_once_per_key_witness :
  exists keys : list string,
    filter (fun c => has_category "param-removed" c
                     && on_endpoint create_order_v2 c)
      (changes (diffSpecs orders_v1 orders_v2))
    = map (param_removed create_order_v2) keys
    /\ NoDup keys
    /\ (forall key, In key keys <->
                    In key (param_keys create_order_v1)
                    /\ ~ In key (param_keys create_order_v2)).
Proof.
  apply (param_removed_once_per_key orders_v1 orders_v2 "POST /orders"
           create_order_v1 create_order_v2); reflexivity.
Defined.

(** X10.  On a common endpoint the optional-param-added changes are, one
    for one and in order, the parameters of the new action (query, then
    path) that are not required and whose key no parameter of the old
    action has, required or not.  A parameter that was required and is
    now optional is therefore not reported. *)
Theorem optional_param_added_exactly
    (oldActions newActions : list ParsedAction) (k : string)
    (oa na : ParsedAction) :
  find_last k oldActions = Some oa ->
  find_last k newActions = Some na ->
  filter (fun c => has_category "optional-param-added" c && on_endpoint na c)
    (changes (diffSpecs oldActions newActions))
  = map (optional_param_added na)
      (filter (fun p => negb (field_required p)
                        && negb (existsb (String.eqb (field_key p))
                                   (param_keys oa)))
         (all_params na)).
Proof.
  intros Ho Hn.
  rewrite (common_endpoint_group 1 "optional-param-added" _ _ _ _ _ _
             Ho Hn eq_refl eq_refl).
  unfold optional_param_added_group, newOptionalParams, oldAllParams, param_keys.
  rewrite filter_filter. f_equal. apply filter_ext. intros p.
  rewrite new_Set_has. reflexivity.
Qed.

Lemma optional_param_added_exactly_witness :
  filter (fun c => has_category "optional-param-added" c
                   && on_endpoint create_order_v2 c)
    (changes (diffSpecs orders_v1 orders_v2))
  = [optional_param_added create_order_v2 (sample_field "coupon" TString false)].
Proof.
  apply (optional_param_added_exactly orders_v1 orders_v2 "POST /orders"
           create_order_v1 create_order_v2); reflexivity.
Defined.

Lemma type_differs_retyped oa p : type_differs oa p = retyped oa p.
Proof.
  unfold type_differs, retyped.
  change (oldParamMap oa) with (keyed field_key (all_params oa)).
  rewrite keyed_get. reflexivity.
Qed.

(** X11.  On a common endpoint the param-type-changed changes are, one
    for one and in order, the parameters of the new action whose type
    differs from the type of the last parameter of the old action (query,
    then path) that has the same key.  A parameter whose key the old
    action does not have is never reported as retyped. *)
Theorem param_type_changed_exactly
    (oldActions newActions : list ParsedAction) (k : string)
    (oa na : ParsedAction) :
  find_last k oldActions = Some oa ->
  find_last k newActions = Some na ->
  filter (fun c => has_category "param-type-changed" c && on_endpoint na c)
    (changes (diffSpecs oldActions newActions))
  = map (param_type_changed oa na) (filter (retyped oa) (all_params na))
  /\ (forall p, ~ In (field_key p) (param_keys oa) -> retyped oa p = false).
Proof.
  intros Ho Hn. split.
  - rewrite (common_endpoint_group 3 "param-type-changed" _ _ _ _ _ _
               Ho Hn eq_refl eq_refl).
    unfold param_type_changed_group. f_equal.
    apply filter_ext. intros p. apply type_differs_retyped.
  - intros p Hp. unfold retyped.
    destruct (last_with field_key (field_key p) (all_params oa)) as [old|] eqn:E;
      [|reflexivity].
    exfalso. apply Hp. unfold param_keys.
    rewrite <- (last_with_key _ _ _ _ E). apply in_map.
    apply (last_with_In _ _ _ _ E).
Qed.

Lemma param_type_changed_exactly_witness :
  filter (fun c => has_category "param-type-changed" c
                   && on_endpoint create_order_v2 c)
    (changes (diffSpecs orders_v1 orders_v2))
  = [param_type_changed create_order_v1 create_order_v2
       (sample_field "limit" TString false)].
Proof.
  apply (param_type_changed_exactly orders_v1 orders_v2 "POST /orders"
           create_order_v1 create_order_v2); reflexivity.
Defined.

(* ------------------------------------------------------------------ *)

Lemma filter_map_comm {A B : Type} (p : B -> bool) (g : A -> B) (l : list A) :
  filter p (map g l) = map g (filter (fun x => p (g x)) l).
Proof.
  induction l as [|x l IH]; simpl; [reflexivity|].
  destruct (p (g x)); simpl; rewrite IH; reflexivity.
Qed.

Section MapValues.
Context {A : Type} (f : A -> A).

Lemma map_set_on_value (m : JsMap A) k v :
  map_set (map (on_value f) m) k (f v) = map (on_value f) (map_set m k v).
Proof.
  induction m as [|[k0 v0] m IH]; simpl; [reflexivity|].
  destruct (k0 =? k)%string; simpl; [reflexivity|].
  rewrite IH. reflexivity.
Qed.

Lemma map_get_on_value (m : JsMap A) k :
  map_get (map (on_value f) m) k = option_map f (map_get m k).
Proof.
  induction m as [|[k0 v0] m IH]; simpl; [reflexivity|].
  destruct (k0 =? k)%string; [reflexivity | exact IH].
Qed.

Lemma map_has_on_value (m : JsMap A) k :
  map_has (map (on_value f) m) k = map_has m k.
Proof.
  unfold map_has. rewrite map_get_on_value.
  destruct (map_get m k); reflexivity.
Qed.

Lemma keyed_on_value (key : A -> string) (l : list A) :
  (forall a, key (f a) = key a) ->
  keyed key (map f l) = map (on_value f) (keyed key l).
Proof.
  intros Hkey. unfold keyed.
  assert (H : forall m,
            fold_left (fun m a => map_set m (key a) a) (map f l)
              (map (on_value f) m)
            = map (on_value f)
                (fold_left (fun m a => map_set m (key a) a) l m)).
  { induction l as [|a l IH]; intros m; simpl; [reflexivity|].
    rewrite Hkey, map_set_on_value. apply IH. }
  apply (H []).
Qed.
End MapValues.

Lemma all_params_erase a :
  all_params (erase_action a) = map erase_field (all_params a).
Proof. unfold all_params. simpl. apply app_nil_r. Qed.

Lemma keys_erase (l : list ParsedField) :
  map field_key (map erase_field l) = map field_key l.
Proof. rewrite map_map. reflexivity. Qed.

Lemma oldParamMap_erase oa :
  oldParamMap (erase_action oa) = map (on_value erase_field) (oldParamMap oa).
Proof.
  unfold oldParamMap. rewrite all_params_erase.
  apply (keyed_on_value erase_field field_key). reflexivity.
Qed.

Lemma type_differs_erase oa p :
  type_differs (erase_action oa) (erase_field p) = type_differs oa p.
Proof.
  unfold type_differs. rewrite oldParamMap_erase, map_get_on_value.
  simpl. destruct (map_get (oldParamMap oa) (field_key p)); reflexivity.
Qed.

Lemma param_type_changed_erase oa na p :
  param_type_changed (erase_action oa) (erase_action na) (erase_field p)
  = param_type_changed oa na p.
Proof.
  unfold param_type_changed. rewrite oldParamMap_erase, map_get_on_value.
  simpl. destruct (map_get (oldParamMap oa) (field_key p)); reflexivity.
Qed.

Lemma compareEndpoints_erase oa na :
  compareEndpoints (erase_action oa) (erase_action na) []
  = compareEndpoints oa na [].
Proof.
  rewrite !compareEndpoints_groups. simpl.
  assert (H1 : required_param_added_group (erase_action oa) (erase_action na)
               = required_param_added_group oa na).
  { unfold required_param_added_group, newRequiredParams, oldRequiredParams.
    rewrite !all_params_erase, !filter_map_comm, keys_erase, map_map.
    reflexivity. }
  assert (H2 : optional_param_added_group (erase_action oa) (erase_action na)
               = optional_param_added_group oa na).
  { unfold optional_param_added_group, newOptionalParams, oldAllParams.
    rewrite !all_params_erase, !filter_map_comm, keys_erase, map_map.
    reflexivity. }
  assert (H3 : param_removed_group (erase_action oa) (erase_action na)
               = param_removed_group oa na).
  { unfold param_removed_group, newAllParams, oldAllParams.
    rewrite !all_params_erase, !keys_erase. reflexivity. }
  assert (H4 : param_type_changed_group (erase_action oa) (erase_action na)
               = param_type_changed_group oa na).
  { unfold param_type_changed_group.
    rewrite all_params_erase, filter_map_comm, map_map.
    rewrite (filter_ext _ _ (type_differs_erase oa)).
    apply List.map_ext. intros p. apply param_type_changed_erase. }
  assert (H5 : required_body_field_added_group (erase_action oa) (erase_action na)
               = required_body_field_added_group oa na).
  { unfold required_body_field_added_group, oldBodyKeys. simpl.
    rewrite filter_map_comm, keys_erase, map_map. reflexivity. }
  assert (H6 : response_field_removed_group (erase_action oa) (erase_action na)
               = response_field_removed_group oa na).
  { unfold response_field_removed_group, newResponseKeys. simpl.
    rewrite filter_map_comm, keys_erase, map_map. reflexivity. }
  rewrite H1, H2, H3, H4, H5, H6. reflexivity.
Qed.

Lemma build_map_erase l :
  build_map (map erase_action l) = map (on_value erase_action) (build_map l).
Proof. apply (keyed_on_value erase_action action_key). reflexivity. Qed.

Lemma diffSpecs_from_changes o n o' n' :
  changes (diffSpecs o n) = changes (diffSpecs o' n') ->
  diffSpecs o n = diffSpecs o' n'.
Proof.
  intros H.
  assert (E : forall a b,
            diffSpecs a b
            = mkDiffResult (changes (diffSpecs a b))
                (length (filter (fun c => is_breaking (change_type c))
                           (changes (diffSpecs a b))))
                (length (filter (fun c => is_non_breaking (change_type c))
                           (changes (diffSpecs a b)))))
    by reflexivity.
  rewrite (E o n), (E o' n'), H. reflexivity.
Qed.

(** X12.  [diffSpecs] looks at nothing but the method, path and
    description of an action, the key, type and required flag of its
    parameters, the key and required flag of its body fields and the key
    of its response fields: erasing everything else (slug, label, tags,
    deprecation flag, the split of the parameters into query and path,
    and of every field its label, enum, description, format, default,
    example and nested properties and items) from both lists leaves the
    result unchanged. *)
Theorem diffSpecs_ignores_erased (oldActions newActions : list ParsedAction) :
  diffSpecs (map erase_action oldActions) (map erase_action newActions)
  = diffSpecs oldActions newActions.
Proof.
  apply diffSpecs_from_changes.
  rewrite !diffSpecs_changes, !build_map_erase.
  set (om := build_map oldActions). set (nm := build_map newActions).
  f_equal; [|f_equal].
  - unfold removed_changes. rewrite filter_map_comm, map_map.
    f_equal. apply filter_ext. intros e. simpl.
    rewrite map_has_on_value. reflexivity.
  - unfold added_changes. rewrite filter_map_comm, map_map.
    f_equal. apply filter_ext. intros e. simpl.
    rewrite map_has_on_value. reflexivity.
  - rewrite flat_map_concat_map, map_map, <- flat_map_concat_map.
    apply flat_map_ext. intros e. unfold modified_block. simpl.
    rewrite map_get_on_value. destruct (map_get om (fst e)); simpl;
      [apply compareEndpoints_erase | reflexivity].
Qed.

Example erase_changes_the_lists :
  map erase_action orders_v1 <> orders_v1.
Proof. discriminate. Qed.

(* ================================================================== *)
(** ** Further properties of the parser: slugs and labels *)
(* ================================================================== *)

Lemma hyphen_not_slug_char c : is_hyphen c = true -> is_slug_char c = false.
Proof.
  unfold is_hyphen. intros H. apply Ascii.eqb_eq in H. subst c. reflexivity.
Qed.

Lemma slug_char_not_hyphen c : is_slug_char c = true -> is_hyphen c = false.
Proof.
  intros H. destruct (is_hyphen c) eqn:E; [|reflexivity].
  rewrite (hyphen_not_slug_char c E) in H. discriminate.
Qed.

Lemma collapse_runs_collapsed s :
  forall in_run,
    collapsed (collapse_runs in_run s) = true
    /\ (in_run = true -> starts_with_hyphen (collapse_runs in_run s) = false).
Proof.
  induction s as [|c s IH]; intros in_run; simpl.
  - split; reflexivity.
  - destruct (is_slug_char c) eqn:Hc.
    + destruct (IH false) as [IH1 _]. simpl.
      rewrite (slug_char_not_hyphen c Hc), Hc, IH1. split; reflexivity.
    + destruct in_run.
      * apply IH.
      * destruct (IH true) as [IH1 IH2]. simpl.
        rewrite (IH2 eq_refl), IH1. split; [reflexivity | discriminate].
Qed.

Lemma strip_leading_collapsed s :
  collapsed s = true ->
  collapsed (strip_leading_hyphens s) = true
  /\ starts_with_hyphen (strip_leading_hyphens s) = false.
Proof.
  induction s as [|c s IH]; simpl; intros H; [split; reflexivity|].
  apply andb_true_iff in H. destruct H as [Hc Hs].
  fold (is_hyphen c).
  destruct (is_hyphen c) eqn:E.
  - apply IH. exact Hs.
  - simpl. rewrite E, Hc, Hs. split; reflexivity.
Qed.

Lemma strip_trailing_head s c r :
  strip_trailing_hyphens s = String c r -> exists s', s = String c s'.
Proof.
  destruct s as [|c0 s]; simpl; [discriminate|].
  destruct (strip_trailing_hyphens s).
  - destruct (Ascii.eqb c0 "-"); [discriminate|].
    intros H. injection H as <- _. exists s. reflexivity.
  - intros H. injection H as <- _. exists s. reflexivity.
Qed.

Lemma strip_trailing_inside s :
  collapsed s = true ->
  hyphens_inside (strip_trailing_hyphens s) = true
  /\ starts_with_hyphen (strip_trailing_hyphens s) = starts_with_hyphen s
     && negb (match strip_trailing_hyphens s with
              | EmptyString => true
              | _ => false
              end).
Proof.
  induction s as [|c s IH]; simpl; intros H; [split; reflexivity|].
  apply andb_true_iff in H. destruct H as [Hc Hs].
  destruct (IH Hs) as [IH1 IH2]. fold (is_hyphen c).
  destruct (strip_trailing_hyphens s) as [|c' r] eqn:E.
  - destruct (is_hyphen c) eqn:Hh; simpl.
    + split; reflexivity.
    + rewrite Hh, Hc. split; reflexivity.
  - destruct (strip_trailing_head _ _ _ E) as [s' ->].
    cbn [hyphens_inside starts_with_hyphen]. rewrite andb_true_r.
    split; [|reflexivity].
    simpl in Hc. destruct (is_hyphen c); rewrite Hc; exact IH1.
Qed.

Lemma generateSlug_slug_shaped (input : string) :
  slug_shaped (generateSlug input) = true.
Proof.
  unfold generateSlug, slug_shaped.
  destruct (collapse_runs_collapsed (string_map char_toLowerCase input) false)
    as [Hc _].
  destruct (strip_leading_collapsed _ Hc) as [Hl Hs].
  destruct (strip_trailing_inside _ Hl) as [Hi Hh].
  rewrite Hi, Hh, Hs. reflexivity.
Qed.

(** X13.  A slug is made of groups of lower-case letters and digits
    joined by single hyphens: whatever the input, [generateSlug] returns
    a string over [a-z0-9-] that neither starts nor ends with a hyphen
    and has no two hyphens in a row. *)
Theorem generateSlug_shape (input : string) :
  slug_shaped (generateSlug input) = true.
Proof. apply generateSlug_slug_shaped. Qed.

Lemma slug_char_lower c :
  is_slug_char c = true -> char_toLowerCase c = c.
Proof.
  unfold is_slug_char, char_toLowerCase, is_upper, is_lower, is_digit.
  intros H. destruct ((65 <=? nat_of_ascii c)%nat && (nat_of_ascii c <=? 90)%nat) eqn:E;
    [|reflexivity].
  exfalso. apply andb_true_iff in E. destruct E as [E1 E2].
  apply Nat.leb_le in E1, E2.
  apply orb_true_iff in H. destruct H as [H|H];
    apply andb_true_iff in H; destruct H as [H1 H2];
    apply Nat.leb_le in H1, H2; lia.
Qed.

Lemma hyphen_lower c : is_hyphen c = true -> char_toLowerCase c = c.
Proof.
  unfold is_hyphen. intros H. apply Ascii.eqb_eq in H. subst c. reflexivity.
Qed.

Lemma inside_lower s :
  hyphens_inside s = true -> string_map char_toLowerCase s = s.
Proof.
  induction s as [|c s IH]; simpl; intros H; [reflexivity|].
  apply andb_true_iff in H. destruct H as [Hc Hs].
  rewrite (IH Hs). f_equal.
  destruct (is_hyphen c) eqn:E; [apply hyphen_lower | apply slug_char_lower];
    assumption.
Qed.

Lemma inside_collapse s :
  hyphens_inside s = true ->
  forall in_run,
    (in_run = true -> starts_with_hyphen s = false) ->
    collapse_runs in_run s = s.
Proof.
  induction s as [|c s IH]; simpl; intros H in_run Hrun; [reflexivity|].
  apply andb_true_iff in H. destruct H as [Hc Hs].
  destruct (is_hyphen c) eqn:E.
  - rewrite (hyphen_not_slug_char c E).
    destruct in_run; [specialize (Hrun eq_refl); discriminate|].
    unfold is_hyphen in E. apply Ascii.eqb_eq in E. subst c.
    f_equal. apply (IH Hs). intros _.
    destruct s; [discriminate|]. simpl. apply negb_true_iff. exact Hc.
  - rewrite Hc. f_equal. apply (IH Hs). discriminate.
Qed.

Lemma no_hyphen_strip_leading s :
  starts_with_hyphen s = false -> strip_leading_hyphens s = s.
Proof.
  destruct s as [|c s]; simpl; [reflexivity|].
  unfold is_hyphen. intros ->. reflexivity.
Qed.

Lemma inside_strip_trailing s :
  hyphens_inside s = true -> strip_trailing_hyphens s = s.
Proof.
  induction s as [|c s IH]; simpl; intros H; [reflexivity|].
  apply andb_true_iff in H. destruct H as [Hc Hs].
  rewrite (IH Hs). destruct s as [|c' s']; [|reflexivity].
  fold (is_hyphen c). destruct (is_hyphen c); [discriminate | reflexivity].
Qed.

Lemma generateSlug_fixed s : slug_shaped s = true -> generateSlug s = s.
Proof.
  unfold slug_shaped, generateSlug. intros H.
  apply andb_true_iff in H. destruct H as [Hh Hi].
  apply negb_true_iff in Hh.
  rewrite (inside_lower s Hi).
  rewrite (inside_collapse s Hi false) by discriminate.
  rewrite (no_hyphen_strip_leading s Hh).
  apply (inside_strip_trailing s Hi).
Qed.

(** X14.  [generateSlug] is idempotent: a slug is its own slug, so the
    slug of an operation identifier that is already a slug is that
    identifier. *)
Theorem generateSlug_idempotent (input : string) :
  generateSlug (generateSlug input) = generateSlug input
  /\ (slug_shaped input = true -> generateSlug input = input).
Proof.
  split.
  - apply generateSlug_fixed. apply generateSlug_slug_shaped.
  - apply generateSlug_fixed.
Qed.

Lemma generateSlug_idempotent_witness :
  slug_shaped "list-pets-v2" = true /\ generateSlug "list-pets-v2" = "list-pets-v2".
Proof.
  split; [reflexivity|].
  apply (proj2 (generateSlug_idempotent "list-pets-v2")). reflexivity.
Defined.

Ltac by_cases_on_char c :=
  destruct c as [[] [] [] [] [] [] [] []]; reflexivity.

Lemma upper_word c : is_word_char (char_toUpperCase c) = is_word_char c.
Proof. by_cases_on_char c. Qed.

Lemma upper_upper c : char_toUpperCase (char_toUpperCase c) = char_toUpperCase c.
Proof. by_cases_on_char c. Qed.

Lemma upper_separator c :
  (Ascii.eqb (char_toUpperCase c) "-" || Ascii.eqb (char_toUpperCase c) "_")
  = (Ascii.eqb c "-" || Ascii.eqb c "_").
Proof. by_cases_on_char c. Qed.

Lemma length_string_map f s :
  String.length (string_map f s) = String.length s.
Proof. induction s as [|c s IH]; simpl; congruence. Qed.

Lemma length_capitalize_words s :
  forall b, String.length (capitalize_words b s) = String.length s.
Proof. induction s as [|c s IH]; intros b; simpl; [|rewrite IH]; reflexivity. Qed.

Lemma no_separator_replaced s :
  no_separator
    (string_map
       (fun c => if Ascii.eqb c "-" || Ascii.eqb c "_" then " "%char else c) s)
  = true.
Proof.
  induction s as [|c s IH]; simpl; [reflexivity|].
  rewrite IH, andb_true_r.
  destruct (Ascii.eqb c "-" || Ascii.eqb c "_") eqn:E; [reflexivity|].
  rewrite E. reflexivity.
Qed.

Lemma no_separator_capitalize s :
  forall b, no_separator (capitalize_words b s) = no_separator s.
Proof.
  induction s as [|c s IH]; intros b; simpl; [reflexivity|].
  rewrite IH. f_equal.
  destruct (is_word_char c && negb b); [|reflexivity].
  rewrite upper_separator. reflexivity.
Qed.

Lemma no_separator_fixed s :
  no_separator s = true ->
  string_map
    (fun c => if Ascii.eqb c "-" || Ascii.eqb c "_" then " "%char else c) s
  = s.
Proof.
  induction s as [|c s IH]; simpl; intros H; [reflexivity|].
  apply andb_true_iff in H. destruct H as [Hc Hs].
  apply negb_true_iff in Hc. rewrite Hc, (IH Hs). reflexivity.
Qed.

Lemma capitalize_words_twice s :
  forall b, capitalize_words b (capitalize_words b s) = capitalize_words b s.
Proof.
  induction s as [|c s IH]; intros b; simpl; [reflexivity|].
  destruct (is_word_char c && negb b) eqn:E.
  - rewrite upper_word, E, upper_upper, IH. reflexivity.
  - rewrite E, IH. reflexivity.
Qed.

(** X15.  [toTitleCase] keeps the length of its argument, leaves no
    hyphen and no underscore in the label, and is idempotent. *)
Theorem toTitleCase_label (str : string) :
  String.length (toTitleCase str) = String.length str
  /\ no_separator (toTitleCase str) = true
  /\ toTitleCase (toTitleCase str) = toTitleCase str.
Proof.
  assert (Hsep : no_separator (toTitleCase str) = true).
  { unfold toTitleCase. rewrite no_separator_capitalize.
    apply no_separator_replaced. }
  split; [|split].
  - unfold toTitleCase. rewrite length_capitalize_words.
    apply length_string_map.
  - exact Hsep.
  - unfold toTitleCase at 1. rewrite (no_separator_fixed _ Hsep).
    unfold toTitleCase. apply capitalize_words_twice.
Qed.

(** X16.  The type mapping is onto the five field types and each of them
    stands for itself: the name of a field type maps back to that type,
    [integer] maps to [number], and every other name, and an absent type,
    maps to [string]. *)
Theorem schemaTypeToFieldType_mapping :
  (forall t, schemaTypeToFieldType (Some (fieldtype_name t)) = t)
  /\ schemaTypeToFieldType (Some "integer") = TNumber
  /\ schemaTypeToFieldType None = TString
  /\ (forall name,
        ~ In name ["string"; "number"; "integer"; "boolean"; "array"; "object"] ->
        schemaTypeToFieldType (Some name) = TString).
Proof.
  split; [intros []; reflexivity|]. split; [reflexivity|].
  split; [reflexivity|].
  intros name Hn. unfold schemaTypeToFieldType.
  repeat match goal with
         | |- context [(name =? ?s)%string] =>
             destruct (String.eqb_spec name s) as [-> |];
             [exfalso; apply Hn; simpl; tauto|]
         end.
  reflexivity.
Qed.

Lemma schemaTypeToFieldType_mapping_witness :
  ~ In "file" ["string"; "number"; "integer"; "boolean"; "array"; "object"]
  /\ schemaTypeToFieldType (Some "file") = TString.
Proof.
  assert (H : ~ In "file"
                ["string"; "number"; "integer"; "boolean"; "array"; "object"]).
  { simpl. intros H. repeat (destruct H as [H|H]; [discriminate|]). exact H. }
  split; [exact H|].
  apply (proj2 (proj2 (proj2 schemaTypeToFieldType_mapping)) "file" H).
Defined.

(* ================================================================== *)
(** ** Further properties of [schemaToFields] *)
(* ================================================================== *)

Lemma list_max_bound (l : list nat) (b : nat) :
  Forall (fun n => n <= b) l -> list_max l <= b.
Proof. intros H. apply list_max_le. exact H. Qed.

Lemma heights_bound (fields : list ParsedField) (b : nat) :
  Forall (fun f => field_height f <= b) fields ->
  list_max (map field_height fields) <= b.
Proof.
  intros H. apply list_max_bound. apply Forall_map. exact H.
Qed.

Lemma item_field_height items properties b :
  match properties with
  | Some ps => Forall (fun f => field_height f <= b) ps
  | None => True
  end ->
  field_height (item_field items properties) <= S b.
Proof.
  unfold item_field. simpl. intros H. apply le_n_S.
  rewrite Nat.max_0_r. destruct properties as [ps|]; [|apply Nat.le_0_l].
  apply heights_bound. exact H.
Qed.

Lemma height_bound_step depth :
  depth <= 2 -> height_bound depth = S (S (height_bound (depth + 1))).
Proof. unfold height_bound. lia. Qed.

(** X17.  The depth bound bounds the result: whatever the schema, no
    field of [schemaToFields schema depth] is higher than [2 * (3 - depth)]
    (each of the three object levels below the bound adds a field and, for
    an array property, its [items] descriptor), so the fields of a
    top-level call are at most six levels high. *)
Theorem schemaToFields_height_bound (schema : SchemaObject) (depth : nat) :
  Forall (fun f => field_height f <= height_bound depth)
    (schemaToFields schema depth).
Proof.
  revert depth.
  enough (H :
    (forall depth,
        Forall (fun f => field_height f <= height_bound depth)
          (schemaToFields schema depth))
    /\ (forall it, schema_items schema = Some it ->
          forall depth,
            Forall (fun f => field_height f <= height_bound depth)
              (schemaToFields it depth)))
    by exact (proj1 H).
  induction schema as [r t props req items d e f df ex IHprops IHitems]
    using SchemaObject_nested_ind.
  assert (Hsub : forall it, items = Some it ->
            forall depth,
              Forall (fun f => field_height f <= height_bound depth)
                (schemaToFields it depth)).
  { intros it Hit depth. subst items. simpl in IHitems.
    apply (proj1 IHitems). }
  split; [|exact Hsub].
  intros depth. rewrite schemaToFields_unfold. simpl.
  destruct (2 <? depth)%nat eqn:Hd; [constructor|].
  apply Nat.ltb_ge in Hd.
  assert (Hitems :
    Forall (fun f => field_height f <= height_bound depth)
      match items with
      | Some items0 =>
          if type_is t "array" && negb (is_some (schema_ref items0))
          then schemaToFields items0 depth
          else []
      | None => []
      end).
  { destruct items as [it|]; [|constructor].
    destruct (type_is t "array" && negb (is_some (schema_ref it)));
      [apply (Hsub it eq_refl) | constructor]. }
  destruct props as [ps|]; [|exact Hitems].
  destruct (type_is t "object"); [|exact Hitems].
  apply Forall_forall. intros fld Hin.
  apply in_map_iff in Hin. destruct Hin as ([k p] & <- & Hin).
  apply filter_In in Hin. destruct Hin as [Hin _].
  rewrite Forall_forall in IHprops. specialize (IHprops (k, p) Hin).
  simpl in IHprops. destruct IHprops as [IHp IHpitems].
  unfold property_field. cbn [field_height fst snd].
  rewrite (height_bound_step depth Hd).
  apply le_n_S. apply Nat.max_lub.
  - destruct (type_is (schema_type p) "object" && is_some (schema_properties p));
      [|apply Nat.le_0_l].
    apply Nat.le_trans with (height_bound (depth + 1)); [|lia].
    apply heights_bound. apply IHp.
  - destruct (schema_items p) as [it|]; [|apply Nat.le_0_l].
    destruct (type_is (schema_type p) "array" && negb (is_some (schema_ref it)));
      [|apply Nat.le_0_l].
    apply item_field_height.
    destruct (type_is (schema_type it) "object" && is_some (schema_properties it));
      [apply (IHpitems it eq_refl) | exact I].
Qed.

Example height_bound_values :
  map height_bound [0; 1; 2; 3; 4] = [6; 4; 2; 0; 0].
Proof. reflexivity. Qed.

Lemma array_step schema it depth :
  schema_type schema = Some "array" ->
  schema_items schema = Some it ->
  schema_ref it = None ->
  schemaToFields schema depth = schemaToFields it depth.
Proof.
  intros Ht Hi Hr. rewrite (schemaToFields_unfold schema), Ht, Hi, Hr. simpl.
  destruct (2 <? depth)%nat eqn:Hd.
  - rewrite schemaToFields_unfold, Hd. reflexivity.
  - destruct (schema_properties schema); reflexivity.
Qed.

Lemma arrays_of_ref n it :
  schema_ref it = None -> schema_ref (arrays_of n it) = None.
Proof. destruct n; simpl; auto. Qed.

(** X18.  Arrays do not use up depth.  An array schema whose item schema
    is not a reference is flattened as its item schema, at the same
    depth, so any number of arrays around a schema gives the fields of
    that schema; an array of a reference gives no field. *)
Theorem schemaToFields_through_arrays
    (schema it : SchemaObject) (depth : nat) :
  schema_type schema = Some "array" ->
  schema_items schema = Some it ->
  (schema_ref it = None ->
   schemaToFields schema depth = schemaToFields it depth
   /\ forall n, schemaToFields (arrays_of n it) depth = schemaToFields it depth)
  /\ (schema_ref it <> None -> schemaToFields schema depth = []).
Proof.
  intros Ht Hi. split.
  - intros Hr. split; [apply array_step; assumption|].
    induction n as [|n IH]; cbn [arrays_of]; [reflexivity|].
    rewrite <- IH. apply array_step; [reflexivity | reflexivity|].
    apply arrays_of_ref. exact Hr.
  - intros Hr. rewrite schemaToFields_unfold, Ht, Hi. simpl.
    destruct (schema_ref it); [|congruence]. simpl.
    destruct (2 <? depth)%nat; [reflexivity|].
    destruct (schema_properties schema); reflexivity.
Qed.

Lemma schemaToFields_through_arrays_witness :
  schemaToFields (array_schema nested_to_c) 0 = schemaToFields nested_to_c 0
  /\ schemaToFields (arrays_of 3 nested_to_c) 2 = schemaToFields nested_to_c 2
  /\ schemaToFields (array_schema (reference_schema "#/components/schemas/Pet")) 0
     = [].
Proof.
  split; [|split].
  - apply (schemaToFields_through_arrays (array_schema nested_to_c) nested_to_c 0);
      reflexivity.
  - apply (proj1 (schemaToFields_through_arrays (array_schema nested_to_c)
                    nested_to_c 2 eq_refl eq_refl)). reflexivity.
  - apply (proj2 (schemaToFields_through_arrays
                    (array_schema (reference_schema "#/components/schemas/Pet"))
                    (reference_schema "#/components/schemas/Pet") 0
                    eq_refl eq_refl)).
    discriminate.
Defined.

Example deep_rows_height :
  map field_height (schemaToFields deep_rows 0) = [height_bound 0].
Proof. reflexivity. Qed.

(* ================================================================== *)
(** ** Further properties of the action extractors *)
(* ================================================================== *)

Lemma fold_left_push {A B : Type} (step : list B -> A -> list B)
    (f : A -> list B) (l : list A) (acc : list B) :
  (forall acc x, step acc x = acc ++ f x) ->
  fold_left step l acc = acc ++ flat_map f l.
Proof.
  intros Hstep. revert acc. induction l as [|x l IH]; intros acc; simpl.
  - rewrite app_nil_r. reflexivity.
  - rewrite IH, Hstep, <- app_assoc. reflexivity.
Qed.

Lemma extractActions_flat createAction paths :
  extractActions createAction paths
  = flat_map
      (fun entry =>
         match snd entry with
         | Some pathItem => item_actions createAction (fst entry) pathItem
         | None => []
         end)
      paths.
Proof.
  unfold extractActions.
  rewrite (fold_left_push _
             (fun entry =>
                match snd entry with
                | Some pathItem => item_actions createAction (fst entry) pathItem
                | None => []
                end)); [reflexivity|].
  intros acc [path [pathItem|]]; cbn [fst snd]; [|rewrite app_nil_r; reflexivity].
  unfold item_actions.
  apply fold_left_push. intros acc' method.
  destruct (item_operation pathItem method) as [operation|];
    [|rewrite app_nil_r; reflexivity].
  destruct (createAction path method operation);
    [reflexivity | rewrite app_nil_r; reflexivity].
Qed.

Lemma createActionOpenAPI3_endpoint : creates_endpoint createActionOpenAPI3.
Proof. intros path method operation. eexists. split; reflexivity. Qed.

Lemma createActionSwagger2_endpoint : creates_endpoint createActionSwagger2.
Proof. intros path method operation. eexists. split; reflexivity. Qed.

Lemma item_actions_endpoints createAction path pathItem :
  creates_endpoint createAction ->
  map action_endpoint (item_actions createAction path pathItem)
  = map (fun m => (m, path)) (item_methods pathItem).
Proof.
  intros Hc. unfold item_actions, item_methods.
  induction HTTP_METHODS as [|m ms IH]; simpl; [reflexivity|].
  destruct (item_operation pathItem m) as [operation|]; simpl; [|exact IH].
  destruct (Hc path m operation) as (action & -> & He). simpl.
  rewrite He, IH. reflexivity.
Qed.

Lemma extractActions_endpoints createAction paths :
  creates_endpoint createAction ->
  map action_endpoint (extractActions createAction paths)
  = declared_endpoints paths.
Proof.
  intros Hc. rewrite extractActions_flat. unfold declared_endpoints.
  induction paths as [|[path [pathItem|]] paths IH]; simpl; [reflexivity| |exact IH].
  rewrite map_app, IH, (item_actions_endpoints _ _ _ Hc). reflexivity.
Qed.


Example declared_endpoints_pets :
  declared_endpoints pets_paths
  = [(GET, "/pets"); (POST, "/pets"); (DELETE, "/pets/{petId}")].
Proof. reflexivity. Qed.

Lemma map_set_fresh {V : Type} (m : JsMap V) k v :
  ~ In k (map_keys m) -> map_set m k v = m ++ [(k, v)].
Proof.
  unfold map_keys. induction m as [|[k0 v0] m IH]; simpl; intros H; [reflexivity|].
  destruct (String.eqb_spec k0 k) as [-> |Hne]; [tauto|].
  rewrite IH by tauto. reflexivity.
Qed.

Lemma keyed_distinct {A : Type} (key : A -> string) (l : list A) :
  NoDup (map key l) -> keyed key l = map (fun a => (key a, a)) l.
Proof.
  induction l as [|a l IH] using rev_ind; intros Hnd; [reflexivity|].
  rewrite map_app in Hnd. simpl in Hnd.
  pose proof (NoDup_remove_1 _ _ _ Hnd) as Hl.
  pose proof (NoDup_remove_2 _ _ _ Hnd) as Ha.
  rewrite !app_nil_r in *.
  rewrite keyed_snoc, (IH Hl), map_set_fresh, map_app; [reflexivity|].
  unfold map_keys. rewrite map_map. exact Ha.
Qed.

Lemma use_last_distinct l : NoDup (map action_key l) -> use_last l = l.
Proof.
  intros Hnd. unfold use_last.
  rewrite <- (map_id l) at 2. apply map_ext_in. intros a Ha.
  rewrite <- build_map_get.
  assert (Hin : In (action_key a, a) (build_map l)).
  { unfold build_map.
    change (fold_left (fun m a0 => map_set m (action_key a0) a0) l [])
      with (keyed action_key l).
    rewrite (keyed_distinct action_key l Hnd).
    apply (in_map (fun a0 => (action_key a0, a0))). exact Ha. }
  rewrite (map_get_In _ _ _ (build_map_NoDup l) Hin). reflexivity.
Qed.

Lemma endpoint_key_inj e1 e2 : endpoint_key e1 = endpoint_key e2 -> e1 = e2.
Proof.
  destruct e1 as [m1 p1], e2 as [m2 p2]. unfold endpoint_key. simpl.
  destruct m1, m2; simpl; intros H; try discriminate;
    injection H as H; congruence.
Qed.

Lemma NoDup_map_injective {A B : Type} (f : A -> B) (l : list A) :
  (forall x y, f x = f y -> x = y) -> NoDup l -> NoDup (map f l).
Proof.
  intros Hinj. induction 1 as [|x l Hx _ IH]; simpl; constructor; [|exact IH].
  intros Hin. apply in_map_iff in Hin. destruct Hin as (y & Hy & Hin).
  apply Hinj in Hy. subst y. contradiction.
Qed.

Lemma HTTP_METHODS_NoDup : NoDup HTTP_METHODS.
Proof.
  unfold HTTP_METHODS.
  repeat (constructor;
          [simpl; intros H;
           repeat (destruct H as [H|H]; [discriminate|]); exact H|]).
  constructor.
Qed.

Lemma declared_endpoints_paths paths e :
  In e (declared_endpoints paths) -> In (snd e) (map fst paths).
Proof.
  unfold declared_endpoints. intros H. apply in_flat_map in H.
  destruct H as ([path item] & Hin & He). simpl in He.
  destruct item as [pathItem|]; [|contradiction].
  apply in_map_iff in He. destruct He as (m & <- & _). simpl.
  apply (in_map fst _ _ Hin).
Qed.

Lemma declared_endpoints_NoDup paths :
  NoDup (map fst paths) -> NoDup (declared_endpoints paths).
Proof.
  induction paths as [|[path item] paths IH]; simpl; intros Hnd; [constructor|].
  inversion Hnd as [|? ? Hnotin Hnd']; subst.
  change (declared_endpoints ((path, item) :: paths))
    with (match item with
          | Some pathItem => map (fun m => (m, path)) (item_methods pathItem)
          | None => []
          end ++ declared_endpoints paths).
  apply NoDup_app; [| apply IH; exact Hnd' |].
  - destruct item as [pathItem|]; [|constructor].
    apply NoDup_map_injective; [intros x y H; congruence|].
    apply NoDup_filter. apply HTTP_METHODS_NoDup.
  - intros e He Hrest. apply declared_endpoints_paths in Hrest.
    destruct item as [pathItem|]; [|contradiction].
    apply in_map_iff in He. destruct He as (m & <- & _). simpl in Hrest.
    contradiction.
Qed.

Lemma action_key_endpoint a : action_key a = endpoint_key (action_endpoint a).
Proof. reflexivity. Qed.

Lemma extractActions_keys_NoDup createAction paths :
  creates_endpoint createAction ->
  NoDup (map fst paths) ->
  NoDup (map action_key (extractActions createAction paths)).
Proof.
  intros Hc Hnd.
  rewrite (List.map_ext action_key (fun a => endpoint_key (action_endpoint a))
             action_key_endpoint).
  rewrite <- map_map, (extractActions_endpoints _ _ Hc).
  apply NoDup_map_injective; [apply endpoint_key_inj|].
  apply declared_endpoints_NoDup. exact Hnd.
Qed.

(** X20.  The actions of a paths object have pairwise distinct (method,
    path) keys (the paths of an object are distinct).  So the last-seen
    rule of the Diff Engine drops no parsed action: its lookup map holds
    every action of the list, in order, and replacing each action by the
    last one with its key changes nothing. *)
Theorem parsed_actions_have_distinct_keys (paths : PathsObject) :
  NoDup (map fst paths) ->
  (NoDup (map action_key (extractActionsOpenAPI3 paths))
   /\ build_map (extractActionsOpenAPI3 paths)
      = map (fun a => (action_key a, a)) (extractActionsOpenAPI3 paths)
   /\ use_last (extractActionsOpenAPI3 paths) = extractActionsOpenAPI3 paths)
  /\ (NoDup (map action_key (extractActionsSwagger2 paths))
      /\ build_map (extractActionsSwagger2 paths)
         = map (fun a => (action_key a, a)) (extractActionsSwagger2 paths)
      /\ use_last (extractActionsSwagger2 paths) = extractActionsSwagger2 paths).
Proof.
  intros Hnd.
  pose proof (extractActions_keys_NoDup _ paths createActionOpenAPI3_endpoint Hnd)
    as H3.
  pose proof (extractActions_keys_NoDup _ paths createActionSwagger2_endpoint Hnd)
    as H2.
  fold (extractActionsOpenAPI3 paths) in H3.
  fold (extractActionsSwagger2 paths) in H2.
  split; (split; [assumption|]); split;
    first [ apply (keyed_distinct action_key); assumption
          | apply use_last_distinct; assumption ].
Qed.

Lemma parsed_actions_have_distinct_keys_witness :
  NoDup (map fst pets_paths)
  /\ use_last (extractActionsOpenAPI3 pets_paths) = extractActionsOpenAPI3 pets_paths.
Proof.
  assert (H : NoDup (map fst pets_paths)).
  { simpl.
    repeat (constructor;
            [simpl; intros H;
             repeat (destruct H as [H|H]; [discriminate|]); exact H|]).
    constructor. }
  split; [exact H|].
  apply (parsed_actions_have_distinct_keys pets_paths H).
Defined.

(* ================================================================== *)
(** ** Further properties of the authentication extractors *)
(* ================================================================== *)

Lemma api_key_config_name name location config :
  api_key_config name location = Some config ->
  exists n l, config = ApiKeyAuthConfig n l /\ str_truthy n = true.
Proof.
  unfold api_key_config.
  destruct name as [n|]; [|discriminate].
  destruct location as [l|]; [|discriminate].
  destruct (str_truthy n) eqn:E; [|discriminate].
  destruct (l =? "header")%string;
    [intros H; injection H as <-; eauto|].
  destruct (l =? "query")%string; [|discriminate].
  intros H; injection H as <-; eauto.
Qed.

Lemma or_else_consistent b block rest :
  match block with
  | Some r => auth_consistent b r = true
  | None => True
  end ->
  auth_consistent b rest = true ->
  auth_consistent b (or_else block rest) = true.
Proof. destruct block; simpl; auto. Qed.

Lemma v3_blocks_consistent entries :
  auth_consistent "bearer"
    (or_else (v3_apiKey_block entries)
       (or_else (v3_bearer_block entries)
          (or_else (v3_oauth2_block entries) no_auth))) = true.
Proof.
  repeat apply or_else_consistent; try reflexivity.
  - unfold v3_apiKey_block.
    destruct (find v3_is_apiKey entries) as [[n []]|]; try exact I.
    destruct (api_key_config name location) as [config|] eqn:E; [|exact I].
    destruct (api_key_config_name _ _ _ E) as (n' & l & -> & Hn). exact Hn.
  - unfold v3_bearer_block.
    destruct (find v3_is_bearer entries) as [[n s]|] eqn:E; [|exact I].
    find_kind E. destruct s; try discriminate.
    unfold type_is in Hk. destruct scheme as [sc|]; [|discriminate].
    apply String.eqb_eq in Hk. subst sc. reflexivity.
  - unfold v3_oauth2_block.
    destruct (find v3_is_oauth2 entries) as [[n []]|]; try exact I.
    reflexivity.
Qed.

Lemma v2_blocks_consistent entries :
  auth_consistent "basic"
    (or_else (v2_apiKey_block entries)
       (or_else (v2_basic_block entries)
          (or_else (v2_oauth2_block entries) no_auth))) = true.
Proof.
  repeat apply or_else_consistent; try reflexivity.
  - unfold v2_apiKey_block.
    destruct (find v2_is_apiKey entries) as [[n []]|]; try exact I.
    destruct (api_key_config name location) as [config|] eqn:E; [|exact I].
    destruct (api_key_config_name _ _ _ E) as (n' & l & -> & Hn). exact Hn.
  - unfold v2_basic_block.
    destruct (find v2_is_basic entries); [reflexivity | exact I].
  - unfold v2_oauth2_block.
    destruct (find v2_is_oauth2 entries) as [[n []]|]; try exact I.
    reflexivity.
Qed.

(** X21.  The descriptor either extractor returns has one active variant
    and the configuration of that variant: [apiKey] with a name that is
    not empty and the location header or query, [bearer] with the scheme
    name [bearer] (OpenAPI 3) or [basic] (Swagger), [oauth2] with URLs and
    scopes, [none] with no configuration. *)
Theorem auth_descriptor_consistent :
  (forall schemes, auth_consistent "bearer" (extractAuthOpenAPI3 schemes) = true)
  /\ (forall definitions,
        auth_consistent "basic" (extractAuthSwagger2 definitions) = true).
Proof.
  split.
  - intros [schemes|]; [|reflexivity].
    rewrite extractAuthOpenAPI3_blocks. apply v3_blocks_consistent.
  - intros [entries|]; [|reflexivity].
    rewrite extractAuthSwagger2_blocks. apply v2_blocks_consistent.
Qed.

Lemma find_recognised (p : string * SecuritySchemeV3 -> bool) schemes :
  (forall e, p e = true -> v3_recognised e = true) ->
  (forall e, p e = true -> isSecurityScheme (snd e) = true) ->
  find p (filter (fun e => isSecurityScheme (snd e))
            (filter v3_recognised schemes))
  = find p (filter (fun e => isSecurityScheme (snd e)) schemes).
Proof.
  intros Hr Hs. rewrite !(find_filter_sub p _ _ Hs).
  apply find_filter_sub. exact Hr.
Qed.

(** X22.  The OpenAPI 3 extractor looks only at API-key, http bearer and
    OAuth2 schemes: references, OpenID Connect schemes and http schemes
    other than [bearer] (http basic among them) can be dropped from the
    collection without changing the result, and a collection of such
    schemes alone resolves to none. *)
Theorem openapi3_auth_ignores_other_schemes
    (schemes : list (string * SecuritySchemeV3)) :
  extractAuthOpenAPI3 (Some schemes)
  = extractAuthOpenAPI3 (Some (filter v3_recognised schemes))
  /\ (forallb (fun e => negb (v3_recognised e)) schemes = true ->
      extractAuthOpenAPI3 (Some schemes) = no_auth).
Proof.
  assert (Heq : extractAuthOpenAPI3 (Some schemes)
                = extractAuthOpenAPI3 (Some (filter v3_recognised schemes))).
  { rewrite (extractAuthOpenAPI3_blocks (filter v3_recognised schemes)).
    rewrite (extractAuthOpenAPI3_blocks schemes).
    unfold v3_apiKey_block, v3_bearer_block, v3_oauth2_block.
    rewrite !find_recognised; try reflexivity;
      intros [n []] H; try reflexivity; try discriminate H.
    unfold v3_recognised. simpl in *. rewrite H. reflexivity. }
  split; [exact Heq|].
  intros Hall. rewrite Heq.
  rewrite filter_none; [reflexivity|].
  apply Forall_forall. intros e He.
  rewrite forallb_forall in Hall. apply negb_true_iff. apply Hall. exact He.
Qed.

Lemma openapi3_auth_ignores_other_schemes_witness :
  forallb (fun e => negb (v3_recognised e)) unrecognised_schemes = true
  /\ extractAuthOpenAPI3 (Some unrecognised_schemes) = no_auth.
Proof.
  split; [reflexivity|].
  apply (proj2 (openapi3_auth_ignores_other_schemes unrecognised_schemes)).
  reflexivity.
Defined.

(* ================================================================== *)
(** ** Properties of [buildValidationSummary] *)
(* ================================================================== *)

Example buildValidationSummary_sample :
  let s := buildValidationSummary sample_api [] in
  summary_endpointsByMethod s = [("GET", 2); ("POST", 1); ("DELETE", 1)]
  /\ summary_tags s = ["Admin"; "Animals"; "Pets"]
  /\ summary_deprecated s = 2
  /\ summary_version s = "unknown"
  /\ summary_authType s = "none".
Proof. repeat split. Qed.

Lemma method_name_eqb a b :
  (method_name a =? method_name b)%string = Method_eqb a b.
Proof. destruct a, b; reflexivity. Qed.

Lemma total_count_set (m : JsMap nat) k v :
  total_count (map_set m k v) + count_or_0 (map_get m k) = total_count m + v.
Proof.
  unfold total_count. induction m as [|[k0 v0] m IH]; simpl; [lia|].
  destruct (k0 =? k)%string; simpl; lia.
Qed.

Lemma summary_loop actions :
  forall st,
    let st' := fold_left summary_step actions st in
    (forall m,
        map_get (st_endpointsByMethod st') (method_name m)
        = match map_get (st_endpointsByMethod st) (method_name m),
                count_method m actions with
          | None, 0 => None
          | before, n => Some (count_or_0 before + n)
          end)
    /\ total_count (st_endpointsByMethod st')
       = total_count (st_endpointsByMethod st) + length actions
    /\ st_deprecated st' = st_deprecated st + count_deprecated actions
    /\ (forall t, In t (st_allTags st') <->
                  In t (st_allTags st) \/ is_tag_of actions t)
    /\ (NoDup (st_allTags st) -> NoDup (st_allTags st')).
Proof.
  induction actions as [|a actions IH]; intros st; cbn zeta.
  - simpl. split; [|split; [|split; [|split]]].
    + intros m. destruct (map_get (st_endpointsByMethod st) (method_name m));
        [rewrite Nat.add_0_r|]; reflexivity.
    + lia.
    + unfold count_deprecated. simpl. lia.
    + intros t. split; [auto|]. intros [H | (a & tags & [] & _)]. exact H.
    + auto.
  - cbn [fold_left]. specialize (IH (summary_step st a)). cbn zeta in IH.
    destruct IH as (IHm & IHt & IHd & IHtags & IHnd).
    split; [|split; [|split; [|split]]].
    + intros m. rewrite IHm. cbn [summary_step st_endpointsByMethod].
      rewrite map_get_set, method_name_eqb.
      unfold count_method. cbn [filter].
      destruct (Method_eqb (action_method a) m) eqn:E.
      * assert (action_method a = m) by (destruct (action_method a), m; (reflexivity || discriminate)).
        subst m. cbn [length].
        destruct (map_get (st_endpointsByMethod st)
                    (method_name (action_method a))) as [n|];
          cbn [count_or_0];
          destruct (length (filter _ actions)); f_equal; lia.
      * reflexivity.
    + rewrite IHt. cbn [summary_step st_endpointsByMethod length].
      pose proof (total_count_set (st_endpointsByMethod st)
                    (method_name (action_method a))
                    (count_or_0 (map_get (st_endpointsByMethod st)
                                   (method_name (action_method a))) + 1)).
      lia.
    + rewrite IHd. cbn [summary_step st_deprecated].
      unfold count_deprecated. cbn [filter].
      destruct (action_deprecated a) as [[|]|]; cbn [length]; lia.
    + intros t. rewrite IHtags. cbn [summary_step st_allTags].
      unfold is_tag_of. destruct (action_tags a) as [tags|] eqn:E.
      * rewrite fold_set_add_In. split.
        -- intros [[H|H]|(b & ts & Hb & Hts & Ht)]; [left; exact H| |].
           ++ right. exists a, tags. simpl. auto.
           ++ right. exists b, ts. simpl. auto.
        -- intros [H|(b & ts & [-> |Hb] & Hts & Ht)]; [left; left; exact H| |].
           ++ left. right. congruence.
           ++ right. exists b, ts. auto.
      * split.
        -- intros [H|(b & ts & Hb & Hts & Ht)]; [left; exact H|].
           right. exists b, ts. simpl. auto.
        -- intros [H|(b & ts & [-> |Hb] & Hts & Ht)]; [left; exact H| |].
           ++ congruence.
           ++ right. exists b, ts. auto.
    + intros Hnd. apply IHnd. cbn [summary_step st_allTags].
      destruct (action_tags a); [apply fold_set_add_NoDup|]; exact Hnd.
Qed.

Lemma count_deprecated_le actions : count_deprecated actions <= length actions.
Proof. unfold count_deprecated. apply filter_length_le. Qed.

(** X23.  The counts of the summary are the counts of the actions:
    [endpointCount] is their number, [endpointsByMethod] holds for each
    method the number of actions with that method and no entry for a
    method without action, so its counts add up to [endpointCount], and
    [deprecated] is the number of actions marked deprecated, at most
    [endpointCount]. *)
Theorem summary_counts (api : ParsedAPI) (errors : list string) :
  let s := buildValidationSummary api errors in
  summary_endpointCount s = length (api_actions api)
  /\ (forall m,
        map_get (summary_endpointsByMethod s) (method_name m)
        = if (count_method m (api_actions api) =? 0)%nat then None
          else Some (count_method m (api_actions api)))
  /\ total_count (summary_endpointsByMethod s) = summary_endpointCount s
  /\ summary_deprecated s = count_deprecated (api_actions api)
  /\ summary_deprecated s <= summary_endpointCount s.
Proof.
  cbn zeta. unfold buildValidationSummary.
  cbn [summary_endpointCount summary_endpointsByMethod summary_deprecated].
  destruct (summary_loop (api_actions api) (mkSummaryState [] [] 0))
    as (Hm & Ht & Hd & _ & _).
  cbn zeta in *. cbn [st_endpointsByMethod st_deprecated map_get] in *.
  split; [reflexivity|]. split; [|split; [|split]].
  - intros m. rewrite Hm.
    destruct (count_method m (api_actions api)); reflexivity.
  - rewrite Ht. reflexivity.
  - rewrite Hd. reflexivity.
  - rewrite Hd. apply count_deprecated_le.
Qed.








(* ================================================================== *)
(** ** Further properties of [parseSpec] *)
(* ================================================================== *)

(** X25.  A document the strict validation rejects is reported as
    invalid, with the message of the strict validation as details, unless
    that message names an unresolved reference and the tolerant parse
    returns a document; the error of a tolerant parse that fails too is
    not reported. *)
Theorem parseSpec_invalid
    (validate parse : JSON -> Outcome) (spec : JSON) (error : Thrown) :
  validate spec = Threw error ->
  (isMissingRef error = false \/ exists error', parse spec = Threw error') ->
  parseSpec validate parse spec
  = ParseFailure "Invalid OpenAPI/Swagger specification"
      (Some (thrown_message error)).
Proof.
  intros Hv Hcase. unfold parseSpec. rewrite Hv.
  fold (thrown_message error). fold (isMissingRef error).
  destruct (isMissingRef error) eqn:E; [|reflexivity].
  destruct Hcase as [H | [error' H]]; [discriminate|].
  rewrite H. reflexivity.
Qed.

Lemma parseSpec_invalid_witness :
  parseSpec (fun _ => Threw (ThrownError "Missing $ref pointer /x"))
    (fun _ => Threw (ThrownError "Unexpected token")) JNull
  = ParseFailure "Invalid OpenAPI/Swagger specification"
      (Some "Missing $ref pointer /x")
  /\ parseSpec (fun _ => Threw ThrownOther)
       (fun _ => Returned openapi3_document) JNull
     = ParseFailure "Invalid OpenAPI/Swagger specification"
         (Some "Unknown validation error").
Proof.
  split.
  - apply (parseSpec_invalid _ _ JNull (ThrownError "Missing $ref pointer /x"));
      [reflexivity|].
    right. exists (ThrownError "Unexpected token"). reflexivity.
  - apply (parseSpec_invalid _ _ JNull ThrownOther); [reflexivity|].
    left. reflexivity.
Defined.

Lemma dispatch_success d w api :
  dispatch d w = ParseSuccess api ->
  (isOpenAPI3 d = true /\ parseOpenAPI3 d w = ParseSuccess api)
  \/ (isOpenAPI3 d = false /\ isSwagger2 d = true
      /\ parseSwagger2 d w = ParseSuccess api).
Proof.
  unfold dispatch. destruct (isOpenAPI3 d); [auto|].
  destruct (isSwagger2 d); [auto | discriminate].
Qed.

(** X26.  A success of [parseSpec] is the extraction of a document the
    validation library handed over (by strict validation, or by the
    tolerant parse after an unresolved reference) that carries a dialect
    marker; a document with both markers is read as OpenAPI 3, the
    Swagger extractor runs only when the OpenAPI 3 marker is absent. *)
Theorem parseSpec_success_only_if
    (validate parse : JSON -> Outcome) (spec : JSON) (api : ParsedAPI) :
  parseSpec validate parse spec = ParseSuccess api ->
  exists d warnings,
    validated_as validate parse spec d
    /\ ((isOpenAPI3 d = true /\ parseOpenAPI3 d warnings = ParseSuccess api)
        \/ (isOpenAPI3 d = false /\ isSwagger2 d = true
            /\ parseSwagger2 d warnings = ParseSuccess api)).
Proof.
  unfold parseSpec. intros H.
  destruct (validate spec) as [d|error] eqn:Hv.
  - exists d, []. split; [left; exact Hv|]. apply dispatch_success. exact H.
  - fold (thrown_message error) in H.
    destruct (includes "Missing $ref pointer" (thrown_message error)
              || includes "does not exist" (thrown_message error)) eqn:E;
      [|discriminate].
    destruct (parse spec) as [d|error'] eqn:Hp; [|discriminate].
    exists d, ([] ++ [("Unresolved references: " ++ thrown_message error)%string]).
    split; [|apply dispatch_success; exact H].
    right. exists error. repeat split; [exact Hv | exact E | exact Hp].
Qed.

Lemma parseSpec_success_only_if_witness :
  parseSpec (fun _ => Returned openapi3_document) (fun _ => Threw ThrownOther)
    JNull
  = ParseSuccess
      (assemble_api openapi3_document "https://api.example.com" no_auth
         (extractActionsOpenAPI3 pets_paths) [])
  /\ exists d warnings,
       validated_as (fun _ => Returned openapi3_document)
         (fun _ => Threw ThrownOther) JNull d
       /\ ((isOpenAPI3 d = true
            /\ parseOpenAPI3 d warnings
               = ParseSuccess
                   (assemble_api openapi3_document "https://api.example.com"
                      no_auth (extractActionsOpenAPI3 pets_paths) []))
           \/ (isOpenAPI3 d = false /\ isSwagger2 d = true
               /\ parseSwagger2 d warnings
                  = ParseSuccess
                      (assemble_api openapi3_document "https://api.example.com"
                         no_auth (extractActionsOpenAPI3 pets_paths) []))).
Proof.
  split; [reflexivity|].
  apply (parseSpec_success_only_if (fun _ => Returned openapi3_document)
           (fun _ => Threw ThrownOther) JNull).
  reflexivity.
Defined.

(* ================================================================== *)
(** ** A list compared with itself *)
(* ================================================================== *)

Lemma compareEndpoints_same a : compareEndpoints a a [] = self_changes a.
Proof.
  rewrite compareEndpoints_groups. simpl.
  assert (H1 : required_param_added_group a a = []).
  { unfold required_param_added_group. rewrite filter_none; [reflexivity|].
    apply Forall_forall. intros p Hp.
    unfold oldRequiredParams. unfold newRequiredParams in Hp.
    rewrite (set_has_map_key _ p Hp). reflexivity. }
  assert (H2 : optional_param_added_group a a = []).
  { unfold optional_param_added_group. rewrite filter_none; [reflexivity|].
    apply Forall_forall. intros p Hp. unfold oldAllParams.
    apply filter_In in Hp. rewrite (set_has_map_key _ p (proj1 Hp)).
    reflexivity. }
  assert (H3 : param_removed_group a a = []).
  { unfold param_removed_group. rewrite filter_none; [reflexivity|].
    apply Forall_forall. intros k Hk. unfold newAllParams.
    unfold oldAllParams in Hk.
    apply set_has_In in Hk. rewrite Hk. reflexivity. }
  assert (H5 : required_body_field_added_group a a = []).
  { unfold required_body_field_added_group. rewrite filter_none; [reflexivity|].
    apply Forall_forall. intros p Hp. unfold oldBodyKeys.
    rewrite (set_has_map_key _ p Hp). apply andb_false_r. }
  assert (H6 : response_field_removed_group a a = []).
  { unfold response_field_removed_group. rewrite filter_none; [reflexivity|].
    apply Forall_forall. intros p Hp. unfold newResponseKeys.
    rewrite (set_has_map_key _ p Hp). reflexivity. }
  assert (H7 : description_changed_group a a = []).
  { unfold description_changed_group, description_differs.
    rewrite String.eqb_refl. reflexivity. }
  rewrite H1, H2, H3, H5, H6, H7, app_nil_r. simpl.
  unfold param_type_changed_group, self_changes. f_equal.
  apply filter_ext. intros p. apply type_differs_retyped.
Qed.

Lemma self_diff_changes A :
  changes (diffSpecs A A) = flat_map (fun e => self_changes (snd e)) (build_map A).
Proof.
  rewrite diffSpecs_changes.
  assert (Hhas : forall e, In e (build_map A) ->
                           map_has (build_map A) (fst e) = true).
  { intros e He. apply map_has_In. apply in_map. exact He. }
  unfold removed_changes, added_changes.
  rewrite filter_none.
  2:{ apply Forall_forall. intros e He. rewrite (Hhas e He). reflexivity. }
  simpl.
  assert (Hblocks : forall m, incl m (build_map A) ->
            flat_map (modified_block (build_map A)) m
            = flat_map (fun e => self_changes (snd e)) m).
  { induction m as [|[k a] m IH]; intros Hincl; [reflexivity|].
    simpl. rewrite IH by (intros x Hx; apply Hincl; right; exact Hx).
    unfold modified_block. simpl.
    assert (Hin : In (k, a) (build_map A)) by (apply Hincl; left; reflexivity).
    rewrite (map_get_In _ _ _ (build_map_NoDup A) Hin).
    rewrite compareEndpoints_same. reflexivity. }
  apply Hblocks. apply incl_refl.
Qed.

(** X27.  What a list compared with itself reports.  The changes of
    [diffSpecs A A] are param-type-changed changes only: for each
    endpoint, one for every parameter that a later parameter of the same
    action (query, then path) with the same key and another type hides.
    So the comparison is empty exactly when no last-seen action has such
    a parameter, and it never holds a non-breaking change. *)
Theorem diffSpecs_self_exactly (A : list ParsedAction) :
  changes (diffSpecs A A)
  = flat_map (fun e => self_changes (snd e)) (build_map A)
  /\ (changes (diffSpecs A A) = [] <->
      forall k a p, find_last k A = Some a -> In p (all_params a) ->
                    retyped a p = false)
  /\ nonBreakingCount (diffSpecs A A) = 0.
Proof.
  pose proof (self_diff_changes A) as Hch.
  split; [exact Hch|]. split.
  - rewrite Hch. split.
    + intros Hnil k a p Ha Hp.
      rewrite <- build_map_get in Ha.
      destruct (map_get_split _ _ _ Ha) as (m1 & m2 & Hsplit & _).
      rewrite Hsplit, flat_map_app in Hnil. simpl in Hnil.
      apply app_eq_nil in Hnil. destruct Hnil as [_ Hnil].
      apply app_eq_nil in Hnil. destruct Hnil as [Hnil _].
      unfold self_changes in Hnil. apply map_eq_nil in Hnil.
      destruct (retyped a p) eqn:E; [|reflexivity].
      assert (Hin : In p (filter (retyped a) (all_params a)))
        by (apply filter_In; auto).
      rewrite Hnil in Hin. contradiction.
    + intros Hall.
      assert (Hgen : forall m, incl m (build_map A) ->
                flat_map (fun e => self_changes (snd e)) m = []).
      { induction m as [|[k a] m IH]; intros Hincl; [reflexivity|].
        simpl. rewrite IH by (intros x Hx; apply Hincl; right; exact Hx).
        rewrite app_nil_r. unfold self_changes.
        rewrite filter_none; [reflexivity|].
        apply Forall_forall. intros p Hp. apply (Hall k a p); [|exact Hp].
        rewrite <- build_map_get.
        apply map_get_In; [apply build_map_NoDup|].
        apply Hincl. left. reflexivity. }
      apply Hgen. apply incl_refl.
  - destruct (diffSpecs_counts A A) as [_ ->]. rewrite Hch.
    apply tally_breaking_all.
    apply Forall_flat_map. apply Forall_forall. intros e _.
    apply Forall_map_const. reflexivity.
Qed.

Lemma diffSpecs_self_exactly_witness :
  changes (diffSpecs petstore_v1 petstore_v1) = []
  /\ retyped list_pets_v1 (sample_field "limit" TNumber false) = false.
Proof.
  split; [reflexivity|].
  apply (proj1 (proj1 (proj2 (diffSpecs_self_exactly petstore_v1))) eq_refl
           "GET /pets" list_pets_v1);
    [reflexivity | left; reflexivity].
Defined.

(* ================================================================== *)
(** ** The exit status of the commands *)
(* ================================================================== *)

Lemma tally_breaking_zero l :
  tally breaking l = 0 <-> Forall (fun c => change_type c = non_breaking) l.
Proof.
  unfold tally. induction l as [|c l IH]; simpl.
  - split; [constructor | reflexivity].
  - destruct (change_type c) eqn:E; simpl.
    + split; [discriminate|]. intros H. inversion H; subst. congruence.
    + rewrite IH. split.
      * intros H. constructor; assumption.
      * intros H. inversion H; assumption.
Qed.

(** X28.  [specway diff] exits with status 0 exactly when both documents
    were parsed and the comparison of their actions holds no breaking
    change; the option [--breaking-only] changes what is shown (the
    breaking changes, as many as [breakingCount]) and not the status. *)
Theorem diff_exit_status (oldResult newResult : ParseResult) :
  (diff_exit_code oldResult newResult = 0 <->
   exists oldApi newApi,
     oldResult = ParseSuccess oldApi /\ newResult = ParseSuccess newApi
     /\ Forall (fun c => change_type c = non_breaking)
          (changes (diffSpecs (api_actions oldApi) (api_actions newApi))))
  /\ (diff_exit_code oldResult newResult = 0
      \/ diff_exit_code oldResult newResult = 1)
  /\ (forall o n,
        length (diff_shown (diffSpecs o n) true) = breakingCount (diffSpecs o n)
        /\ Forall (fun c => change_type c = breaking)
             (diff_shown (diffSpecs o n) true)
        /\ diff_shown (diffSpecs o n) false = changes (diffSpecs o n)).
Proof.
  split; [|split].
  - unfold diff_exit_code.
    destruct oldResult as [oldApi|e d]; [|split; [discriminate|];
      intros (a & b & H & _); discriminate].
    destruct newResult as [newApi|e d]; [|split; [discriminate|];
      intros (a & b & _ & H & _); discriminate].
    destruct (diffSpecs_counts (api_actions oldApi) (api_actions newApi))
      as [Hb _].
    split.
    + intros H. exists oldApi, newApi. repeat split.
      apply tally_breaking_zero. rewrite <- Hb.
      destruct (breakingCount _); [reflexivity | discriminate].
    + intros (a & b & Ha & Hb' & Hall). injection Ha as <-. injection Hb' as <-.
      apply tally_breaking_zero in Hall. rewrite Hb, Hall. reflexivity.
  - unfold diff_exit_code.
    destruct oldResult; [|auto]. destruct newResult; [|auto].
    destruct (0 <? _)%nat; auto.
  - intros o n. unfold diff_shown. split; [reflexivity|]. split; [|reflexivity].
    apply Forall_forall. intros c Hc. apply filter_In in Hc.
    destruct Hc as [_ Hc]. destruct (change_type c); [reflexivity | discriminate].
Qed.

Lemma diff_exit_status_witness :
  diff_exit_code (ParseSuccess (api_of_paths petstore_v1 []))
    (ParseSuccess (api_of_paths petstore_v1 [])) = 0.
Proof.
  apply (proj2 (proj1 (diff_exit_status _ _))).
  exists (api_of_paths petstore_v1 []), (api_of_paths petstore_v1 []).
  split; [reflexivity|]. split; [reflexivity|]. constructor.
Defined.

(** X29.  [specway validate] exits with status 0 exactly when the
    document was parsed and, under [--strict], the parser recorded no
    warning; without [--strict] a parsed document always validates, and
    under [--strict] every warning becomes an error marked [[strict]]. *)
Theorem validate_exit_status (result : ParseResult) (strict : bool) :
  (validate_exit_code result strict = 0 <->
   exists api, result = ParseSuccess api
               /\ (strict = true -> api_warnings api = []))
  /\ (forall api,
        summary_errors (validate_summary api false) = []
        /\ summary_errors (validate_summary api true)
           = map (fun w => ("[strict] " ++ w)%string) (api_warnings api)).
Proof.
  split.
  - unfold validate_exit_code.
    destruct result as [api|e d];
      [|split; [discriminate | intros (a & H & _); discriminate]].
    unfold validate_summary, buildValidationSummary.
    cbn [summary_warnings summary_errors].
    split.
    + intros H. exists api. split; [reflexivity|]. intros ->.
      destruct (api_warnings api) as [|w ws]; [reflexivity|].
      simpl in H. discriminate.
    + intros (a & Ha & Hw). injection Ha as <-.
      destruct strict; [|reflexivity].
      rewrite (Hw eq_refl). reflexivity.
  - intros api. unfold validate_summary, buildValidationSummary.
    cbn [summary_warnings summary_errors]. split; [reflexivity|].
    destruct (api_warnings api) as [|w ws]; reflexivity.
Qed.

Lemma validate_exit_status_witness :
  validate_exit_code (ParseSuccess (api_of_paths petstore_v1 [])) true = 0
  /\ validate_exit_code
       (ParseSuccess (api_of_paths petstore_v1 ["Unresolved references: x"]))
       false = 0.
Proof.
  split.
  - apply (proj2 (proj1 (validate_exit_status _ true))).
    exists (api_of_paths petstore_v1 []). split; [reflexivity|].
    intros _. reflexivity.
  - apply (proj2 (proj1 (validate_exit_status _ false))).
    exists (api_of_paths petstore_v1 ["Unresolved references: x"]).
    split; [reflexivity|]. discriminate.
Defined.
